(** * The translation cache manager of QBDI: [ExecBlockManager]

    A shallow embedding of [src/ExecBlock/ExecBlockManager.cpp].

    - machine integers are [Z] with the wrap-around written out
      ([wrap16], [wrap32], [wrap64]);
    - [std::vector] is [list] accessed with stdpp's lookup, [std::map] is
      [gmap];
    - [ExecBlock*] is an address into an explicit heap of blocks, so that a
      [SeqLoc] and a region's [blocks] vector alias the same buffer;
    - a C++ operation whose behaviour is undefined (an out-of-bounds
      [operator[]], [front()] of an empty vector, a dangling pointer) yields
      [Undefined]; a loop that cannot finish yields [Stuck]; an exception
      that nothing catches yields [Thrown];
    - single-precision floating point ([getExpansionRatio], the occupation
      ratios of [printCacheStatistics]) is the IEEE 754 binary32 format of
      the standard library's [SpecFloat];
    - the static helpers of the operand analysis ([analyseRegister],
      [tryMergeCurrentRegister], [analyseImplicitRegisters],
      [analyseOperands]) run in [thrower], which adds the exception of
      [std::bitset] to the undefined behaviour; [analyzeInstMetadata] calls
      them for the facet of the operands; the tables of LLVM that they ask
      are records of functions, those of the manager and the registers of
      the machine context the class [Target]. *)

From Stdlib Require Import ZArith Lia Floats.SpecFloat.
From stdpp Require Import base option list gmap sorting.

(** ** Machine integers *)

Definition wrap (w x : Z) : Z := (x mod 2 ^ w)%Z.
Definition wrap16 : Z -> Z := wrap 16.
Definition wrap32 : Z -> Z := wrap 32.
Definition wrap64 : Z -> Z := wrap 64.

(** ** Outcomes of an operation *)

Inductive outcome (A : Type) : Type :=
| Done (a : A)
| Undefined
| Stuck
| Thrown.     (* a C++ exception leaves the operation *)
Arguments Done {A} a.
Arguments Undefined {A}.
Arguments Stuck {A}.
Arguments Thrown {A}.

#[global] Instance outcome_ret : MRet outcome := @Done.
#[global] Instance outcome_bind : MBind outcome := fun A B f x =>
  match x with
  | Done a => f a
  | Undefined => Undefined
  | Stuck => Stuck
  | Thrown => Thrown
  end.

(** An access that C++ leaves undefined when the element is absent. *)
Definition access {A : Type} (x : option A) : outcome A :=
  match x with
  | Some a => Done a
  | None => Undefined
  end.

(** ** Guest ranges *)

(** Modelled from the spec: [Range<rword>] (its header is not part of the
    sources read here) is the half-open interval [[start, end)] of unsigned
    machine words with [contains], [overlaps] and [size]. [rword] is taken
    as the 64-bit word of the x86-64 target. *)
Record Range : Type := mkRange { start : Z; end_ : Z }.

Definition contains_addr (r : Range) (t : Z) : bool :=
  (start r <=? t)%Z && (t <? end_ r)%Z.

Definition contains (r r' : Range) : bool :=
  (start r <=? start r')%Z && (end_ r' <=? end_ r)%Z.

Definition overlaps (r r' : Range) : bool :=
  (start r <? end_ r')%Z && (start r' <? end_ r)%Z.

(** [size()] *)
Definition range_size (r : Range) : Z := wrap64 (end_ r - start r).

(** ** Single-precision arithmetic *)

Definition float : Type := spec_float.

(** [(float) n] for an unsigned integer [n]: round to nearest, ties to even. *)
Definition float_of_Z (n : Z) : float := binary_normalize 24 128 n 0 false.
Definition fmul : float -> float -> float := SFmul 24 128.
Definition fdiv : float -> float -> float := SFdiv 24 128.

(** Truncation toward zero of a finite value. *)
Definition ftrunc (x : float) : Z :=
  match x with
  | S754_finite s m e =>
      let v := if (0 <=? e)%Z then (Z.pos m * 2 ^ e)%Z
               else (Z.pos m / 2 ^ (- e))%Z in
      if s then (- v)%Z else v
  | _ => 0%Z
  end.

(** [(unsigned) x]. C++ defines it only when the truncated value fits; the
    x86-64 code (a 64-bit [cvttss2si] whose low half is kept) gives the
    value modulo 2^32, which is what is modelled. *)
Definition unsigned_of_float (x : float) : Z := wrap32 (ftrunc x).

(** ** Operand analysis *)

(** The analysis of operands can also end in a C++ exception:
    [std::bitset::set] and [std::bitset::test] throw [std::out_of_range]
    for a position that the bit set does not have. *)
Inductive thrower (A : Type) : Type :=
| Returns (a : A)
| Throws
| Unbound.     (* behaviour that C++ leaves undefined *)
Arguments Returns {A} a.
Arguments Throws {A}.
Arguments Unbound {A}.

#[global] Instance thrower_ret : MRet thrower := @Returns.
#[global] Instance thrower_bind : MBind thrower := fun A B f x =>
  match x with
  | Returns a => f a
  | Throws => Throws
  | Unbound => Unbound
  end.

(** An element of an array, which C++ leaves undefined out of bounds. *)
Definition element {A : Type} (x : option A) : thrower A :=
  match x with
  | Some a => Returns a
  | None => Unbound
  end.

Definition wrap8 : Z -> Z := wrap 8.

(** Modelled from the spec: an operand is a register or an immediate, with
    read/write access, size, sub-register offset, machine-context index and
    symbolic register name ([InstAnalysis.h] is not part of the sources read
    here). [op_type], [op_value] and [op_size] are the fields [type],
    [value] and [size]; the size, the offset and the context index are
    bytes; the name is a [const char*], compared as a pointer, 0 when null;
    the access is a bit set over {read, write}. *)
Inductive OperandType : Type :=
| OPERAND_INVALID
| OPERAND_IMM
| OPERAND_GPR
| OPERAND_PRED.

#[global] Instance OperandType_eq_dec : EqDecision OperandType :=
  ltac:(solve_decision).

Definition REGISTER_UNUSED : Z := 0.
Definition REGISTER_READ : Z := 1.
Definition REGISTER_WRITE : Z := 2.
Definition REGISTER_READ_WRITE : Z := 3.

Record OperandAnalysis : Type := mkOperandAnalysis {
  op_type : OperandType;
  op_value : Z;
  op_size : Z;
  regOff : Z;
  regCtxIdx : Z;
  regName : Z;
  regAccess : Z
}.

(** [memset(&opa, 0, sizeof(OperandAnalysis))], and an element of
    [new OperandAnalysis[n]()]. *)
Definition zero_operand : OperandAnalysis :=
  mkOperandAnalysis OPERAND_INVALID 0 0 0 0 0 0.

(** The two fields of [InstAnalysis] that the analysis of operands
    writes; the array is [None] when null. *)
Record Operands : Type := mkOperands {
  numOperands : nat;
  operands : option (list OperandAnalysis)
}.

(** Modelled from the spec: the register tables of the disassembler
    (LLVM's [MCRegisterInfo]), as far as the analysis asks them. *)
Record MCRegisterInfo : Type := mkMCRegisterInfo {
  getName : Z -> Z;
  isSubRegisterEq : Z -> Z -> bool;
  getSubRegIndex : Z -> Z -> Z;
  getSubRegIdxSize : Z -> Z;
  getSubRegIdxOffset : Z -> Z;
  getNumRegClasses : Z;
  getRegClassSize : Z -> Z      (* [getRegClass(i).getSize()] *)
}.

(** Modelled from the spec: an operand of a decoded instruction (LLVM's
    [MCOperand]) is invalid, a register, an immediate, or something else. *)
Inductive MCOperand : Type :=
| InvalidOperand
| RegOperand (regNo : Z)
| ImmOperand (imm : Z)
| OtherOperand.

(** Modelled from the spec: the kinds of operand of an instruction
    description (LLVM's [MCOI::OperandType]). *)
Inductive MCOI_OperandType : Type :=
| OPERAND_UNKNOWN
| OPERAND_IMMEDIATE
| OPERAND_REGISTER
| OPERAND_MEMORY
| OPERAND_PCREL.

#[global] Instance MCOI_OperandType_eq_dec : EqDecision MCOI_OperandType :=
  ltac:(solve_decision).

Record MCOperandInfo : Type := mkMCOperandInfo {
  RegClass : Z;
  OperandType_ : MCOI_OperandType;
  isLookupPtrRegClass : bool;
  isPredicate : bool
}.

(** Modelled from the spec: the description of an instruction (LLVM's
    [MCInstrDesc]). The arrays of implicit registers end with a 0 and are
    null ([None]) when there is none; a list stands for an array that holds
    its elements and then a 0. *)
Record MCInstrDesc : Type := mkMCInstrDesc {
  isVariadic : bool;
  getNumDefs : nat;
  getImplicitDefs : option (list Z);
  getImplicitUses : option (list Z);
  OpInfo : list MCOperandInfo
}.

(** The registers of a zero-terminated array. *)
Fixpoint until_zero (l : list Z) : list Z :=
  match l with
  | [] => []
  | r :: l' => if (r =? 0)%Z then [] else r :: until_zero l'
  end.

(** [getNumImplicitDefs] and [getNumImplicitUses]. *)
Definition implicit_count (regs : option (list Z)) : nat :=
  match regs with
  | None => 0
  | Some l => length (until_zero l)
  end.

Definition getNumImplicitDefs (desc : MCInstrDesc) : nat :=
  implicit_count (getImplicitDefs desc).
Definition getNumImplicitUses (desc : MCInstrDesc) : nat :=
  implicit_count (getImplicitUses desc).

(** [sizeof(rword)] *)
Definition sizeof_rword : Z := 8.

(** [std::bitset<16>] as the integer of its bits. *)
Definition bitset_set (w : Z) (pos : nat) : thrower Z :=
  if pos <? 16 then Returns (Z.setbit w (Z.of_nat pos)) else Throws.

Definition bitset_test (w : Z) (pos : nat) : thrower bool :=
  if pos <? 16 then Returns (Z.testbit w (Z.of_nat pos)) else Throws.

Section OperandAnalysis.
(** The registers of the machine context, [GPR_ID]; [NUM_GPR] is their
    number. *)
Variable GPR_ID : list Z.
Variable MRI : MCRegisterInfo.

(** The loop of [analyseRegister] over the registers of the context from
    index [j] on. *)
Fixpoint gpr_loop (gprs : list Z) (j : nat) (regNo : Z) (opa : OperandAnalysis)
    : OperandAnalysis :=
  match gprs with
  | [] => opa
  | gpr :: gprs' =>
      if isSubRegisterEq MRI gpr regNo then
        let '(size, off) :=
          if negb (gpr =? regNo)%Z then
            let subregidx := getSubRegIndex MRI gpr regNo in
            (wrap8 (getSubRegIdxSize MRI subregidx),
             wrap8 (getSubRegIdxOffset MRI subregidx))
          else (sizeof_rword, regOff opa) in
        mkOperandAnalysis (op_type opa) (op_value opa) size off
                          (wrap8 (Z.of_nat j)) (regName opa) (regAccess opa)
      else gpr_loop gprs' (S j) regNo opa
  end.

Definition analyseRegister (opa : OperandAnalysis) (regNo : Z)
    : OperandAnalysis :=
  gpr_loop GPR_ID 0 regNo
    (mkOperandAnalysis (op_type opa) regNo 0 0 0 (getName MRI regNo)
                       (regAccess opa)).

(** The state of the analysis: the array and the number of operands. *)
Definition analysis_state : Type := list OperandAnalysis * nat.

(** The loop of [tryMergeCurrentRegister], [cnt] turns from [j] on. *)
Fixpoint merge_loop (cnt j : nat) (ops : list OperandAnalysis) (n : nat)
    (opa : OperandAnalysis) : thrower analysis_state :=
  match cnt with
  | O => Returns (ops, n)
  | S cnt' =>
      pop ← element (ops !! j);
      if negb (bool_decide (op_type pop = op_type opa))
      then merge_loop cnt' (S j) ops n opa
      else if (regName pop =? regName opa)%Z && (op_size pop =? op_size opa)%Z
              && (regOff pop =? regOff opa)%Z
      then
        let pop := mkOperandAnalysis (op_type pop) (op_value pop) (op_size pop)
                     (regOff pop) (regCtxIdx pop) (regName pop)
                     (Z.lor (regAccess pop) (regAccess opa)) in
        Returns (<[n - 1 := zero_operand]> (<[j := pop]> ops), n - 1)
      else merge_loop cnt' (S j) ops n opa
  end.

Definition tryMergeCurrentRegister (st : analysis_state)
    : thrower analysis_state :=
  let '(ops, n) := st in
  match n with
  | O => Unbound                      (* [operands[-1]] *)
  | S k => opa ← element (ops !! k); merge_loop k 0 ops n opa
  end.

(** The loop of [analyseImplicitRegisters] over the registers [regs]. The
    local [topa] is not initialised; of it only the fields that
    [analyseRegister] sets are kept. *)
Fixpoint implicit_loop (regs : list Z) (type : Z) (st : analysis_state)
    : thrower analysis_state :=
  match regs with
  | [] => Returns st
  | reg :: regs' =>
      let '(ops, n) := st in
      let topa := analyseRegister zero_operand reg in
      if negb (op_size topa =? 0)%Z then
        slot ← element (ops !! n);
        let opa := mkOperandAnalysis OPERAND_GPR (op_value topa) (op_size topa)
                     (regOff topa) (regCtxIdx topa) (regName topa) type in
        st ← tryMergeCurrentRegister (<[n := opa]> ops, S n);
        implicit_loop regs' type st
      else implicit_loop regs' type st
  end.

Definition analyseImplicitRegisters (implicitRegs : option (list Z)) (type : Z)
    (st : analysis_state) : thrower analysis_state :=
  match implicitRegs with
  | None => Returns st
  | Some l => implicit_loop (until_zero l) type st
  end.

(** The loop that finds the written registers, [cnt] turns from [i] on. *)
Fixpoint writes_loop (inst : list MCOperand) (cnt i : nat) (regWrites : Z)
    : thrower Z :=
  match cnt with
  | O => Returns regWrites
  | S cnt' =>
      op ← element (inst !! i);
      regWrites ← match op with
                  | RegOperand _ => bitset_set regWrites i
                  | _ => Returns regWrites
                  end;
      writes_loop inst cnt' (S i) regWrites
  end.

(** One turn of the loop over the operands of the instruction. The
    description of the operand is read when the operand is a register or an
    immediate. *)
Definition explicit_operand (desc : MCInstrDesc) (regWrites : Z) (i : nat)
    (op : MCOperand) (st : analysis_state) : thrower analysis_state :=
  let '(ops, n) := st in
  match op with
  | InvalidOperand => Returns st
  | RegOperand regNo =>
      opdesc ← element (OpInfo desc !! i);
      if negb (bool_decide (OperandType_ opdesc = OPERAND_REGISTER))
      then Returns st
      else
        slot ← element (ops !! n);
        let opa := analyseRegister slot regNo in
        if (op_size opa =? 0)%Z then Returns (<[n := opa]> ops, n)
        else
          let size :=
            if negb (isLookupPtrRegClass opdesc)
               && (wrap32 (RegClass opdesc) <? getNumRegClasses MRI)%Z
            then wrap8 (getRegClassSize MRI (RegClass opdesc))
            else op_size opa in
          w ← bitset_test regWrites i;
          let opa := mkOperandAnalysis OPERAND_GPR (op_value opa) size
                       (regOff opa) (regCtxIdx opa) (regName opa)
                       (if (w : bool) then REGISTER_WRITE else REGISTER_READ) in
          tryMergeCurrentRegister (<[n := opa]> ops, S n)
  | ImmOperand imm =>
      opdesc ← element (OpInfo desc !! i);
      if negb (bool_decide (OperandType_ opdesc = OPERAND_IMMEDIATE))
      then Returns st
      else
        slot ← element (ops !! n);
        let opa := mkOperandAnalysis
                     (if isPredicate opdesc then OPERAND_PRED else OPERAND_IMM)
                     (wrap64 imm) sizeof_rword (regOff slot) (regCtxIdx slot)
                     (regName slot) (regAccess slot) in
        Returns (<[n := opa]> ops, S n)
  | OtherOperand => Returns st
  end.

Fixpoint explicit_loop (desc : MCInstrDesc) (regWrites : Z) (i : nat)
    (rest : list MCOperand) (st : analysis_state) : thrower analysis_state :=
  match rest with
  | [] => Returns st
  | op :: rest' =>
      st ← explicit_operand desc regWrites i op st;
      explicit_loop desc regWrites (S i) rest' st
  end.

(** [analyseOperands], for the target x86-64 (the test on the kind of an
    immediate operand is compiled in). [None] is a null [instAnalysis]. *)
Definition analyseOperands (instAnalysis : option Operands)
    (inst : list MCOperand) (desc : MCInstrDesc) : thrower (option Operands) :=
  match instAnalysis with
  | None => Returns None
  | Some _ =>
      let numOperands := wrap8 (Z.of_nat (length inst)) in
      let numOperandsMax :=
        wrap8 (numOperands + Z.of_nat (getNumImplicitDefs desc)
               + Z.of_nat (getNumImplicitUses desc)) in
      if (numOperandsMax =? 0)%Z then Returns (Some (mkOperands 0 None))
      else
        let ops := replicate (Z.to_nat numOperandsMax) zero_operand in
        let e := if isVariadic desc then length inst else getNumDefs desc in
        regWrites ← writes_loop inst e 0 0;
        st ← explicit_loop desc regWrites 0 (take (Z.to_nat numOperands) inst)
                           (ops, 0);
        st ← analyseImplicitRegisters (getImplicitDefs desc) REGISTER_WRITE st;
        st ← analyseImplicitRegisters (getImplicitUses desc) REGISTER_READ st;
        Returns (Some (mkOperands st.2 (Some st.1)))
  end.

End OperandAnalysis.

(** ** Decoded instructions *)

(** Modelled from the spec: a decoded instruction (LLVM's [MCInst]), its
    opcode and its operands. *)
Record MCInst : Type := mkMCInst {
  getOpcode : Z;
  getOperands : list MCOperand
}.

(** Modelled from the spec: what the analysis of an instruction takes from
    LLVM and from the target: the registers of the machine context
    [GPR_ID], of which [NUM_GPR] is the number, and the tables that the
    manager is constructed with, [MCII] and [MRI]; [MCII opcode] is
    [MCII.get(opcode)]. *)
Class Target : Type := {
  GPR_ID : list Z;
  MCII : Z -> MCInstrDesc;
  MRI : MCRegisterInfo
}.

(** Modelled from the spec: the facets of an analysis are the bits of
    [AnalysisType] ([InstAnalysis.h] is not part of the sources read
    here). *)
Definition ANALYSIS_INSTRUCTION : Z := 1.
Definition ANALYSIS_DISASSEMBLY : Z := 2.
Definition ANALYSIS_OPERANDS : Z := 4.
Definition ANALYSIS_SYMBOL : Z := 8.

(** An exception of the analysis of operands leaves the operation that
    called it. *)
Definition thrown {A : Type} (x : thrower A) : outcome A :=
  match x with
  | Returns a => Done a
  | Throws => Thrown
  | Unbound => Undefined
  end.

(** ** Patches *)

(** Modelled from the spec: the metadata of a patch, the decoded
    instruction with its address and its size. *)
Record InstMetadata : Type := mkInstMetadata {
  inst : MCInst;
  address : Z;
  instSize : Z
}.

(** The opaque body of a patch plays no role in the manager. *)
Record Patch : Type := mkPatch { metadata : InstMetadata }.

(** ** Executable blocks *)

(** Modelled from the spec: [SeqType] is a bit set over {Entry, Exit}. *)
Definition SeqType : Type := Z.
Definition Entry : SeqType := 1%Z.
Definition Exit : SeqType := 2%Z.

Record SeqWriteResult : Type := mkSeqWriteResult {
  res_seqID : Z;
  patchWritten : Z;
  bytesWritten : Z
}.

(** Modelled from the spec: [ExecBlock] is an external collaborator; the
    manager needs the operations below. A block is a value of type [EB];
    an operation that mutates the block returns its new value.
    [EXEC_BLOCK_FULL] is the sentinel sequence id of a refused write. *)
Class ExecBlockOps (EB : Type) : Type := {
  EXEC_BLOCK_FULL : Z;
  newExecBlock : EB;
  writeSequence : EB -> list Patch -> SeqType -> EB * SeqWriteResult;
  splitSequence : EB -> Z -> EB * Z;
  getSeqID : EB -> Z -> Z;
  getSeqStart : EB -> Z -> Z;
  getSeqEnd : EB -> Z -> Z;
  getInstAddress : EB -> Z -> Z;
  selectSeq : EB -> Z -> EB;
  getEpilogueOffset : EB -> Z
}.

(** ** The data of the manager *)

Record SeqLoc : Type := mkSeqLoc {
  execBlock : option nat;   (* [None] is [nullptr] *)
  seqID : Z;
  bbIdx : Z
}.

Record InstLoc : Type := mkInstLoc { blockIdx : Z; instID : Z }.

Record BBInfo : Type := mkBBInfo { bb_start : Z; bb_end : Z }.

(** Of an analysis the caches look at the facet mask. The operands are the
    fields [numOperands] and [operands], kept together as [analyseOperands]
    takes them; the other facets come from the disassembler and from the
    dynamic loader and are left out. *)
Record InstAnalysis : Type := mkInstAnalysis {
  analysisType : Z;
  operandAnalysis : Operands
}.

Record ExecRegion : Type := mkExecRegion {
  covered : Range;
  translated : Z;
  available : Z;
  blocks : list nat;
  sequenceCache : gmap Z SeqLoc;
  instCache : gmap Z InstLoc;
  analysisCache : gmap Z InstAnalysis;
  bbRegistry : list BBInfo
}.

Record SearchCache : Type := mkSearchCache { sc_address : Z; regionIdx : nat }.

Record Manager (EB : Type) : Type := mkManager {
  total_translated_size : Z;
  total_translation_size : Z;
  regions : list ExecRegion;
  searchCache : SearchCache;
  flushList : list nat;
  globalAnalysisCache : gmap Z InstAnalysis;
  heap : gmap nat EB;
  nextBlock : nat
}.
Arguments mkManager {EB}.
Arguments total_translated_size {EB}.
Arguments total_translation_size {EB}.
Arguments regions {EB}.
Arguments searchCache {EB}.
Arguments flushList {EB}.
Arguments globalAnalysisCache {EB}.
Arguments heap {EB}.
Arguments nextBlock {EB}.

(** ** Field updates *)

Definition set_regions {EB} (m : Manager EB) (rs : list ExecRegion) : Manager EB :=
  mkManager (total_translated_size m) (total_translation_size m) rs
            (searchCache m) (flushList m) (globalAnalysisCache m) (heap m)
            (nextBlock m).

Definition set_searchCache {EB} (m : Manager EB) (c : SearchCache) : Manager EB :=
  mkManager (total_translated_size m) (total_translation_size m) (regions m)
            c (flushList m) (globalAnalysisCache m) (heap m) (nextBlock m).

Definition set_flushList {EB} (m : Manager EB) (l : list nat) : Manager EB :=
  mkManager (total_translated_size m) (total_translation_size m) (regions m)
            (searchCache m) l (globalAnalysisCache m) (heap m) (nextBlock m).

Definition set_globalAnalysisCache {EB} (m : Manager EB)
    (c : gmap Z InstAnalysis) : Manager EB :=
  mkManager (total_translated_size m) (total_translation_size m) (regions m)
            (searchCache m) (flushList m) c (heap m) (nextBlock m).

Definition set_heap {EB} (m : Manager EB) (h : gmap nat EB) : Manager EB :=
  mkManager (total_translated_size m) (total_translation_size m) (regions m)
            (searchCache m) (flushList m) (globalAnalysisCache m) h
            (nextBlock m).

Definition set_totals {EB} (m : Manager EB) (translated' translation' : Z)
    : Manager EB :=
  mkManager translated' translation' (regions m) (searchCache m) (flushList m)
            (globalAnalysisCache m) (heap m) (nextBlock m).

Definition set_covered (reg : ExecRegion) (c : Range) : ExecRegion :=
  mkExecRegion c (translated reg) (available reg) (blocks reg)
               (sequenceCache reg) (instCache reg) (analysisCache reg)
               (bbRegistry reg).

Definition set_stat (reg : ExecRegion) (translated' available' : Z) : ExecRegion :=
  mkExecRegion (covered reg) translated' available' (blocks reg)
               (sequenceCache reg) (instCache reg) (analysisCache reg)
               (bbRegistry reg).

Definition set_blocks (reg : ExecRegion) (bs : list nat) : ExecRegion :=
  mkExecRegion (covered reg) (translated reg) (available reg) bs
               (sequenceCache reg) (instCache reg) (analysisCache reg)
               (bbRegistry reg).

Definition set_sequenceCache (reg : ExecRegion) (c : gmap Z SeqLoc) : ExecRegion :=
  mkExecRegion (covered reg) (translated reg) (available reg) (blocks reg)
               c (instCache reg) (analysisCache reg) (bbRegistry reg).

Definition set_instCache (reg : ExecRegion) (c : gmap Z InstLoc) : ExecRegion :=
  mkExecRegion (covered reg) (translated reg) (available reg) (blocks reg)
               (sequenceCache reg) c (analysisCache reg) (bbRegistry reg).

Definition set_analysisCache (reg : ExecRegion) (c : gmap Z InstAnalysis)
    : ExecRegion :=
  mkExecRegion (covered reg) (translated reg) (available reg) (blocks reg)
               (sequenceCache reg) (instCache reg) c (bbRegistry reg).

Definition set_bbRegistry (reg : ExecRegion) (l : list BBInfo) : ExecRegion :=
  mkExecRegion (covered reg) (translated reg) (available reg) (blocks reg)
               (sequenceCache reg) (instCache reg) (analysisCache reg) l.

(** [regions[r] = reg] for an index known to be in range. *)
Definition put_region {EB} (m : Manager EB) (r : nat) (reg : ExecRegion)
    : Manager EB :=
  set_regions m (<[r := reg]> (regions m)).

(** ** RegionIndex and RegionAllocator *)

(** The loop of [searchRegion]. Each turn halves [high - low], so [fuel]
    set to the number of regions is never used up; [idx] lies strictly
    between [low] and [high] and is in range. *)
Fixpoint search_loop (fuel : nat) (rs : list ExecRegion) (addr : Z)
    (low high : nat) : nat :=
  match fuel with
  | O => low
  | S fuel' =>
      if low + 1 =? high then low
      else
        let idx := (low + high) `div` 2 in
        match rs !! idx with
        | None => low
        | Some reg =>
            if (addr <? start (covered reg))%Z
            then search_loop fuel' rs addr low idx
            else if (end_ (covered reg) <=? addr)%Z
            then search_loop fuel' rs addr idx high
            else idx
        end
  end.

(** The extension cost of a candidate, an [unsigned]. *)
Definition extension_cost (c codeRange : Range) : Z :=
  let cost := 0%Z in
  let cost := if (end_ c <? end_ codeRange)%Z
              then wrap32 (cost + wrap64 (end_ codeRange - end_ c))
              else cost in
  let cost := if (start codeRange <? start c)%Z
              then wrap32 (cost + wrap64 (start c - start codeRange))
              else cost in
  cost.

(** The scan for the insertion point, over the regions from [insert] on. *)
Fixpoint insert_scan (rs : list ExecRegion) (codeRange : Range) (insert : nat)
    : nat :=
  match rs with
  | [] => insert
  | reg :: rs' =>
      if (start codeRange <? start (covered reg))%Z then insert
      else insert_scan rs' codeRange (S insert)
  end.

Definition extend (c codeRange : Range) : Range :=
  let c := if (end_ c <? end_ codeRange)%Z
           then mkRange (start c) (end_ codeRange) else c in
  if (start codeRange <? start c)%Z
  then mkRange (start codeRange) (end_ c) else c.

Definition new_region (codeRange : Range) : ExecRegion :=
  mkExecRegion codeRange 0 0 [] ∅ ∅ ∅ [].

Section Manager.
Context {EB : Type} `{!ExecBlockOps EB} {target : Target}.

(** The constructor. *)
Definition newManager : Manager EB :=
  mkManager 1 1 [] (mkSearchCache 0 0) [] ∅ ∅ 0.

Definition getExpansionRatio (m : Manager EB) : float :=
  fdiv (float_of_Z (total_translation_size m))
       (float_of_Z (total_translated_size m)).

Definition searchRegion (m : Manager EB) (addr : Z) : Manager EB * nat :=
  let low := 0 in
  let high := length (regions m) in
  if length (regions m) =? 0 then (m, 0)
  else if (sc_address (searchCache m) =? addr)%Z
  then (m, regionIdx (searchCache m))
  else
    let r := search_loop (length (regions m)) (regions m) addr low high in
    (set_searchCache m (mkSearchCache addr r), r).

(** The candidate loop of [findRegion]: [inl i] is the early return of a
    region that contains [codeRange], [inr (best_cost, best_region)] the
    state at the end of the loop. [n] counts the remaining candidates. *)
Fixpoint candidate_loop (n : nat) (rs : list ExecRegion) (ratio : float)
    (codeRange : Range) (i : nat) (best_cost : Z) (best_region : nat)
    : nat + Z * nat :=
  match n with
  | O => inr (best_cost, best_region)
  | S n' =>
      match rs !! i with
      | None => inr (best_cost, best_region)
      | Some reg =>
          if contains (covered reg) codeRange then inl i
          else
            let cost := extension_cost (covered reg) codeRange in
            if (unsigned_of_float (fmul (float_of_Z cost) ratio)
                  <? available reg)%Z && (cost <? best_cost)%Z
            then candidate_loop n' rs ratio codeRange (S i) cost i
            else candidate_loop n' rs ratio codeRange (S i) best_cost best_region
      end
  end.

Definition findRegion (m : Manager EB) (codeRange : Range)
    : outcome (Manager EB * nat) :=
  let best_region := length (regions m) in
  let '(m, low) := searchRegion m (start codeRange) in
  let best_cost := 0xFFFFFFFF%Z in
  match candidate_loop 3 (regions m) (getExpansionRatio m) codeRange low
                       best_cost best_region with
  | inl i =>
      Done (set_searchCache m (mkSearchCache (start codeRange) i), i)
  | inr (_, best_region) =>
      if negb (best_region =? length (regions m)) then
        reg ← access (regions m !! best_region);
        let reg := set_covered reg (extend (covered reg) codeRange) in
        let m := put_region m best_region reg in
        Done (set_searchCache m (mkSearchCache (start codeRange) best_region),
              best_region)
      else
        let insert := insert_scan (drop low (regions m)) codeRange low in
        if insert <=? length (regions m) then
          let m := set_regions m (take insert (regions m)
                                  ++ new_region codeRange
                                  :: drop insert (regions m)) in
          Done (set_searchCache m (mkSearchCache (start codeRange) insert),
                insert)
        else Undefined
  end.

Definition updateRegionStat (m : Manager EB) (r : nat) (translated_ : Z)
    : outcome (Manager EB) :=
  reg ← access (regions m !! r);
  let translated' := wrap64 (translated reg + translated_) in
  p ← access (blocks reg !! 0);
  b ← access (heap m !! p);
  let available' := getEpilogueOffset b in
  let reserved :=
    unsigned_of_float
      (fmul (float_of_Z (wrap64 (range_size (covered reg) - translated')))
            (getExpansionRatio m)) in
  let available' := if (available' <? reserved)%Z then 0%Z
                    else (available' - reserved)%Z in
  Done (put_region m r (set_stat reg translated' available')).

(** ** SequenceWriter *)

(** The truncation scan of [writeBasicBlock]: the lowest index whose address
    is a key of [sc], the size of the block when there is none. *)
Fixpoint truncation (sc : gmap Z SeqLoc) (basicBlock : list Patch) : nat :=
  match basicBlock with
  | [] => 0
  | p :: rest =>
      match sc !! address (metadata p) with
      | Some _ => 0
      | None => S (truncation sc rest)
      end
  end.

Definition seq_type (patchIdx patchEnd len : nat) : SeqType :=
  let seqType := 0%Z in
  let seqType := if patchIdx =? 0 then Z.lor seqType Entry else seqType in
  if patchEnd =? len then Z.lor seqType Exit else seqType.

(** The search for a block that accepts the sequence: [bs] are the blocks
    of the region from index [i] on. When they are used up a new block is
    pushed; a new block that refuses the sequence is followed by another
    new block that refuses it, without end. *)
Fixpoint block_loop (m : Manager EB) (r : nat) (bs : list nat) (i : nat)
    (ps : list Patch) (seqType : SeqType)
    : outcome (Manager EB * nat * nat * SeqWriteResult) :=
  match bs with
  | [] =>
      reg ← access (regions m !! r);
      let p := nextBlock m in
      let m := put_region m r (set_blocks reg (blocks reg ++ [p])) in
      let '(b, res) := writeSequence newExecBlock ps seqType in
      let m := mkManager (total_translated_size m) (total_translation_size m)
                 (regions m) (searchCache m) (flushList m)
                 (globalAnalysisCache m) (<[p := b]> (heap m)) (S p) in
      if (res_seqID res =? EXEC_BLOCK_FULL)%Z then Stuck
      else Done (m, i, p, res)
  | p :: bs' =>
      b ← access (heap m !! p);
      let '(b, res) := writeSequence b ps seqType in
      let m := set_heap m (<[p := b]> (heap m)) in
      if (res_seqID res =? EXEC_BLOCK_FULL)%Z
      then block_loop m r bs' (S i) ps seqType
      else Done (m, i, p, res)
  end.

(** The instruction mapping loop, [n] turns from [id] on. *)
Fixpoint inst_loop (n : nat) (basicBlock : list Patch) (ic : gmap Z InstLoc)
    (i patchIdx : nat) (startID id : Z) : outcome (gmap Z InstLoc) :=
  match n with
  | O => Done ic
  | S n' =>
      p ← access (basicBlock !! (patchIdx + Z.to_nat (id - startID)));
      inst_loop n' basicBlock
        (<[address (metadata p) := mkInstLoc (wrap16 (Z.of_nat i)) id]> ic)
        i patchIdx startID (id + 1)
  end.

(** [for(uint16_t id = startID; id <= endID; id++)]. With [endID] at
    0xFFFF the counter wraps to 0 and the test never fails: the loop then
    runs over all of 0..0xFFFF for ever, or leaves the block's bounds. *)
Definition inst_cache_loop (basicBlock : list Patch) (ic : gmap Z InstLoc)
    (i patchIdx : nat) (startID endID : Z) : outcome (gmap Z InstLoc) :=
  ic ← inst_loop (Z.to_nat (endID - startID + 1)) basicBlock ic i patchIdx
                 startID startID;
  if (endID =? 65535)%Z then
    if (startID <=? Z.of_nat patchIdx)%Z
       && (Z.of_nat patchIdx - startID + 65535 <? Z.of_nat (length basicBlock))%Z
    then Stuck else Undefined
  else Done ic.

(** One turn of the write loop: the search for a block, then the body of
    the successful write. *)
Definition write_turn (m : Manager EB) (r : nat) (basicBlock : list Patch)
    (patchEnd patchIdx : nat) (translated_ translation : Z)
    : outcome (Manager EB * nat * Z * Z) :=
  reg ← access (regions m !! r);
  let seqType := seq_type patchIdx patchEnd (length basicBlock) in
  '(m, i, p, res) ← block_loop m r (blocks reg) 0
      (drop patchIdx (take patchEnd basicBlock)) seqType;
  reg ← access (regions m !! r);
  first ← access (basicBlock !! patchIdx);
  let currentSeq :=
    mkSeqLoc (Some p) (res_seqID res)
             (wrap16 (Z.of_nat (length (bbRegistry reg)) - 1)) in
  let reg := set_sequenceCache reg
    (<[address (metadata first) := currentSeq]> (sequenceCache reg)) in
  b ← access (heap m !! p);
  let startID := wrap16 (getSeqStart b (res_seqID res)) in
  let endID := wrap16 (getSeqEnd b (res_seqID res)) in
  ic ← inst_cache_loop basicBlock (instCache reg) i patchIdx startID endID;
  let reg := set_instCache reg ic in
  let m := put_region m r reg in
  let lastIdx := (Z.of_nat patchIdx + patchWritten res - 1)%Z in
  last ← access (if (lastIdx <? 0)%Z then None
                 else basicBlock !! Z.to_nat lastIdx);
  let translated_ :=
    wrap32 (translated_
            + wrap64 (wrap64 (address (metadata last)
                              + instSize (metadata last))
                      - address (metadata first))) in
  let translation := wrap32 (translation + bytesWritten res) in
  let patchIdx := Z.to_nat (wrap64 (Z.of_nat patchIdx + patchWritten res)) in
  Done (m, patchIdx, translated_, translation).

(** The write loop. A turn takes one unit of [fuel]; [Stuck] is also the
    answer when it runs out. *)
Fixpoint write_loop (fuel : nat) (m : Manager EB) (r : nat)
    (basicBlock : list Patch) (patchEnd patchIdx : nat)
    (translated_ translation : Z) : outcome (Manager EB * Z * Z) :=
  if patchEnd <=? patchIdx then Done (m, translated_, translation)
  else
    match fuel with
    | O => Stuck
    | S fuel' =>
        '(m, patchIdx, translated_, translation) ←
          write_turn m r basicBlock patchEnd patchIdx translated_ translation;
        write_loop fuel' m r basicBlock patchEnd patchIdx translated_ translation
    end.

(** The guest range of a block, from its first and last patch. *)
Definition code_range (firstPatch lastPatch : Patch) : Range :=
  mkRange (address (metadata firstPatch))
          (wrap64 (address (metadata lastPatch)
                   + instSize (metadata lastPatch))).

Definition writeBasicBlock (fuel : nat) (m : Manager EB)
    (basicBlock : list Patch) : outcome (Manager EB) :=
  let translated_ := 0%Z in
  let translation := 0%Z in
  let patchIdx := 0 in
  firstPatch ← access (head basicBlock);
  lastPatch ← access (last basicBlock);
  let codeRange := code_range firstPatch lastPatch in
  '(m, r) ← findRegion m codeRange;
  reg ← access (regions m !! r);
  let patchEnd := truncation (sequenceCache reg) basicBlock in
  if patchEnd =? 0 then Done m
  else
    let reg := set_bbRegistry reg
      (bbRegistry reg ++ [mkBBInfo (address (metadata firstPatch))
                                   (wrap64 (address (metadata lastPatch)
                                            + instSize (metadata lastPatch)))]) in
    let m := put_region m r reg in
    '(m, translated_, translation) ←
      write_loop fuel m r basicBlock patchEnd patchIdx translated_ translation;
    let m := set_totals m (wrap64 (total_translated_size m + translated_))
                        (wrap64 (total_translation_size m + translation)) in
    updateRegionStat m r translated_.

(** ** SequenceLookup *)

Definition nil_SeqLoc : SeqLoc := mkSeqLoc None 0 0.

Definition getSeqLoc (m : Manager EB) (addr : Z)
    : outcome (Manager EB * SeqLoc) :=
  let '(m, r) := searchRegion m addr in
  match regions m !! r with
  | None => Done (m, nil_SeqLoc)
  | Some reg =>
      if contains_addr (covered reg) addr then
        match sequenceCache reg !! addr with
        | Some seqLoc => Done (m, seqLoc)
        | None =>
            match instCache reg !! addr with
            | None => Done (m, nil_SeqLoc)
            | Some instLoc =>
                p ← access (blocks reg !! Z.to_nat (blockIdx instLoc));
                block ← access (heap m !! p);
                let existingSeqId := wrap16 (getSeqID block (instID instLoc)) in
                let existingBBAddress :=
                  getInstAddress block (getSeqStart block existingSeqId) in
                (* [operator[]] of the map inserts a default entry *)
                let '(sc, existing) :=
                  match sequenceCache reg !! existingBBAddress with
                  | Some l => (sequenceCache reg, l)
                  | None => (<[existingBBAddress := nil_SeqLoc]>
                               (sequenceCache reg), nil_SeqLoc)
                  end in
                let existingBBIdx := bbIdx existing in
                bb ← access (bbRegistry reg !! Z.to_nat existingBBIdx);
                let registry := bbRegistry reg ++ [mkBBInfo addr (bb_end bb)] in
                let '(block, newSeqID) := splitSequence block (instID instLoc) in
                let newBBIdx := wrap16 (Z.of_nat (length registry) - 1) in
                let seqLoc := mkSeqLoc (Some p) (wrap16 newSeqID) newBBIdx in
                let reg := set_sequenceCache (set_bbRegistry reg registry)
                                             (<[addr := seqLoc]> sc) in
                Done (set_heap (put_region m r reg) (<[p := block]> (heap m)),
                      seqLoc)
            end
        end
      else Done (m, nil_SeqLoc)
  end.

Definition getExecBlock (m : Manager EB) (addr : Z)
    : outcome (Manager EB * option nat) :=
  '(m, seqLoc) ← getSeqLoc m addr;
  match execBlock seqLoc with
  | None => Done (m, None)
  | Some p =>
      b ← access (heap m !! p);
      Done (set_heap m (<[p := selectSeq b (seqID seqLoc)]> (heap m)), Some p)
  end.

Definition getBBInfo (m : Manager EB) (addr : Z)
    : outcome (Manager EB * option BBInfo) :=
  let '(m, r) := searchRegion m addr in
  match regions m !! r with
  | None => Done (m, None)
  | Some reg =>
      if contains_addr (covered reg) addr then
        match sequenceCache reg !! addr with
        | Some seqLoc =>
            bb ← access (bbRegistry reg !! Z.to_nat (bbIdx seqLoc));
            Done (m, Some bb)
        | None => Done (m, None)
        end
      else Done (m, None)
  end.

(** ** InstAnalysisCache *)

(** A request that no cached analysis serves builds an analysis; with the
    facet of the operands this calls [analyseOperands], whose exception
    nothing catches. The analysis that the request replaces is freed
    before, and stays in the cache of its region when the exception leaves
    the manager. The facets of the disassembly, of the instruction and of
    the symbol ask the disassembler and the dynamic loader, write fields
    that are left out, and are taken to return. *)
Definition analyzeInstMetadata (m : Manager EB)
    (instMetadata : option InstMetadata) (type : Z)
    : outcome (Manager EB * option InstAnalysis) :=
  match instMetadata with
  | None => Done (m, None)
  | Some meta =>
      let '(m, r) := searchRegion m (address meta) in
      let inRegion :=
        match regions m !! r with
        | Some reg => if contains_addr (covered reg) (address meta)
                      then Some reg else None
        | None => None
        end in
      let cached :=
        match inRegion with
        | Some reg =>
            match analysisCache reg !! address meta with
            | Some a =>
                if (Z.land (analysisType a) type =? type)%Z then Some a else None
            | None => None
            end
        | None => None
        end in
      match cached with
      | Some a => Done (m, Some a)
      | None =>
          let desc := MCII (getOpcode (inst meta)) in
          let instAnalysis := mkInstAnalysis type (mkOperands 0 None) in
          instAnalysis ←
            (if negb (Z.land type ANALYSIS_OPERANDS =? 0)%Z then
               analysed ← thrown (analyseOperands GPR_ID MRI
                                    (Some (operandAnalysis instAnalysis))
                                    (getOperands (inst meta)) desc);
               Done (mkInstAnalysis type
                       (default (operandAnalysis instAnalysis) analysed))
             else Done instAnalysis);
          match inRegion with
          | Some reg =>
              Done (put_region m r
                      (set_analysisCache reg
                         (<[address meta := instAnalysis]> (analysisCache reg))),
                    Some instAnalysis)
          | None =>
              Done (set_globalAnalysisCache m
                      (<[address meta := instAnalysis]> (globalAnalysisCache m)),
                    Some instAnalysis)
          end
      end
  end.

(** ** Invalidation *)

Definition eraseRegion (m : Manager EB) (r : nat) : outcome (Manager EB) :=
  reg ← access (regions m !! r);
  let h := foldr (fun p h => delete p h) (heap m) (blocks reg) in
  Done (set_heap (set_regions m (delete r (regions m))) h).

(** The indices pushed by [clearCache(range)], from index [i] on. *)
Fixpoint overlapping (rs : list ExecRegion) (range : Range) (i : nat)
    : list nat :=
  match rs with
  | [] => []
  | reg :: rs' =>
      if overlaps (covered reg) range
      then i :: overlapping rs' range (S i)
      else overlapping rs' range (S i)
  end.

Definition clearCache_range (m : Manager EB) (range : Range) : Manager EB :=
  set_flushList m (flushList m ++ overlapping (regions m) range 0).

Definition clearCache_rangeSet (m : Manager EB) (ranges : list Range)
    : Manager EB :=
  let m := foldl clearCache_range m ranges in
  set_totals m 1 1.

(** [std::unique]: drops an element equal to the one before it. *)
Fixpoint unique (l : list nat) : list nat :=
  match l with
  | [] => []
  | x :: l' =>
      match l' with
      | y :: _ => if x =? y then unique l' else x :: unique l'
      | [] => [x]
      end
  end.

(** [std::sort] with [std::greater]. *)
Definition sort_desc (l : list nat) : list nat := merge_sort (flip le) l.

Fixpoint erase_all (m : Manager EB) (l : list nat) : outcome (Manager EB) :=
  match l with
  | [] => Done m
  | r :: l' => m ← eraseRegion m r; erase_all m l'
  end.

Definition flushCommit (m : Manager EB) : outcome (Manager EB) :=
  if 0 <? length (flushList m) then
    let l := unique (sort_desc (flushList m)) in
    m ← erase_all (set_flushList m l) l;
    let m := set_flushList m [] in
    let m := set_globalAnalysisCache m ∅ in
    Done (set_searchCache m (mkSearchCache 0 0))
  else Done m.

(** [clearCache()]: [n] bounds the number of turns by the number of
    regions, each turn erasing one. *)
Fixpoint clear_loop (n : nat) (m : Manager EB) : outcome (Manager EB) :=
  match n with
  | O => Done m
  | S n' =>
      if 0 <? length (regions m) then
        m ← eraseRegion m (length (regions m) - 1);
        clear_loop n' m
      else Done m
  end.

Definition clearCache (m : Manager EB) : outcome (Manager EB) :=
  clear_loop (length (regions m)) m.

End Manager.

(** ** Reachable states *)

(** The public operations, with their arguments. A run ends with the
    operation that throws an exception or whose behaviour is undefined:
    the reachable states are those that operations which return lead to. *)
Inductive operation : Type :=
| WriteBasicBlock (fuel : nat) (basicBlock : list Patch)
| GetSeqLoc (addr : Z)
| GetExecBlock (addr : Z)
| GetBBInfo (addr : Z)
| AnalyzeInstMetadata (instMetadata : option InstMetadata) (type : Z)
| ClearCacheRange (range : Range)
| ClearCacheRangeSet (ranges : list Range)
| ClearCache
| FlushCommit.

Definition run {EB : Type} `{!ExecBlockOps EB} {target : Target}
    (m : Manager EB) (o : operation) : outcome (Manager EB) :=
  match o with
  | WriteBasicBlock fuel basicBlock => writeBasicBlock fuel m basicBlock
  | GetSeqLoc addr => '(m, _) ← getSeqLoc m addr; Done m
  | GetExecBlock addr => '(m, _) ← getExecBlock m addr; Done m
  | GetBBInfo addr => '(m, _) ← getBBInfo m addr; Done m
  | AnalyzeInstMetadata meta type =>
      '(m, _) ← analyzeInstMetadata m meta type; Done m
  | ClearCacheRange range => Done (clearCache_range m range)
  | ClearCacheRangeSet ranges => Done (clearCache_rangeSet m ranges)
  | ClearCache => clearCache m
  | FlushCommit => flushCommit m
  end.

Inductive reachable {EB : Type} `{!ExecBlockOps EB} {target : Target}
    : Manager EB -> Prop :=
| reachable_fresh : reachable newManager
| reachable_run m o m' :
    reachable m -> run m o = Done m' -> reachable m'.

(** The operations run in sequence. *)
Fixpoint run_all {EB : Type} `{!ExecBlockOps EB} {target : Target}
    (m : Manager EB) (os : list operation) : outcome (Manager EB) :=
  match os with
  | [] => Done m
  | o :: os' => m ← run m o; run_all m os'
  end.

(** ** A small register file *)

(** Two registers of 64 bits, 1 and 2, whose low halves are the registers
    11 and 12, and a register 30 outside of the context. The name of a
    register is at the address 1000 plus its number. *)
Definition toy_GPR_ID : list Z := [1; 2]%Z.

Definition toy_MRI : MCRegisterInfo := {|
  getName regNo := (1000 + regNo)%Z;
  isSubRegisterEq a b := (a =? b)%Z || (a + 10 =? b)%Z;
  getSubRegIndex a b := 1%Z;
  getSubRegIdxSize idx := 32%Z;
  getSubRegIdxOffset idx := 0%Z;
  getNumRegClasses := 2%Z;
  getRegClassSize c := if (c =? 0)%Z then 8%Z else 4%Z
|}.

(** An addition of the low half of register 2 to the low half of register
    1, which is written and read; the flags in register 30 are written. *)
Definition toy_add : list MCOperand := [RegOperand 11; RegOperand 11; RegOperand 12].

Definition toy_add_desc : MCInstrDesc := {|
  isVariadic := false;
  getNumDefs := 1;
  getImplicitDefs := Some [30%Z];
  getImplicitUses := None;
  OpInfo := replicate 3 (mkMCOperandInfo 1 OPERAND_REGISTER false false)
|}.

Definition toy_add_inst : MCInst := mkMCInst 1 toy_add.

(** An instruction with a list of 17 registers. *)
Definition toy_list : list MCOperand := replicate 17 (RegOperand 1).

Definition toy_list_desc : MCInstrDesc := {|
  isVariadic := true;
  getNumDefs := 0;
  getImplicitDefs := None;
  getImplicitUses := None;
  OpInfo := []
|}.

Definition toy_list_inst : MCInst := mkMCInst 2 toy_list.

(** An instruction without operands, of opcode 0; the addition has the
    opcode 1 and the list of registers the opcode 2. *)
Definition toy_nop : MCInst := mkMCInst 0 [].

Definition toy_nop_desc : MCInstrDesc := {|
  isVariadic := false;
  getNumDefs := 0;
  getImplicitDefs := None;
  getImplicitUses := None;
  OpInfo := []
|}.

Definition toy_MCII (opcode : Z) : MCInstrDesc :=
  if (opcode =? 1)%Z then toy_add_desc
  else if (opcode =? 2)%Z then toy_list_desc
  else toy_nop_desc.

Definition toy_target : Target := {|
  GPR_ID := toy_GPR_ID;
  MCII := toy_MCII;
  MRI := toy_MRI
|}.

(** ** A small executable block *)

(** Modelled from the spec: an [ExecBlock] of 64 host bytes in which every
    patch takes 16 bytes. [writeSequence] writes as many patches as fit
    (instruction ids are [uint16_t], at most 0xFFFE instructions are kept)
    and answers [EXEC_BLOCK_FULL] when none does; [splitSequence] mints a
    new sequence from an instruction to the end of the sequence it lies in;
    [getEpilogueOffset] is the number of bytes left. *)
Record SimpleBlock : Type := mkSimpleBlock {
  sb_insts : list (Z * Z);      (* address and sequence of each instruction *)
  sb_seqs : list (Z * Z);       (* first and last instruction of each sequence *)
  sb_free : Z;
  sb_selected : Z
}.

Definition simple_write (b : SimpleBlock) (ps : list Patch) (t : SeqType)
    : SimpleBlock * SeqWriteResult :=
  let n := Z.min (Z.min (Z.of_nat (length ps)) (sb_free b / 16))
                 (65534 - Z.of_nat (length (sb_insts b))) in
  if (n <=? 0)%Z then (b, mkSeqWriteResult 0xFFFF 0 0)
  else
    let sid := Z.of_nat (length (sb_seqs b)) in
    let first := Z.of_nat (length (sb_insts b)) in
    (mkSimpleBlock
       (sb_insts b
        ++ map (fun p => (address (metadata p), sid)) (take (Z.to_nat n) ps))
       (sb_seqs b ++ [(first, first + n - 1)%Z])
       (sb_free b - 16 * n) (sb_selected b),
     mkSeqWriteResult sid n (16 * n)).

Definition simple_getSeqID (b : SimpleBlock) (instID : Z) : Z :=
  (nth (Z.to_nat instID) (sb_insts b) (0, 0)%Z).2.

Definition simple_split (b : SimpleBlock) (instID : Z) : SimpleBlock * Z :=
  let last := (nth (Z.to_nat (simple_getSeqID b instID)) (sb_seqs b) (0, 0)%Z).2 in
  (mkSimpleBlock (sb_insts b) (sb_seqs b ++ [(instID, last)])
                 (sb_free b) (sb_selected b),
   Z.of_nat (length (sb_seqs b))).

#[global] Instance simple_ops : ExecBlockOps SimpleBlock := {|
  EXEC_BLOCK_FULL := 0xFFFF;
  newExecBlock := mkSimpleBlock [] [] 64 0;
  writeSequence := simple_write;
  splitSequence := simple_split;
  getSeqID := simple_getSeqID;
  getSeqStart b s := (nth (Z.to_nat s) (sb_seqs b) (0, 0)%Z).1;
  getSeqEnd b s := (nth (Z.to_nat s) (sb_seqs b) (0, 0)%Z).2;
  getInstAddress b i := (nth (Z.to_nat i) (sb_insts b) (0, 0)%Z).1;
  selectSeq b s :=
    mkSimpleBlock (sb_insts b) (sb_seqs b) (sb_free b) s;
  getEpilogueOffset := sb_free
|}.

(** [n] patches of 4 bytes from [addr] on, of instructions without
    operands. *)
Fixpoint block_at (addr : Z) (n : nat) : list Patch :=
  match n with
  | O => []
  | S n' => mkPatch (mkInstMetadata toy_nop addr 4) :: block_at (addr + 4) n'
  end.

(** ** Statements about states *)

Definition regions_sorted (rs : list ExecRegion) : Prop :=
  ∀ i j ri rj, i < j → rs !! i = Some ri → rs !! j = Some rj →
    (start (covered ri) <= start (covered rj))%Z.

Definition regions_disjoint (rs : list ExecRegion) : Prop :=
  ∀ i j ri rj, i < j → rs !! i = Some ri → rs !! j = Some rj →
    (end_ (covered ri) <= start (covered rj))%Z.

(** What [searchRegion] is to return for [addr]: the region that contains
    it; failing that the last region that starts at or below it; failing
    that 0. *)
Definition search_spec (rs : list ExecRegion) (addr : Z) (idx : nat) : Prop :=
  (∃ reg, rs !! idx = Some reg ∧ contains_addr (covered reg) addr = true)
  ∨ ((∀ reg, reg ∈ rs → contains_addr (covered reg) addr = false)
     ∧ ((∃ reg, rs !! idx = Some reg
               ∧ (start (covered reg) <= addr)%Z
               ∧ ∀ j rj, idx < j → rs !! j = Some rj →
                   (addr < start (covered rj))%Z)
        ∨ (idx = 0 ∧ ∀ reg, reg ∈ rs → (addr < start (covered reg))%Z))).

(** The one-slot cache holds an answer that is right for its address. *)
Definition cache_ok {EB} (m : Manager EB) : Prop :=
  regions m = []
  ∨ search_spec (regions m) (sc_address (searchCache m))
                (regionIdx (searchCache m)).

(** The one-slot cache holds an index of the array. *)
Definition cache_in_range {EB} (m : Manager EB) : Prop :=
  regions m = [] ∨ regionIdx (searchCache m) < length (regions m).

(** No region holds a dangling block. *)
Definition blocks_alive {EB} (m : Manager EB) : Prop :=
  ∀ reg p, reg ∈ regions m → p ∈ blocks reg → is_Some (heap m !! p).

(** What the manager requires of [writeSequence]: a write that is not
    refused takes at least one and at most all of the patches handed in,
    and the extent of the new sequence counts them. *)
Definition write_contract (EB : Type) `{!ExecBlockOps EB} : Prop :=
  ∀ (b : EB) ps t, ps ≠ [] →
    let '(b', res) := writeSequence b ps t in
    res_seqID res ≠ EXEC_BLOCK_FULL →
    (1 <= patchWritten res <= Z.of_nat (length ps))%Z
    ∧ (wrap16 (getSeqEnd b' (res_seqID res))
       - wrap16 (getSeqStart b' (res_seqID res)) + 1 = patchWritten res)%Z
    ∧ (wrap16 (getSeqEnd b' (res_seqID res)) < 65535)%Z.

(** A new block takes a non-empty sequence: the capacity of a block exceeds
    the largest single patch. *)
Definition fresh_block_accepts (EB : Type) `{!ExecBlockOps EB} : Prop :=
  ∀ ps t, ps ≠ [] →
    res_seqID (writeSequence (newExecBlock : EB) ps t).2 ≠ EXEC_BLOCK_FULL.

(** [updateRegionStat] as the specification words it, on exact numbers:
    the reservation is [(covered.size() − translated) × E], with [E] the
    ratio of the bytes written to the bytes translated, here the fraction
    [num / den]; the budget is 0 when the reservation reaches the free
    bytes of the first block, else the free bytes less the whole bytes of
    the reservation. *)
Definition updateRegionStat_spec {EB} `{!ExecBlockOps EB} (m : Manager EB)
    (r : nat) (t : Z) : outcome (Manager EB) :=
  reg ← access (regions m !! r);
  let translated' := (translated reg + t)%Z in
  p ← access (blocks reg !! 0);
  b ← access (heap m !! p);
  let available' := getEpilogueOffset b in
  let size := (end_ (covered reg) - start (covered reg))%Z in
  let num := ((size - translated') * total_translation_size m)%Z in
  let den := total_translated_size m in
  let available' :=
    if (available' * den <=? num)%Z then 0%Z
    else (available' - num / den)%Z in
  Done (put_region m r (set_stat reg translated' available')).

(** The array without the elements whose position is in [l], positions
    counted from [i]. *)
Fixpoint remove_positions (rs : list ExecRegion) (l : list nat) (i : nat)
    : list ExecRegion :=
  match rs with
  | [] => []
  | reg :: rs' =>
      if decide (i ∈ l) then remove_positions rs' l (S i)
      else reg :: remove_positions rs' l (S i)
  end.

(** What a write into region [r] keeps: the slot, the pending list and the
    number of regions; of region [r] the covered range and the registry;
    the blocks, the keys of both caches and the live blocks only grow. *)
Definition grows {EB} (r : nat) (m m' : Manager EB) : Prop :=
  searchCache m' = searchCache m
  ∧ flushList m' = flushList m
  ∧ length (regions m') = length (regions m)
  ∧ (∀ p, is_Some (heap m !! p) → is_Some (heap m' !! p))
  ∧ ∃ reg reg', regions m !! r = Some reg ∧ regions m' !! r = Some reg'
      ∧ covered reg' = covered reg
      ∧ bbRegistry reg' = bbRegistry reg
      ∧ (∀ p, p ∈ blocks reg → p ∈ blocks reg')
      ∧ (∀ k, is_Some (sequenceCache reg !! k) →
              is_Some (sequenceCache reg' !! k))
      ∧ (∀ k, is_Some (instCache reg !! k) → is_Some (instCache reg' !! k)).

(** Region [r] exists and its blocks are live. *)
Definition alive {EB} (r : nat) (m : Manager EB) : Prop :=
  ∃ reg, regions m !! r = Some reg
         ∧ ∀ p, p ∈ blocks reg → is_Some (heap m !! p).

(** Every covered range holds an address. *)
Definition ranges_nonempty (rs : list ExecRegion) : Prop :=
  ∀ reg, reg ∈ rs → (start (covered reg) < end_ (covered reg))%Z.

(** The two orders on regions, as relations. *)
Definition starts_le (a b : ExecRegion) : Prop :=
  (start (covered a) <= start (covered b))%Z.
Definition ends_le_start (a b : ExecRegion) : Prop :=
  (end_ (covered a) <= start (covered b))%Z.

#[global] Instance starts_le_dec : RelDecision starts_le :=
  fun a b => decide (start (covered a) <= start (covered b))%Z.
#[global] Instance ends_le_start_dec : RelDecision ends_le_start :=
  fun a b => decide (end_ (covered a) <= start (covered b))%Z.

(** ** Sample runs *)

(** The samples run over the small block and the small register file. *)
Section SampleRuns.
#[local] Existing Instance toy_target.

(** The state after a run of operations on a new manager over the small
    block; the new manager when the run fails. *)
Definition state_after (os : list operation) : Manager SimpleBlock :=
  match run_all newManager os with
  | Done m => m
  | _ => newManager
  end.

(** One block of three instructions at 0x1000. *)
Definition cold : Manager SimpleBlock :=
  state_after [WriteBasicBlock 3 (block_at 0x1000 3)].

Definition cold_region : ExecRegion :=
  default (new_region (mkRange 0 0)) (regions cold !! 0).

Definition cold_block : SimpleBlock :=
  default newExecBlock (heap cold !! 0).

(** A block of four instructions at 0x1000, which fills its buffer. *)
Definition filled : Manager SimpleBlock :=
  state_after [WriteBasicBlock 4 (block_at 0x1000 4)].

(** Then a block that starts one instruction earlier and runs into it. *)
Definition shadowed : Manager SimpleBlock :=
  state_after [WriteBasicBlock 4 (block_at 0x1000 4);
               WriteBasicBlock 2 (block_at 0xFFC 2)].

(** Or a block in a range of its own. *)
Definition apart : Manager SimpleBlock :=
  state_after [WriteBasicBlock 4 (block_at 0x1000 4);
               WriteBasicBlock 4 (block_at 0x9000 4)].

(** One instruction at 0x400000, then one instruction 4 GiB above it. *)
Definition warm : Manager SimpleBlock :=
  state_after [WriteBasicBlock 1 (block_at 0x400000 1)].

Definition far : Manager SimpleBlock :=
  state_after [WriteBasicBlock 1 (block_at 0x400000 1);
               WriteBasicBlock 1 (block_at 0x100400000 1)].

(** Or one instruction 12 GiB above it. *)
Definition wide : Manager SimpleBlock :=
  state_after [WriteBasicBlock 1 (block_at 0x400000 1);
               WriteBasicBlock 1 (block_at 0x300400000 1)].

(** Two instructions at 0x1000, then the second one again as a block of
    its own. *)
Definition overrun : Manager SimpleBlock :=
  state_after [WriteBasicBlock 2 (block_at 0x1000 2);
               WriteBasicBlock 1 (block_at 0x1004 1)].

(** Two regions, the first one marked for erasure, once and twice. *)
Definition marked : Manager SimpleBlock :=
  state_after [WriteBasicBlock 4 (block_at 0x1000 4);
               WriteBasicBlock 4 (block_at 0x9000 4);
               ClearCacheRange (mkRange 0x1000 0x1004)].

Definition marked_twice : Manager SimpleBlock :=
  state_after [WriteBasicBlock 4 (block_at 0x1000 4);
               WriteBasicBlock 4 (block_at 0x9000 4);
               ClearCacheRange (mkRange 0x1000 0x1004);
               ClearCacheRange (mkRange 0x100C 0x1010)].

End SampleRuns.

(** The policy of [findRegion] as the specification words it: among the
    candidates [low], [low + 1], [low + 2], the first one that contains the
    code range; failing that, the cheapest one that passes the gate, to be
    extended; failing that, a new region. *)
Inductive decision : Type :=
| Use (i : nat)
| Extend (i : nat)
| Create.

(** The cheapest of the candidates that pass the gate, the first one among
    equals. *)
Fixpoint cheapest (gate : Z -> ExecRegion -> bool) (cost : Range -> Range -> Z)
    (rs : list ExecRegion) (codeRange : Range) (cands : list nat)
    : option (nat * Z) :=
  match cands with
  | [] => None
  | i :: cands' =>
      let rest := cheapest gate cost rs codeRange cands' in
      match rs !! i with
      | None => rest
      | Some reg =>
          let c := cost (covered reg) codeRange in
          if gate c reg then
            match rest with
            | Some (j, c') => if (c' <? c)%Z then rest else Some (i, c)
            | None => Some (i, c)
            end
          else rest
      end
  end.

Definition containing (rs : list ExecRegion) (codeRange : Range) (i : nat)
    : bool :=
  match rs !! i with
  | Some reg => contains (covered reg) codeRange
  | None => false
  end.

Definition policy (gate : Z -> ExecRegion -> bool) (cost : Range -> Range -> Z)
    (rs : list ExecRegion) (low : nat) (codeRange : Range) : decision :=
  let candidates := seq low 3 in
  match List.find (containing rs codeRange) candidates with
  | Some i => Use i
  | None =>
      match cheapest gate cost rs codeRange candidates with
      | Some (i, _) => Extend i
      | None => Create
      end
  end.

(** The cost as a mathematical integer, and the gate [cost × E < available]
    on the exact ratio of the two counters. *)
Definition spec_cost (c codeRange : Range) : Z :=
  (Z.max 0 (end_ codeRange - end_ c) + Z.max 0 (start c - start codeRange))%Z.

Definition spec_gate {EB} (m : Manager EB) (cost : Z) (reg : ExecRegion) : bool :=
  (cost * total_translation_size m <? available reg * total_translated_size m)%Z.

Definition findRegion_policy {EB} (m : Manager EB) (codeRange : Range)
    : decision :=
  policy (spec_gate m) spec_cost (regions m)
         (searchRegion m (start codeRange)).2 codeRange.

(** The gate as the code computes it, in single precision. *)
Definition code_gate {EB} (m : Manager EB) (cost : Z) (reg : ExecRegion) : bool :=
  (unsigned_of_float (fmul (float_of_Z cost) (getExpansionRatio m))
     <? available reg)%Z.

(** The decision that [findRegion] takes, read off its candidate loop. *)
Definition findRegion_decision {EB} (m : Manager EB) (codeRange : Range)
    : decision :=
  match candidate_loop 3 (regions m) (getExpansionRatio m) codeRange
                       (searchRegion m (start codeRange)).2
                       0xFFFFFFFF (length (regions m)) with
  | inl i => Use i
  | inr (_, best_region) =>
      if best_region =? length (regions m) then Create else Extend best_region
  end.

(** The invariant of the binary search: the regions from [high] on start
    above [addr]; the region at [low], unless it is the first one, starts
    and ends at or below [addr]. *)
Definition starts_above (rs : list ExecRegion) (addr : Z) (high : nat) : Prop :=
  ∀ j rj, high ≤ j → rs !! j = Some rj → (addr < start (covered rj))%Z.

Definition ends_below (rs : list ExecRegion) (addr : Z) (low : nat) : Prop :=
  low = 0 ∨ ∃ reg, rs !! low = Some reg
                   ∧ (start (covered reg) <= addr)%Z
                   ∧ (end_ (covered reg) <= addr)%Z.

(** Ownership of the blocks: [bl] lists the blocks of each region, [h] is
    the heap and [n] the next block to allocate. Every block of a region
    has been allocated, is live, and belongs to no other region. *)
Definition owned_blocks {EB} (bl : list (list nat)) (h : gmap nat EB)
    (n : nat) : Prop :=
  ∀ i bs p, bl !! i = Some bs → p ∈ bs →
    p < n ∧ is_Some (h !! p)
    ∧ ∀ j bs', bl !! j = Some bs' → p ∈ bs' → i = j.

Definition owned {EB} (m : Manager EB) : Prop :=
  owned_blocks (blocks <$> regions m) (heap m) (nextBlock m).

(** ** More statements about states *)

(** Every live block belongs to a region: [bl] lists the blocks of each
    region, [h] is the heap. *)
Definition no_stray_blocks {EB} (bl : list (list nat)) (h : gmap nat EB) : Prop :=
  ∀ p, is_Some (h !! p) → ∃ bs, bs ∈ bl ∧ p ∈ bs.

Definition no_leak {EB} (m : Manager EB) : Prop :=
  no_stray_blocks (blocks <$> regions m) (heap m).

(** The entries of the caches of a region point into its own vectors: a
    sequence into the registry and into a block of the region, an
    instruction into the blocks; and a region that holds an instruction has
    a registered basic block. *)
Definition region_in_bounds (reg : ExecRegion) : Prop :=
  (∀ k loc, sequenceCache reg !! k = Some loc →
     Z.to_nat (bbIdx loc) < length (bbRegistry reg)
     ∧ ∀ p, execBlock loc = Some p → p ∈ blocks reg)
  ∧ (∀ k il, instCache reg !! k = Some il →
       Z.to_nat (blockIdx il) < length (blocks reg) ∧ bbRegistry reg ≠ []).

Definition caches_in_bounds {EB} (m : Manager EB) : Prop :=
  Forall region_in_bounds (regions m).

(** The call of [analyseOperands] that [analyzeInstMetadata] makes for an
    instruction when the facet of the operands is asked for. *)
Definition operand_analysis {target : Target} (meta : InstMetadata)
    : thrower (option Operands) :=
  analyseOperands GPR_ID MRI (Some (mkOperands 0 None))
    (getOperands (inst meta)) (MCII (getOpcode (inst meta))).

(** A request that does not return has failed in the analysis of the
    operands: by an exception, or by leaving the bounds of an array. *)
Definition failed_in_operands {target : Target} {A : Type}
    (meta : InstMetadata) (type : Z) (x : outcome A) : Prop :=
  match x with
  | Done _ => True
  | Thrown =>
      Z.land type ANALYSIS_OPERANDS ≠ 0%Z ∧ operand_analysis meta = Throws
  | Undefined =>
      Z.land type ANALYSIS_OPERANDS ≠ 0%Z ∧ operand_analysis meta = Unbound
  | Stuck => False
  end.

(** The pending indices are indices of the array. *)
Definition pending_in_range {EB} (m : Manager EB) : Prop :=
  Forall (λ r, r < length (regions m)) (flushList m).

(** What is left of a region after an operation that does not invalidate:
    the covered range and the vectors only grow, no sequence is replaced,
    no key of the instruction and analysis caches is dropped. *)
Definition region_persists (reg reg' : ExecRegion) : Prop :=
  contains (covered reg') (covered reg) = true
  ∧ blocks reg `prefix_of` blocks reg'
  ∧ bbRegistry reg `prefix_of` bbRegistry reg'
  ∧ sequenceCache reg ⊆ sequenceCache reg'
  ∧ (∀ k, is_Some (instCache reg !! k) → is_Some (instCache reg' !! k))
  ∧ (∀ k, is_Some (analysisCache reg !! k) → is_Some (analysisCache reg' !! k)).

Definition persists {EB} (m m' : Manager EB) : Prop :=
  ∀ i reg, regions m !! i = Some reg →
    ∃ i' reg', regions m' !! i' = Some reg' ∧ region_persists reg reg'.

(** The operations that drop regions. *)
Definition invalidates (o : operation) : bool :=
  match o with
  | ClearCache | FlushCommit => true
  | _ => false
  end.

(** A sequence location as a turn of the write loop makes it: it names the
    last basic block of the registry and a block of the region. *)
Definition fresh_loc (reg : ExecRegion) (loc : SeqLoc) : Prop :=
  bbIdx loc = wrap16 (Z.of_nat (length (bbRegistry reg)) - 1)
  ∧ ∃ p, execBlock loc = Some p ∧ p ∈ blocks reg.

(** What the write loop does to the manager when it writes into region [r]
    sequences that start at the addresses [K]: only region [r] changes; its
    blocks grow, by blocks that are new; the sequence cache changes at the
    addresses [K] only, where it takes new locations; the instruction cache
    keeps its keys and its new entries point into the blocks. *)
Definition written {EB} (K : Z → Prop) (r : nat) (m m' : Manager EB) : Prop :=
  ∃ reg reg',
    regions m !! r = Some reg ∧ regions m' = <[r := reg']> (regions m)
    ∧ searchCache m' = searchCache m ∧ flushList m' = flushList m
    ∧ globalAnalysisCache m' = globalAnalysisCache m
    ∧ total_translated_size m' = total_translated_size m
    ∧ total_translation_size m' = total_translation_size m
    ∧ covered reg' = covered reg ∧ translated reg' = translated reg
    ∧ available reg' = available reg ∧ bbRegistry reg' = bbRegistry reg
    ∧ analysisCache reg' = analysisCache reg
    ∧ blocks reg `prefix_of` blocks reg'
    ∧ (∀ q, is_Some (heap m' !! q) → is_Some (heap m !! q) ∨ q ∈ blocks reg')
    ∧ (∀ k, is_Some (sequenceCache reg !! k) → is_Some (sequenceCache reg' !! k))
    ∧ (∀ k, ¬ K k → sequenceCache reg' !! k = sequenceCache reg !! k)
    ∧ (∀ k loc, sequenceCache reg' !! k = Some loc →
         sequenceCache reg !! k = Some loc ∨ fresh_loc reg' loc)
    ∧ (∀ k, is_Some (instCache reg !! k) → is_Some (instCache reg' !! k))
    ∧ (∀ k il, instCache reg' !! k = Some il →
         instCache reg !! k = Some il
         ∨ Z.to_nat (blockIdx il) < length (blocks reg')).

(** The addresses of the patches of a block below index [n]. *)
Definition starts_below (basicBlock : list Patch) (n : nat) (k : Z) : Prop :=
  ∃ j p, j < n ∧ basicBlock !! j = Some p ∧ k = address (metadata p).

(** The regions persist, none is dropped, and the pending list is kept. *)
Definition kept {EB} (m m' : Manager EB) : Prop :=
  persists m m' ∧ length (regions m) ≤ length (regions m')
  ∧ flushList m' = flushList m.


(** ** Statements about analysed operands *)

(** Two operands name the same part of the same register, as
    [tryMergeCurrentRegister] compares them. *)
Definition same_register (a b : OperandAnalysis) : Prop :=
  regName a = regName b ∧ op_size a = op_size b ∧ regOff a = regOff b.

(** The operand [pop] after a merge of [opa] into it. *)
Definition merged (pop opa : OperandAnalysis) : OperandAnalysis :=
  mkOperandAnalysis (op_type pop) (op_value pop) (op_size pop) (regOff pop)
    (regCtxIdx pop) (regName pop) (Z.lor (regAccess pop) (regAccess opa)).

(** No two register operands among the first [n] name the same part of
    the same register. *)
Definition distinct_registers (ops : list OperandAnalysis) (n : nat) : Prop :=
  ∀ i j a b, i < j → j < n → ops !! i = Some a → ops !! j = Some b →
    op_type a = OPERAND_GPR → op_type b = OPERAND_GPR → ¬ same_register a b.

(** A register operand names its register, is read, written or both, and
    its context index is that of the first register of the context that
    holds it. *)
Definition register_operand (GPR_ID : list Z) (MRI : MCRegisterInfo)
    (a : OperandAnalysis) : Prop :=
  regName a = getName MRI (op_value a)
  ∧ (regAccess a = REGISTER_READ ∨ regAccess a = REGISTER_WRITE
     ∨ regAccess a = REGISTER_READ_WRITE)
  ∧ ∃ j gpr, GPR_ID !! j = Some gpr
      ∧ regCtxIdx a = wrap8 (Z.of_nat j)
      ∧ isSubRegisterEq MRI gpr (op_value a) = true
      ∧ ∀ j' gpr', j' < j → GPR_ID !! j' = Some gpr' →
          isSubRegisterEq MRI gpr' (op_value a) = false.

(** An immediate operand has the size of a word and no access. *)
Definition immediate_operand (a : OperandAnalysis) : Prop :=
  op_size a = sizeof_rword ∧ regAccess a = REGISTER_UNUSED.

(** What holds of the array and of the count at every point of the
    analysis: the count is within the array; the operands below the count
    are registers or immediates of the right form and the registers are
    distinct; the elements from the count on have no type and no access. *)
Definition analysed (GPR_ID : list Z) (MRI : MCRegisterInfo) (size : nat)
    (st : analysis_state) : Prop :=
  length st.1 = size ∧ st.2 ≤ size
  ∧ distinct_registers st.1 st.2
  ∧ (∀ k a, k < st.2 → st.1 !! k = Some a →
       match op_type a with
       | OPERAND_GPR => register_operand GPR_ID MRI a
       | OPERAND_IMM | OPERAND_PRED => immediate_operand a
       | OPERAND_INVALID => False
       end)
  ∧ (∀ k a, st.2 ≤ k → st.1 !! k = Some a →
       op_type a = OPERAND_INVALID ∧ regAccess a = REGISTER_UNUSED).


(** ** Statistics *)

Definition fadd : float -> float -> float := SFadd 24 128.

(** [0.0] *)
Definition float_zero : float := S754_zero false.

(** A line of the report on a region: its covered range, the number of its
    blocks and their mean occupation. *)
Record RegionLine : Type := mkRegionLine {
  line_covered : Range;
  line_blocks : nat;
  line_occupation : float
}.

(** What [printCacheStatistics] prints. *)
Record CacheStatistics : Type := mkCacheStatistics {
  stat_regions : nat;
  stat_lines : list RegionLine;
  mean_occupation : float;
  region_overflow : nat
}.

Section Statistics.
Context {EB : Type}.
(** Modelled from the spec: [occupationRatio()] of a block is its used
    bytes over its capacity. *)
Variable occupationRatio : EB -> float.

(** The sum of the occupation ratios of the blocks of a region. *)
Fixpoint occupation_loop (h : gmap nat EB) (bs : list nat) (occupation : float)
    : outcome float :=
  match bs with
  | [] => Done occupation
  | p :: bs' =>
      b ← access (h !! p);
      occupation_loop h bs' (fadd occupation (occupationRatio b))
  end.

(** The loop over the regions. The counts are [size_t]; they count
    elements of the array and stay below its size. *)
Fixpoint region_loop (h : gmap nat EB) (rs : list ExecRegion)
    (mean_occupation : float) (region_overflow : nat) (lines : list RegionLine)
    : outcome (float * nat * list RegionLine) :=
  match rs with
  | [] => Done (mean_occupation, region_overflow, lines)
  | reg :: rs' =>
      occupation ← occupation_loop h (blocks reg) float_zero;
      let region_overflow :=
        if 1 <? length (blocks reg) then region_overflow + 1
        else region_overflow in
      let occupation :=
        if 0 <? length (blocks reg)
        then fdiv occupation (float_of_Z (Z.of_nat (length (blocks reg))))
        else occupation in
      let mean_occupation := fadd mean_occupation occupation in
      region_loop h rs' mean_occupation region_overflow
        (lines ++ [mkRegionLine (covered reg) (length (blocks reg)) occupation])
  end.

Definition printCacheStatistics (m : Manager EB) : outcome CacheStatistics :=
  '(mean_occupation, region_overflow, lines) ←
    region_loop (heap m) (regions m) float_zero 0 [];
  let mean_occupation :=
    if 0 <? length (regions m)
    then fdiv mean_occupation (float_of_Z (Z.of_nat (length (regions m))))
    else mean_occupation in
  Done (mkCacheStatistics (length (regions m)) lines mean_occupation
                          region_overflow).

End Statistics.

(** The destructor: the statistics are printed when the debug log is on
    ([logged]), then everything is erased. *)
Definition destructor {EB} `{!ExecBlockOps EB} (occupationRatio : EB -> float)
    (logged : bool) (m : Manager EB) : outcome (Manager EB) :=
  if logged then
    statistics ← printCacheStatistics occupationRatio m;
    clearCache m
  else clearCache m.

(** The number of regions with more than one block. *)
Definition overflowing (rs : list ExecRegion) : nat :=
  length (filter (λ reg, 1 < length (blocks reg)) rs).

(** * Properties *)

(** ** Capacity budgeting *)

(** [updateRegionStat] adds [t] to the translated count of the region and
    sets its budget to the free bytes of the first block minus the
    reservation that it computes, cleared to 0 when the reservation
    reaches it: the strict test of the code and a non-strict one give the
    same budget. *)
Lemma updateRegionStat_available {EB} `{!ExecBlockOps EB}
    (m : Manager EB) (r : nat) (t : Z) reg p b :
  regions m !! r = Some reg → blocks reg !! 0 = Some p →
  heap m !! p = Some b →
  let translated' := wrap64 (translated reg + t) in
  let reserved :=
    unsigned_of_float
      (fmul (float_of_Z (wrap64 (range_size (covered reg) - translated')))
            (getExpansionRatio m)) in
  updateRegionStat m r t
  = Done (put_region m r
            (set_stat reg translated'
                      (Z.max 0 (getEpilogueOffset b - reserved)))).
Proof.
  intros Hreg Hp Hb translated' reserved.
  unfold updateRegionStat. rewrite Hreg. simpl. rewrite Hp. simpl.
  rewrite Hb. simpl. fold translated'. fold reserved.
  do 3 f_equal.
  destruct (Z.ltb_spec (getEpilogueOffset b) reserved); lia.
Qed.

(** ** RegionIndex *)

Lemma contains_addr_true r t :
  contains_addr r t = true ↔ (start r <= t < end_ r)%Z.
Proof. unfold contains_addr. rewrite andb_true_iff, Z.leb_le, Z.ltb_lt. tauto. Qed.

Lemma contains_addr_false r t :
  contains_addr r t = false ↔ (t < start r ∨ end_ r <= t)%Z.
Proof.
  unfold contains_addr. rewrite andb_false_iff, Z.leb_gt, Z.ltb_ge. tauto.
Qed.

Section SearchLoop.
Variable rs : list ExecRegion.
Variable addr : Z.
Hypothesis Hsorted : regions_sorted rs.
Hypothesis Hdisjoint : regions_disjoint rs.

Lemma search_exit low :
  low < length rs → ends_below rs addr low → starts_above rs addr (S low) →
  search_spec rs addr low.
Proof.
  intros Hlen Hlow Hhigh.
  destruct (lookup_lt_is_Some_2 rs low Hlen) as [reg Hreg].
  destruct (contains_addr (covered reg) addr) eqn:Hc.
  { left. eauto. }
  right.
  assert (Hothers : ∀ j rj, j ≠ low → rs !! j = Some rj →
            contains_addr (covered rj) addr = false).
  { intros j rj Hne Hj. apply contains_addr_false.
    destruct (decide (j < low)) as [Hjl|Hjl].
    - right. destruct Hlow as [->|(reg' & Hreg' & Hstart & Hend)]; [lia|].
      assert (reg' = reg) as -> by congruence.
      pose proof (Hdisjoint j low rj reg Hjl Hj Hreg). lia.
    - left. apply (Hhigh j); [lia|done]. }
  split.
  { intros reg' [j Hj]%list_elem_of_lookup.
    destruct (decide (j = low)) as [->|Hne]; [congruence|eauto]. }
  apply contains_addr_false in Hc.
  destruct (decide (start (covered reg) <= addr)%Z) as [Hle|Hgt].
  - left. exists reg. split_and!; [done..|].
    intros j rj Hj. apply Hhigh. lia.
  - destruct Hlow as [->|(reg' & Hreg' & Hstart & Hend)].
    + right. split; [done|].
      intros reg' [j Hj]%list_elem_of_lookup.
      destruct (decide (j = 0)) as [->|Hne].
      * assert (reg' = reg) as -> by congruence. lia.
      * apply (Hhigh j); [lia|done].
    + assert (reg' = reg) as -> by congruence. lia.
Qed.

Lemma search_loop_spec fuel low high :
  low < high → high ≤ length rs → high - low ≤ fuel →
  ends_below rs addr low → starts_above rs addr high →
  search_spec rs addr (search_loop fuel rs addr low high).
Proof.
  revert low high. induction fuel as [|fuel IH]; intros low high Hlt Hlen Hfuel Hlow Hhigh.
  { lia. }
  cbn [search_loop]. destruct (Nat.eqb_spec (low + 1) high) as [Heq|Hne].
  { apply search_exit; [lia|done|]. replace (S low) with high by lia. done. }
  assert (Hmid : low < (low + high) `div` 2 < high).
  { pose proof (Nat.div_mod_eq (low + high) 2).
    pose proof (Nat.mod_upper_bound (low + high) 2). lia. }
  set (idx := (low + high) `div` 2) in *.
  destruct (lookup_lt_is_Some_2 rs idx ltac:(lia)) as [reg Hreg].
  rewrite Hreg.
  destruct (Z.ltb_spec addr (start (covered reg))) as [Hbelow|Hnot].
  { apply IH; [lia..|done|].
    intros j rj Hj Hrj.
    destruct (decide (j = idx)) as [->|Hji].
    - assert (rj = reg) as -> by congruence. done.
    - pose proof (Hsorted idx j reg rj ltac:(lia) Hreg Hrj). lia. }
  destruct (Z.leb_spec (end_ (covered reg)) addr) as [Hend|Hin].
  { apply IH; [lia..| |done]. right. eauto. }
  left. exists reg. split; [done|]. apply contains_addr_true. lia.
Qed.

End SearchLoop.

Lemma searchRegion_correct {EB} (m : Manager EB) (addr : Z) :
  regions_sorted (regions m) →
  regions_disjoint (regions m) → cache_ok m →
  search_spec (regions m) addr (searchRegion m addr).2
  ∧ ((searchRegion m addr).2 < length (regions m) ∨ regions m = [])
  ∧ regions (searchRegion m addr).1 = regions m
  ∧ cache_ok (searchRegion m addr).1.
Proof.
  intros Hsorted Hdisjoint Hcache.
  unfold searchRegion.
  destruct (Nat.eqb_spec (length (regions m)) 0) as [Hempty|Hne].
  { apply length_zero_iff_nil in Hempty. simpl. rewrite Hempty.
    split_and!; [|by right|done|by left; rewrite Hempty].
    right. split; [by intros reg ?%elem_of_nil|].
    right. split; [done|]. by intros reg ?%elem_of_nil. }
  assert (Hnil : regions m ≠ []) by (intros Heq; by rewrite Heq in Hne).
  destruct (Z.eqb_spec (sc_address (searchCache m)) addr) as [<-|Hmiss].
  { simpl. destruct Hcache as [?|Hc]; [done|].
    split_and!; [done| |done|by right].
    left. destruct Hc as [(reg & Hreg & _)|[_ [(reg & Hreg & _)|[-> _]]]];
      eauto using lookup_lt_Some with lia. }
  simpl.
  assert (Hspec : search_spec (regions m) addr
            (search_loop (length (regions m)) (regions m) addr 0
                         (length (regions m)))).
  { apply search_loop_spec; [done|done|lia|lia|lia|by left|].
    intros j rj Hj Hrj. apply lookup_lt_Some in Hrj. lia. }
  split_and!; [done| |done|by right].
  left. destruct Hspec as [(reg & Hreg & _)|[_ [(reg & Hreg & _)|[-> _]]]];
    eauto using lookup_lt_Some with lia.
Qed.

(** C6: on a sorted array of disjoint ranges, [searchRegion] returns the
    index of the region that contains the address; failing that, of the
    last region that starts at or below it; failing that, 0. The index is
    in range unless the array is empty. The regions are left as they are
    and the one-slot cache is again right for the address it holds. *)
Theorem searchRegion_spec {EB} (m : Manager EB) (addr : Z) :
  regions_sorted (regions m) →
  regions_disjoint (regions m) → cache_ok m →
  search_spec (regions m) addr (searchRegion m addr).2
  ∧ ((searchRegion m addr).2 < length (regions m) ∨ regions m = [])
  ∧ regions (searchRegion m addr).1 = regions m
  ∧ cache_ok (searchRegion m addr).1.
Proof. apply searchRegion_correct. Qed.

(** ** Invalidation *)

Lemma unique_head x l : ∃ t, unique (x :: l) = x :: t.
Proof.
  revert x. induction l as [|y l IH]; intros x; [by eexists|].
  cbn [unique]. destruct (Nat.eqb_spec x y) as [->|Hne]; [apply IH|by eexists].
Qed.

Lemma elem_of_unique x l : x ∈ unique l ↔ x ∈ l.
Proof.
  induction l as [|y l IH]; [done|]. destruct l as [|z l]; [done|].
  change (unique (y :: z :: l))
    with (if y =? z then unique (z :: l) else y :: unique (z :: l)).
  destruct (Nat.eqb_spec y z) as [->|Hne].
  - rewrite IH, !elem_of_cons. tauto.
  - rewrite elem_of_cons, IH. rewrite !elem_of_cons. tauto.
Qed.

Lemma unique_strictly_descending l :
  StronglySorted (flip le) l → StronglySorted (flip lt) (unique l).
Proof.
  induction l as [|y l IH]; intros Hs; [constructor|].
  destruct l as [|z l]; [repeat constructor|].
  change (unique (y :: z :: l))
    with (if y =? z then unique (z :: l) else y :: unique (z :: l)).
  apply StronglySorted_inv in Hs as [Hs Hy].
  destruct (Nat.eqb_spec y z) as [->|Hne]; [by apply IH|].
  constructor; [by apply IH|].
  apply Forall_forall. intros x Hx. apply (proj1 (elem_of_unique _ _)) in Hx.
  rewrite Forall_forall in Hy.
  apply StronglySorted_inv in Hs as [_ Hz]. rewrite Forall_forall in Hz.
  pose proof (Hy z (list_elem_of_here _ _)) as Hzy. unfold flip in *.
  apply elem_of_cons in Hx as [->|Hx]; [lia|].
  specialize (Hz x Hx). simpl in Hz. lia.
Qed.

Lemma sort_desc_sorted l : StronglySorted (flip le) (sort_desc l).
Proof.
  unfold sort_desc. apply StronglySorted_merge_sort.
  - intros x y z. unfold flip. lia.
  - intros x y. unfold flip. lia.
Qed.

Lemma elem_of_sort_desc x l : x ∈ sort_desc l ↔ x ∈ l.
Proof. unfold sort_desc. by rewrite merge_sort_Permutation. Qed.

Lemma remove_positions_none rs l i :
  (∀ x, x ∈ l → x < i) → remove_positions rs l i = rs.
Proof.
  revert i. induction rs as [|reg rs IH]; intros i Hl; [done|].
  simpl. destruct (decide (i ∈ l)) as [Hin|_].
  - apply Hl in Hin. lia.
  - f_equal. apply IH. intros x Hx. apply Hl in Hx. lia.
Qed.

Lemma remove_positions_delete rs r i l :
  (∀ x, x ∈ l → x < i + r) → r < length rs →
  remove_positions (delete r rs) l i = remove_positions rs ((i + r) :: l) i.
Proof.
  revert r i. induction rs as [|reg rs IH]; intros r i Hl Hr; [simpl in Hr; lia|].
  destruct r as [|r].
  - change (delete 0 (reg :: rs)) with rs. simpl.
    rewrite decide_True by (rewrite Nat.add_0_r; set_solver).
    rewrite !remove_positions_none; [done|..].
    + intros x [->|Hx%Hl]%elem_of_cons; lia.
    + intros x Hx%Hl; lia.
  - change (delete (S r) (reg :: rs)) with (reg :: delete r rs). simpl.
    replace (i + S r) with (S i + r) by lia.
    simpl in Hr.
    destruct (decide (i ∈ l)) as [Hin|Hnin].
    + rewrite decide_True by set_solver. apply IH; [|lia].
      intros x Hx%Hl. lia.
    + rewrite decide_False.
      * f_equal. apply IH; [|lia]. intros x Hx%Hl. lia.
      * intros [?|?]%elem_of_cons; [lia|done].
Qed.

Lemma remove_positions_ext rs l l' i :
  (∀ x, x ∈ l ↔ x ∈ l') → remove_positions rs l i = remove_positions rs l' i.
Proof.
  intros Heq. revert i. induction rs as [|reg rs IH]; intros i; [done|].
  simpl. rewrite IH.
  destruct (decide (i ∈ l)) as [Hi|Hi], (decide (i ∈ l')) as [Hi'|Hi'];
    rewrite Heq in Hi; done.
Qed.

Lemma erase_all_descending {EB} (m : Manager EB) (l : list nat) :
  StronglySorted (flip lt) l → Forall (λ r, r < length (regions m)) l →
  ∃ m', erase_all m l = Done m'
        ∧ regions m' = remove_positions (regions m) l 0
        ∧ searchCache m' = searchCache m
        ∧ flushList m' = flushList m
        ∧ total_translated_size m' = total_translated_size m
        ∧ total_translation_size m' = total_translation_size m.
Proof.
  revert m. induction l as [|r l IH]; intros m Hs Hv.
  { exists m. split_and!; try done. by rewrite remove_positions_none by set_solver. }
  apply StronglySorted_inv in Hs as [Hs Hr].
  apply Forall_cons in Hv as [Hrv Hv].
  cbn [erase_all]. unfold eraseRegion at 1.
  destruct (lookup_lt_is_Some_2 _ _ Hrv) as [reg Hreg]. rewrite Hreg. simpl.
  set (m1 := set_heap _ _).
  destruct (IH m1) as (m' & Hm' & Hregs & Hc & Hf & Ht1 & Ht2); [done| |].
  { rewrite Forall_forall in *. intros x Hx. specialize (Hr x Hx).
    unfold flip in Hr. simpl. rewrite length_delete by eauto. lia. }
  exists m'. split_and!; [done| |done..].
  rewrite Hregs. simpl.
  rewrite (remove_positions_delete _ r 0); [done| |done].
  rewrite Forall_forall in Hr. intros x Hx. apply Hr in Hx. unfold flip in Hx. lia.
Qed.

Lemma flushCommit_regions {EB} (m : Manager EB) :
  Forall (λ r, r < length (regions m)) (flushList m) →
  ∃ m', flushCommit m = Done m'
        ∧ regions m' = remove_positions (regions m) (flushList m) 0
        ∧ flushList m' = [].
Proof.
  intros Hv. unfold flushCommit.
  destruct (Nat.ltb_spec 0 (length (flushList m))) as [Hne|He].
  - set (l := unique (sort_desc (flushList m))).
    assert (Hel : ∀ x, x ∈ l ↔ x ∈ flushList m).
    { intros x. unfold l. by rewrite elem_of_unique, elem_of_sort_desc. }
    destruct (erase_all_descending (set_flushList m l) l)
      as (m' & Hm' & Hregs & _).
    { apply unique_strictly_descending, sort_desc_sorted. }
    { rewrite Forall_forall in *. intros x Hx%Hel. simpl. auto. }
    rewrite Hm'. simpl. eexists. split_and!; [done| |done].
    simpl. rewrite Hregs. simpl. by apply remove_positions_ext.
  - exists m. destruct (flushList m); [|simpl in He; lia].
    split_and!; [done| |done]. by rewrite remove_positions_none by set_solver.
Qed.

Lemma overlapping_bounds rs range i x :
  x ∈ overlapping rs range i → i ≤ x < i + length rs.
Proof.
  revert i. induction rs as [|reg rs IH]; intros i; simpl.
  { by intros ?%elem_of_nil. }
  destruct (overlaps (covered reg) range).
  - intros [->|Hx%IH]%elem_of_cons; lia.
  - intros Hx%IH. lia.
Qed.

Lemma remove_positions_overlapping rs range i l :
  (∀ x, x ∈ l → x < i) →
  remove_positions rs (l ++ overlapping rs range i) i
  = filter (λ reg, overlaps (covered reg) range = false) rs.
Proof.
  revert i l. induction rs as [|reg rs IH]; intros i l Hl; [done|].
  cbn [remove_positions overlapping].
  destruct (overlaps (covered reg) range) eqn:Hov.
  - rewrite decide_True by (rewrite elem_of_app, elem_of_cons; auto).
    rewrite filter_cons_False by (by rewrite Hov).
    rewrite (cons_middle i), (assoc_L (++)). apply IH.
    intros x [Hx%Hl| ->%list_elem_of_singleton]%elem_of_app; lia.
  - rewrite decide_False.
    + rewrite filter_cons_True by done. f_equal. apply IH.
      intros x Hx%Hl. lia.
    + intros [Hx%Hl|Hx%overlapping_bounds]%elem_of_app; lia.
Qed.

Lemma remove_positions_clear rs range i l reg :
  reg ∈ remove_positions rs (l ++ overlapping rs range i) i →
  overlaps (covered reg) range = false.
Proof.
  revert i l. induction rs as [|reg0 rs IH]; intros i l; simpl.
  { intros Hin. by apply elem_of_nil in Hin. }
  destruct (overlaps (covered reg0) range) eqn:Hov.
  - rewrite decide_True by (apply elem_of_app; right; apply list_elem_of_here).
    rewrite (cons_middle i), app_assoc. apply IH.
  - destruct (decide (i ∈ l ++ overlapping rs range (S i))); [apply IH|].
    intros [->|Hin]%elem_of_cons; [done|]. by eapply IH.
Qed.

Lemma pending_clearCache_range {EB} (m : Manager EB) range :
  pending_in_range m → pending_in_range (clearCache_range m range).
Proof.
  intros Hp. unfold pending_in_range. simpl. apply Forall_app. split; [done|].
  apply Forall_forall. intros x Hx%overlapping_bounds. lia.
Qed.

Lemma remove_positions_lookup rs l i j reg :
  rs !! j = Some reg → i + j ∉ l → reg ∈ remove_positions rs l i.
Proof.
  revert i j. induction rs as [|reg0 rs IH]; intros i j; [done|].
  destruct j as [|j]; simpl.
  - intros [= ->] Hi. rewrite Nat.add_0_r in Hi.
    rewrite decide_False by done. apply list_elem_of_here.
  - intros Hj Hi. replace (i + S j) with (S i + j) in Hi by lia.
    destruct (decide (i ∈ l)); [by eapply IH|].
    apply list_elem_of_further. by eapply IH.
Qed.

Lemma overlapping_lookup rs range k i reg :
  rs !! i = Some reg → overlaps (covered reg) range = false →
  k + i ∉ overlapping rs range k.
Proof.
  revert k i. induction rs as [|reg0 rs IH]; intros k i; [done|].
  destruct i as [|i]; simpl.
  - intros [= ->] Hov. rewrite Hov, Nat.add_0_r.
    intros Hin%overlapping_bounds. lia.
  - intros Hreg Hov. replace (k + S i) with (S k + i) by lia.
    destruct (overlaps (covered reg0) range).
    + intros [Heq|Hin]%elem_of_cons; [lia|]. by eapply IH.
    + by apply IH.
Qed.

(** C7, as the code has it. With the pending indices within the array,
    [clearCache(range)] followed at once by [flushCommit()] returns and
    leaves the regions at the positions that are neither pending nor
    overlapping [range], each as it was and in the same order: none of
    them overlaps [range], and a region that does not overlap it is kept
    when its position was not pending. With nothing pending these are
    exactly the regions that do not overlap [range]. [flushCommit] erases
    the marked indices one by one from a list that holds each of them
    once, in strictly descending order, and leaves nothing pending. *)
Theorem clearCache_flushCommit {EB} (m : Manager EB) (range : Range) :
  pending_in_range m →
  let m1 := clearCache_range m range in
  let l := unique (sort_desc (flushList m1)) in
  (∃ m', flushCommit m1 = Done m'
         ∧ regions m'
           = remove_positions (regions m)
               (flushList m ++ overlapping (regions m) range 0) 0
         ∧ (∀ reg, reg ∈ regions m' → overlaps (covered reg) range = false)
         ∧ (∀ i reg, regions m !! i = Some reg → i ∉ flushList m →
              overlaps (covered reg) range = false → reg ∈ regions m')
         ∧ (flushList m = [] →
            regions m'
            = filter (λ reg, overlaps (covered reg) range = false) (regions m))
         ∧ flushList m' = [])
  ∧ StronglySorted (flip lt) l
  ∧ (∀ r, r ∈ l ↔ r ∈ flushList m1)
  ∧ (flushList m1 ≠ [] →
     flushCommit m1
     = (m2 ← erase_all (set_flushList m1 l) l;
        Done (set_searchCache
                (set_globalAnalysisCache (set_flushList m2 []) ∅)
                (mkSearchCache 0 0)))).
Proof.
  intros Hp m1 l. split_and!.
  - destruct (flushCommit_regions m1) as (m' & Hm' & Hregs & Hfl).
    { by apply pending_clearCache_range. }
    exists m'. unfold m1 in Hregs. simpl in Hregs.
    split_and!; [done|done| | | |done].
    + intros reg Hin. rewrite Hregs in Hin.
      by eapply remove_positions_clear.
    + intros i reg Hreg Hi Hov. rewrite Hregs.
      apply (remove_positions_lookup _ _ 0 i); [done|]. simpl.
      intros [Hin|Hin]%elem_of_app; [done|].
      by apply (overlapping_lookup _ range 0 i reg) in Hin.
    + intros Hempty. rewrite Hregs, Hempty.
      by apply remove_positions_overlapping; intros x ?%elem_of_nil.
  - apply unique_strictly_descending, sort_desc_sorted.
  - intros r. unfold l. by rewrite elem_of_unique, elem_of_sort_desc.
  - intros Hne. unfold flushCommit.
    destruct (flushList m1) as [|x t] eqn:Hl; [done|]. reflexivity.
Qed.

(** ** The one-slot search cache *)

Lemma findRegion_cache {EB} `{!ExecBlockOps EB} (m : Manager EB) cr m' r :
  findRegion m cr = Done (m', r) →
  searchCache m' = mkSearchCache (start cr) r.
Proof.
  unfold findRegion. destruct (searchRegion m (start cr)) as [m0 low].
  destruct (candidate_loop _ _ _ _ _ _ _) as [i|[c best]].
  { by intros [= <- <-]. }
  destruct (negb _).
  - destruct (regions m0 !! best); simpl; [|done]. by intros [= <- <-].
  - destruct (_ <=? _); [|done]. by intros [= <- <-].
Qed.

Lemma eraseRegion_inv {EB} (m : Manager EB) r m' :
  eraseRegion m r = Done m' →
  regions m' = delete r (regions m) ∧ searchCache m' = searchCache m
  ∧ r < length (regions m).
Proof.
  unfold eraseRegion. destruct (regions m !! r) eqn:Hr; simpl; [|done].
  intros [= <-]. eauto using lookup_lt_Some.
Qed.

Lemma clear_loop_empties {EB} n (m : Manager EB) :
  length (regions m) ≤ n →
  ∃ m', clear_loop n m = Done m' ∧ regions m' = []
        ∧ searchCache m' = searchCache m.
Proof.
  revert m. induction n as [|n IH]; intros m Hn.
  { exists m. split_and!; [done| |done]. destruct (regions m); [done|simpl in Hn; lia]. }
  cbn [clear_loop]. destruct (Nat.ltb_spec 0 (length (regions m))) as [Hpos|Hz].
  - destruct (lookup_lt_is_Some_2 (regions m) (length (regions m) - 1))
      as [reg Hreg]; [lia|].
    unfold eraseRegion at 1. rewrite Hreg. simpl.
    set (m1 := set_heap _ _).
    destruct (IH m1) as (m' & Hm' & Hregs & Hc).
    { unfold m1. simpl. rewrite length_delete by eauto. lia. }
    exists m'. by split_and!.
  - exists m. split_and!; [done| |done]. destruct (regions m); [done|simpl in Hz; lia].
Qed.

Lemma clearCache_rangeSet_frame {EB} (m : Manager EB) ranges :
  regions (clearCache_rangeSet m ranges) = regions m
  ∧ searchCache (clearCache_rangeSet m ranges) = searchCache m.
Proof.
  unfold clearCache_rangeSet. simpl.
  revert m. induction ranges as [|range ranges IH]; intros m; [done|].
  simpl. destruct (IH (clearCache_range m range)) as [-> ->]. done.
Qed.

Lemma searchRegion_index_ext {EB} (m1 m2 : Manager EB) addr :
  regions m1 = regions m2 → searchCache m1 = searchCache m2 →
  (searchRegion m1 addr).2 = (searchRegion m2 addr).2.
Proof.
  intros Hr Hc. unfold searchRegion. rewrite Hr, Hc.
  destruct (_ =? _); [done|]. destruct (_ =? _)%Z; done.
Qed.

(** C8, as the code has it: the slot is reset by [flushCommit] when it
    erases regions and overwritten with the chosen index by [findRegion],
    also when it inserts a region. [eraseRegion], [clearCache()] and
    [clearCache(rangeSet)] leave the slot as it is. After [clearCache()]
    the array is empty and [searchRegion] answers 0 without reading the
    slot; after [clearCache(rangeSet)] the counters are 1, the regions and
    the slot are unchanged and [searchRegion] answers as before. *)
Theorem search_cache_upkeep {EB} `{!ExecBlockOps EB} (m : Manager EB) :
  (∀ m', flushList m ≠ [] → flushCommit m = Done m' →
         searchCache m' = mkSearchCache 0 0)
  ∧ (∀ cr m' r, findRegion m cr = Done (m', r) →
                searchCache m' = mkSearchCache (start cr) r)
  ∧ (∀ r m', eraseRegion m r = Done m' → searchCache m' = searchCache m)
  ∧ (∃ m', clearCache m = Done m' ∧ searchCache m' = searchCache m
           ∧ regions m' = [] ∧ ∀ addr, searchRegion m' addr = (m', 0))
  ∧ (∀ ranges,
       let m' := clearCache_rangeSet m ranges in
       total_translated_size m' = 1%Z ∧ total_translation_size m' = 1%Z
       ∧ searchCache m' = searchCache m ∧ regions m' = regions m
       ∧ ∀ addr, (searchRegion m' addr).2 = (searchRegion m addr).2).
Proof.
  split_and!.
  - intros m' Hne. unfold flushCommit.
    destruct (flushList m) as [|x l]; [done|]. simpl.
    destruct (erase_all _ _); simpl; [|done..]. by intros [= <-].
  - apply findRegion_cache.
  - intros r m' H. by apply eraseRegion_inv in H as (_ & ? & _).
  - destruct (clear_loop_empties (length (regions m)) m) as (m' & Hm' & Hr & Hc);
      [done|].
    exists m'. split_and!; [done..|].
    intros addr. unfold searchRegion. by rewrite Hr.
  - intros ranges m'.
    destruct (clearCache_rangeSet_frame m ranges) as [Hr Hc].
    split_and!; [done..|]. intros addr. by apply searchRegion_index_ext.
Qed.

(** ** SequenceWriter *)

Section Writer.
Context {EB : Type} `{!ExecBlockOps EB} {target : Target}.
Implicit Types m : Manager EB.

Lemma grows_refl r m : is_Some (regions m !! r) → grows r m m.
Proof. intros [reg Hreg]. unfold grows. split_and!; try done. by exists reg, reg. Qed.

Lemma grows_trans r m1 m2 m3 : grows r m1 m2 → grows r m2 m3 → grows r m1 m3.
Proof.
  intros (Hc1 & Hf1 & Hl1 & Hh1 & reg1 & reg2 & Hr1 & Hr2 & Hcov1 & Hbb1 & Hb1 & Hs1 & Hi1)
         (Hc2 & Hf2 & Hl2 & Hh2 & reg2' & reg3 & Hr2' & Hr3 & Hcov2 & Hbb2 & Hb2 & Hs2 & Hi2).
  assert (reg2' = reg2) as -> by congruence.
  unfold grows. split_and!; try congruence; [auto|].
  exists reg1, reg3. split_and!; try congruence; auto.
Qed.

Lemma grows_heap r m p b :
  is_Some (regions m !! r) → grows r m (set_heap m (<[p := b]> (heap m))).
Proof.
  intros [reg Hreg]. unfold grows. simpl. split_and!; try done.
  - intros q Hq. destruct (decide (p = q)) as [->|Hne].
    + rewrite lookup_insert_eq. eauto.
    + by rewrite lookup_insert_ne.
  - by exists reg, reg.
Qed.

Lemma block_loop_grows m r bs i ps t m' i' p res :
  is_Some (regions m !! r) →
  block_loop m r bs i ps t = Done (m', i', p, res) →
  grows r m m'.
Proof.
  revert m i. induction bs as [|q bs IH]; intros m i [reg Hreg].
  - cbn [block_loop]. rewrite Hreg. simpl.
    destruct (writeSequence newExecBlock ps t) as [b res'].
    destruct (_ =? _)%Z; [done|]. intros [= <- <- <- <-].
    unfold grows. simpl. split_and!; try done.
    + by rewrite length_insert.
    + intros q Hq. destruct (decide (nextBlock m = q)) as [->|Hne].
      * rewrite lookup_insert_eq. eauto.
      * by rewrite lookup_insert_ne.
    + exists reg, (set_blocks reg (blocks reg ++ [nextBlock m])).
      split_and!; try done.
      * apply list_lookup_insert_eq. eauto using lookup_lt_Some.
      * simpl. intros q Hq. rewrite elem_of_app. by left.
  - cbn [block_loop]. destruct (heap m !! q) as [b|]; simpl; [|done].
    destruct (writeSequence b ps t) as [b' res'].
    destruct (_ =? _)%Z.
    + intros H. eapply grows_trans; [|eapply IH; [|done]]; [|by simpl; eauto].
      apply grows_heap. eauto.
    + intros [= <- <- <- <-]. apply grows_heap. eauto.
Qed.

(** With live blocks the search for a block goes through without leaving
    the bounds of a container; it ends on a block that took the sequence,
    unless a new block refuses it. *)
Lemma block_loop_alive m r bs i ps t reg :
  regions m !! r = Some reg →
  (∀ p, p ∈ blocks reg → is_Some (heap m !! p)) →
  (∀ p, p ∈ bs → p ∈ blocks reg) →
  match block_loop m r bs i ps t with
  | Done (m', i', p, res) =>
      alive r m'
      ∧ res_seqID res ≠ EXEC_BLOCK_FULL
      ∧ (∃ reg', regions m' !! r = Some reg' ∧ p ∈ blocks reg')
      ∧ ∃ b b', writeSequence b ps t = (b', res) ∧ heap m' !! p = Some b'
  | Undefined => False
  | Stuck => res_seqID (writeSequence newExecBlock ps t).2 = EXEC_BLOCK_FULL
  | Thrown => False
  end.
Proof.
  revert m i. induction bs as [|q bs IH]; intros m i Hreg Hlive Hbs.
  - cbn [block_loop]. rewrite Hreg. simpl.
    destruct (writeSequence newExecBlock ps t) as [b res] eqn:Hw.
    destruct (Z.eqb_spec (res_seqID res) EXEC_BLOCK_FULL) as [Hfull|Hok]; [done|].
    assert (Hlook : <[r := set_blocks reg (blocks reg ++ [nextBlock m])]>
                      (regions m) !! r
                    = Some (set_blocks reg (blocks reg ++ [nextBlock m]))).
    { apply list_lookup_insert_eq. eauto using lookup_lt_Some. }
    split_and!; [|done| |].
    + eexists. split; [exact Hlook|]. simpl.
      intros p [Hp| ->%list_elem_of_singleton]%elem_of_app.
      * destruct (decide (nextBlock m = p)) as [->|Hne].
        -- rewrite lookup_insert_eq. eauto.
        -- rewrite lookup_insert_ne by done. auto.
      * rewrite lookup_insert_eq. eauto.
    + eexists. split; [exact Hlook|]. simpl. rewrite elem_of_app.
      right. apply list_elem_of_singleton. done.
    + exists newExecBlock, b. split; [done|]. simpl. apply lookup_insert_eq.
  - cbn [block_loop].
    destruct (Hlive q) as [b Hb]; [apply Hbs; left|]. rewrite Hb. simpl.
    destruct (writeSequence b ps t) as [b' res] eqn:Hw.
    assert (Hlive' : ∀ p, p ∈ blocks reg →
              is_Some (heap (set_heap m (<[q := b']> (heap m))) !! p)).
    { intros p Hp. simpl. destruct (decide (q = p)) as [->|Hne].
      - rewrite lookup_insert_eq. eauto.
      - rewrite lookup_insert_ne by done. auto. }
    destruct (Z.eqb_spec (res_seqID res) EXEC_BLOCK_FULL) as [Hfull|Hok].
    + apply IH; [done|done|]. intros p Hp. apply Hbs. by right.
    + split_and!; [|done| |].
      * exists reg. split; [done|exact Hlive'].
      * exists reg. split; [done|]. apply Hbs. left.
      * exists b, b'. split; [done|]. simpl. apply lookup_insert_eq.
Qed.

Lemma inst_loop_mono n basicBlock ic i patchIdx startID id ic' :
  inst_loop n basicBlock ic i patchIdx startID id = Done ic' →
  ∀ k, is_Some (ic !! k) → is_Some (ic' !! k).
Proof.
  revert ic id. induction n as [|n IH]; intros ic id; cbn [inst_loop].
  { by intros [= <-]. }
  destruct (basicBlock !! _) as [p|]; simpl; [|done].
  intros H k Hk. eapply IH; [exact H|].
  apply lookup_insert_is_Some. destruct (decide (address (metadata p) = k)); auto.
Qed.

Lemma inst_loop_covers n basicBlock ic i patchIdx startID id :
  (startID <= id)%Z →
  patchIdx + Z.to_nat (id - startID) + n ≤ length basicBlock →
  ∃ ic', inst_loop n basicBlock ic i patchIdx startID id = Done ic'
         ∧ ∀ j pj,
             patchIdx + Z.to_nat (id - startID) ≤ j
                < patchIdx + Z.to_nat (id - startID) + n →
             basicBlock !! j = Some pj →
             is_Some (ic' !! address (metadata pj)).
Proof.
  revert ic id. induction n as [|n IH]; intros ic id Hid Hlen; cbn [inst_loop].
  { eexists. split; [done|]. intros j pj Hj. lia. }
  destruct (lookup_lt_is_Some_2 basicBlock (patchIdx + Z.to_nat (id - startID)))
    as [p Hp]; [lia|].
  rewrite Hp. simpl.
  set (ic1 := <[_ := _]> ic).
  destruct (IH ic1 (id + 1)%Z) as (ic' & Hic' & Hcov); [lia|lia|].
  exists ic'. split; [done|]. intros j pj Hj Hpj.
  destruct (decide (j = patchIdx + Z.to_nat (id - startID))) as [->|Hne].
  - assert (pj = p) as -> by congruence.
    eapply inst_loop_mono; [exact Hic'|]. unfold ic1.
    rewrite lookup_insert_eq. eauto.
  - apply (Hcov j); [lia|done].
Qed.

Lemma inst_cache_loop_mono basicBlock ic i patchIdx startID endID ic' :
  inst_cache_loop basicBlock ic i patchIdx startID endID = Done ic' →
  ∀ k, is_Some (ic !! k) → is_Some (ic' !! k).
Proof.
  unfold inst_cache_loop.
  destruct (inst_loop _ _ _ _ _ _ _) as [ic1| | |] eqn:Hl; simpl; [|done..].
  destruct (_ =? _)%Z; [by destruct (_ && _)|].
  intros [= <-]. eauto using inst_loop_mono.
Qed.

Lemma write_turn_grows m r basicBlock patchEnd patchIdx t1 t2 m' patchIdx' t1' t2' :
  write_turn m r basicBlock patchEnd patchIdx t1 t2
    = Done (m', patchIdx', t1', t2') →
  grows r m m'
  ∧ ∃ first reg', basicBlock !! patchIdx = Some first
      ∧ regions m' !! r = Some reg'
      ∧ is_Some (sequenceCache reg' !! address (metadata first)).
Proof.
  unfold write_turn.
  destruct (regions m !! r) as [reg|] eqn:Hreg; simpl; [|done].
  destruct (block_loop _ _ _ _ _ _) as [[[[m1 i] p] res]| | |] eqn:Hbl;
    simpl; [|done..].
  apply block_loop_grows in Hbl; [|eauto].
  destruct (regions m1 !! r) as [reg1|] eqn:Hreg1; simpl; [|done].
  destruct (basicBlock !! patchIdx) as [first|] eqn:Hfirst; simpl; [|done].
  destruct (heap m1 !! p) as [b|] eqn:Hb; simpl; [|done].
  destruct (inst_cache_loop _ _ _ _ _ _) as [ic| | |] eqn:Hic; simpl; [|done..].
  destruct (if (_ <? 0)%Z then _ else _) as [last|]; simpl; [|done].
  intros [= <- <- <- <-].
  pose proof (inst_cache_loop_mono _ _ _ _ _ _ _ Hic) as Hmono.
  set (reg2 := set_instCache _ ic).
  assert (Hlook : regions (put_region m1 r reg2) !! r = Some reg2).
  { simpl. apply list_lookup_insert_eq. eauto using lookup_lt_Some. }
  split.
  - eapply grows_trans; [exact Hbl|].
    unfold grows. simpl. split_and!; try done.
    + by rewrite length_insert.
    + exists reg1, reg2. split_and!; try done.
      simpl. intros k Hk. apply lookup_insert_is_Some.
      destruct (decide (address (metadata first) = k)); auto.
  - exists first, reg2. split_and!; [done..|].
    simpl. rewrite lookup_insert_eq. eauto.
Qed.

Lemma write_loop_grows fuel m r basicBlock patchEnd patchIdx t1 t2 m' t1' t2' :
  is_Some (regions m !! r) →
  write_loop fuel m r basicBlock patchEnd patchIdx t1 t2 = Done (m', t1', t2') →
  grows r m m'
  ∧ (patchIdx < patchEnd →
     ∃ first reg', basicBlock !! patchIdx = Some first
       ∧ regions m' !! r = Some reg'
       ∧ is_Some (sequenceCache reg' !! address (metadata first))).
Proof.
  revert m patchIdx t1 t2.
  induction fuel as [|fuel IH]; intros m patchIdx t1 t2 Hreg; cbn [write_loop];
    destruct (Nat.leb_spec patchEnd patchIdx) as [Hge|Hlt].
  - intros [= <- <- <-]. split; [by apply grows_refl|lia].
  - done.
  - intros [= <- <- <-]. split; [by apply grows_refl|lia].
  - destruct (write_turn _ _ _ _ _ _ _) as [[[[m1 idx1] u1] u2]| | |] eqn:Hturn;
      simpl; [|done..].
    apply write_turn_grows in Hturn as (Hg1 & first & reg1 & Hfirst & Hreg1 & Hkey).
    intros Hloop. apply IH in Hloop as (Hg2 & _); [|eauto].
    split; [by eapply grows_trans|]. intros _.
    destruct Hg2 as (_ & _ & _ & _ & reg1' & reg2 & Hr1 & Hr2 & _ & _ & _ & Hseq & _).
    assert (reg1' = reg1) as -> by congruence.
    exists first, reg2. split_and!; auto.
Qed.

Lemma searchRegion_frame m addr :
  regions (searchRegion m addr).1 = regions m
  ∧ heap (searchRegion m addr).1 = heap m
  ∧ flushList (searchRegion m addr).1 = flushList m
  ∧ total_translated_size (searchRegion m addr).1 = total_translated_size m
  ∧ total_translation_size (searchRegion m addr).1 = total_translation_size m.
Proof.
  unfold searchRegion. destruct (_ =? _); [done|]. by destruct (_ =? _)%Z.
Qed.

Lemma candidate_loop_inl n rs ratio cr i c b k :
  candidate_loop n rs ratio cr i c b = inl k →
  ∃ reg, rs !! k = Some reg ∧ contains (covered reg) cr = true.
Proof.
  revert i c b. induction n as [|n IH]; intros i c b; cbn [candidate_loop]; [done|].
  destruct (rs !! i) as [reg|] eqn:Hreg; [|done].
  destruct (contains (covered reg) cr) eqn:Hc.
  { intros [= <-]. eauto. }
  destruct (_ && _); apply IH.
Qed.

Lemma candidate_loop_inr n rs ratio cr i c b c' b' :
  candidate_loop n rs ratio cr i c b = inr (c', b') →
  b' = b ∨ is_Some (rs !! b').
Proof.
  revert i c b. induction n as [|n IH]; intros i c b; cbn [candidate_loop].
  { intros [= <- <-]. by left. }
  destruct (rs !! i) as [reg|] eqn:Hreg; [|intros [= <- <-]; by left].
  destruct (contains (covered reg) cr); [done|].
  destruct (_ && _); intros [->|?]%IH; eauto.
Qed.

Lemma contains_extend c cr : contains (extend c cr) cr = true.
Proof.
  unfold contains, extend.
  destruct (Z.ltb_spec (end_ c) (end_ cr)); simpl;
    destruct (Z.ltb_spec (start cr) (start c)); simpl;
    apply andb_true_iff; rewrite !Z.leb_le; lia.
Qed.

Lemma contains_refl c : contains c c = true.
Proof. unfold contains. apply andb_true_iff. rewrite !Z.leb_le. lia. Qed.

Lemma lookup_insert_at {A} (l : list A) i x :
  i ≤ length l → (take i l ++ x :: drop i l) !! i = Some x.
Proof.
  intros Hi. rewrite lookup_app_r by (rewrite length_take; lia).
  rewrite length_take. replace (i - i `min` length l) with 0 by lia. done.
Qed.

(** The region returned by [findRegion] contains the code range, and the
    slot points at it. *)
Lemma findRegion_post m cr m' r :
  findRegion m cr = Done (m', r) →
  searchCache m' = mkSearchCache (start cr) r
  ∧ heap m' = heap m
  ∧ ∃ reg, regions m' !! r = Some reg ∧ contains (covered reg) cr = true.
Proof.
  unfold findRegion.
  pose proof (searchRegion_frame m (start cr)) as (Hregs & Hheap & _).
  destruct (searchRegion m (start cr)) as [m0 low]. simpl in Hregs, Hheap.
  destruct (candidate_loop _ _ _ _ _ _ _) as [i|[c best]] eqn:Hloop.
  { apply candidate_loop_inl in Hloop as (reg & Hreg & Hc).
    intros [= <- <-]. simpl. eauto. }
  destruct (negb _).
  - destruct (regions m0 !! best) as [reg|] eqn:Hbest; simpl; [|done].
    intros [= <- <-]. simpl. split_and!; [done..|].
    eexists. split.
    + apply list_lookup_insert_eq. eauto using lookup_lt_Some.
    + simpl. apply contains_extend.
  - destruct (Nat.leb_spec (insert_scan (drop low (regions m0)) cr low)
                           (length (regions m0))) as [Hle|]; [|done].
    intros [= <- <-]. simpl. split_and!; [done..|].
    eexists. split; [by apply lookup_insert_at|]. apply contains_refl.
Qed.

Lemma set_searchCache_id m : set_searchCache m (searchCache m) = m.
Proof. by destruct m. Qed.

(** When the slot already points at a region that contains the code range,
    [findRegion] returns it and changes nothing. *)
Lemma findRegion_hit m cr r reg :
  searchCache m = mkSearchCache (start cr) r →
  regions m !! r = Some reg → contains (covered reg) cr = true →
  findRegion m cr = Done (m, r).
Proof.
  intros Hc Hreg Hin. unfold findRegion, searchRegion.
  destruct (Nat.eqb_spec (length (regions m)) 0) as [Hz|_].
  { apply lookup_lt_Some in Hreg. lia. }
  rewrite Hc. simpl. rewrite Z.eqb_refl.
  cbn [candidate_loop]. rewrite Hreg, Hin.
  by rewrite <- Hc, set_searchCache_id.
Qed.

Lemma updateRegionStat_inv m r t m' :
  updateRegionStat m r t = Done m' →
  ∃ reg tr av, regions m !! r = Some reg
               ∧ m' = put_region m r (set_stat reg tr av).
Proof.
  unfold updateRegionStat.
  destruct (regions m !! r) as [reg|]; simpl; [|done].
  destruct (blocks reg !! 0) as [p|]; simpl; [|done].
  destruct (heap m !! p) as [b|]; simpl; [|done].
  intros [= <-]. eauto.
Qed.

Lemma truncation_head sc p rest :
  is_Some (sc !! address (metadata p)) → truncation sc (p :: rest) = 0.
Proof. intros [l Hl]. simpl. by rewrite Hl. Qed.

Lemma truncation_zero sc basicBlock p :
  head basicBlock = Some p → truncation sc basicBlock = 0 →
  is_Some (sc !! address (metadata p)).
Proof.
  destruct basicBlock as [|q rest]; [done|]. intros [= ->]. simpl.
  destruct (sc !! _); [eauto|done].
Qed.

Lemma search_loop_bound fuel rs addr low high :
  low < high → search_loop fuel rs addr low high < high.
Proof.
  revert low high. induction fuel as [|fuel IH]; intros low high Hlt;
    cbn [search_loop]; [done|].
  destruct (Nat.eqb_spec (low + 1) high) as [Heq|Hne]; [done|].
  assert (Hmid : low < (low + high) `div` 2 < high).
  { pose proof (Nat.div_mod_eq (low + high) 2).
    pose proof (Nat.mod_upper_bound (low + high) 2). lia. }
  set (idx := (low + high) `div` 2) in *.
  destruct (rs !! idx) as [reg|]; [|done].
  destruct (_ <? _)%Z.
  { specialize (IH low idx). lia. }
  destruct (_ <=? _)%Z; [|lia]. apply IH. lia.
Qed.

Lemma searchRegion_bound m addr :
  cache_in_range m → (searchRegion m addr).2 ≤ length (regions m).
Proof.
  intros Hc. unfold searchRegion.
  destruct (Nat.eqb_spec (length (regions m)) 0) as [Hz|Hnz]; simpl; [lia|].
  destruct (_ =? _)%Z; simpl.
  - destruct Hc as [Hnil|?]; [|lia]. rewrite Hnil in Hnz. done.
  - pose proof (search_loop_bound (length (regions m)) (regions m) addr 0
                  (length (regions m))). lia.
Qed.

Lemma insert_scan_bound rs cr i : insert_scan rs cr i ≤ i + length rs.
Proof.
  revert i. induction rs as [|reg rs IH]; intros i; simpl; [lia|].
  destruct (_ <? _)%Z; [lia|]. specialize (IH (S i)). lia.
Qed.

(** With the slot in range [findRegion] stays within the bounds of the
    array, and the region it returns holds live blocks. *)
Lemma findRegion_done m cr :
  cache_in_range m → blocks_alive m →
  ∃ m' r, findRegion m cr = Done (m', r) ∧ alive r m'.
Proof.
  intros Hc Hlive. unfold findRegion.
  pose proof (searchRegion_frame m (start cr)) as (Hregs & Hheap & _).
  pose proof (searchRegion_bound m (start cr) Hc) as Hlow.
  destruct (searchRegion m (start cr)) as [m0 low].
  simpl in Hregs, Hheap, Hlow. rewrite <- Hregs in Hlow.
  assert (Hlive0 : ∀ reg p, reg ∈ regions m0 → p ∈ blocks reg →
            is_Some (heap m0 !! p)).
  { rewrite Hregs, Hheap. exact Hlive. }
  destruct (candidate_loop _ _ _ _ _ _ _) as [i|[c best]] eqn:Hloop.
  { apply candidate_loop_inl in Hloop as (reg & Hreg & _).
    eexists _, _. split; [done|]. exists reg. split; [done|]. simpl.
    intros p. apply Hlive0. by eapply list_elem_of_lookup_2. }
  apply candidate_loop_inr in Hloop. rewrite <- Hregs in Hloop.
  destruct (Nat.eqb_spec best (length (regions m0))) as [Heq|Hne]; simpl.
  - pose proof (insert_scan_bound (drop low (regions m0)) cr low) as Hb.
    rewrite length_drop in Hb.
    destruct (Nat.leb_spec (insert_scan (drop low (regions m0)) cr low)
                           (length (regions m0))) as [Hle|Hgt]; [|lia].
    eexists _, _. split; [done|]. eexists. simpl.
    split; [by apply lookup_insert_at|]. simpl. by intros p ?%elem_of_nil.
  - destruct Hloop as [->|[reg Hreg]]; [done|].
    rewrite Hreg. simpl. eexists _, _. split; [done|]. eexists. simpl. split.
    + apply list_lookup_insert_eq. eauto using lookup_lt_Some.
    + simpl. intros p. apply Hlive0. by eapply list_elem_of_lookup_2.
Qed.

(** With the slot in range [findRegion] returns. *)
Lemma findRegion_returns m cr :
  cache_in_range m → ∃ m' r, findRegion m cr = Done (m', r).
Proof.
  intros Hc. unfold findRegion.
  pose proof (searchRegion_frame m (start cr)) as (Hregs & _).
  pose proof (searchRegion_bound m (start cr) Hc) as Hlow.
  destruct (searchRegion m (start cr)) as [m0 low].
  simpl in Hregs, Hlow. rewrite <- Hregs in Hlow.
  destruct (candidate_loop _ _ _ _ _ _ _) as [i|[c best]] eqn:Hloop; [eauto|].
  apply candidate_loop_inr in Hloop. rewrite <- Hregs in Hloop.
  destruct (Nat.eqb_spec best (length (regions m0))) as [Heq|Hne]; simpl.
  - pose proof (insert_scan_bound (drop low (regions m0)) cr low) as Hb.
    rewrite length_drop in Hb.
    destruct (Nat.leb_spec (insert_scan (drop low (regions m0)) cr low)
                           (length (regions m0))) as [Hle|Hgt]; [eauto|lia].
  - destruct Hloop as [->|[reg Hreg]]; [done|].
    rewrite Hreg. simpl. eauto.
Qed.

Lemma truncation_le sc basicBlock : truncation sc basicBlock ≤ length basicBlock.
Proof.
  induction basicBlock as [|p rest IH]; simpl; [done|].
  destruct (sc !! _); lia.
Qed.

Section Contract.
Hypothesis Hcontract : write_contract EB.

(** A turn of the write loop on a region with live blocks: every access
    is within bounds, the turn consumes at least one patch, and the
    addresses of the patches it consumes are keys of the instruction
    cache. *)
Lemma write_turn_spec m r basicBlock patchEnd patchIdx t1 t2 :
  alive r m → patchIdx < patchEnd → patchEnd ≤ length basicBlock →
  (Z.of_nat (length basicBlock) < 2 ^ 64)%Z →
  match write_turn m r basicBlock patchEnd patchIdx t1 t2 with
  | Done (m', patchIdx', _, _) =>
      alive r m' ∧ patchIdx < patchIdx' ≤ patchEnd
      ∧ ∃ reg', regions m' !! r = Some reg' ∧ blocks reg' ≠ []
          ∧ ∀ j pj, patchIdx ≤ j < patchIdx' → basicBlock !! j = Some pj →
              is_Some (instCache reg' !! address (metadata pj))
  | Undefined => False
  | Stuck => ¬ fresh_block_accepts EB
  | Thrown => False
  end.
Proof.
  intros (reg & Hreg & Hlive) Hidx Hend Hsize. unfold write_turn.
  rewrite Hreg. simpl.
  set (ps := drop patchIdx (take patchEnd basicBlock)).
  set (t := seq_type _ _ _).
  assert (Hps : length ps = patchEnd - patchIdx).
  { unfold ps. rewrite length_drop, length_take. lia. }
  assert (Hne : ps ≠ []).
  { intros Hnil. rewrite Hnil in Hps. simpl in Hps. lia. }
  pose proof (block_loop_alive m r (blocks reg) 0 ps t reg Hreg Hlive
                (λ _ H, H)) as Hbl.
  destruct (block_loop _ _ _ _ _ _) as [[[[m1 i] p] res]| | |]; simpl;
    [|done| |done].
  2:{ intros Hacc. specialize (Hacc ps t Hne). done. }
  destruct Hbl as ((reg1 & Hreg1 & Hlive1) & Hok & (reg1' & Hreg1' & Hp)
                   & b & b' & Hw & Hb').
  assert (reg1' = reg1) as -> by congruence.
  rewrite Hreg1. simpl.
  destruct (lookup_lt_is_Some_2 basicBlock patchIdx) as [first Hfirst]; [lia|].
  rewrite Hfirst. simpl. rewrite Hb'. simpl.
  pose proof (Hcontract b ps t Hne) as Hc. rewrite Hw in Hc.
  destruct (Hc Hok) as ((Hpw1 & Hpw2) & Hext & Hmax). clear Hc.
  rewrite Hps in Hpw2.
  set (startID := wrap16 (getSeqStart b' (res_seqID res))) in *.
  set (endID := wrap16 (getSeqEnd b' (res_seqID res))) in *.
  unfold inst_cache_loop.
  destruct (inst_loop_covers (Z.to_nat (endID - startID + 1)) basicBlock
              (instCache reg1) i patchIdx startID startID)
    as (ic & Hic & Hcov); [lia|lia|].
  rewrite Hic. simpl.
  destruct (Z.eqb_spec endID 65535) as [?|_]; [lia|]. simpl.
  destruct (Z.ltb_spec (Z.of_nat patchIdx + patchWritten res - 1) 0) as [?|_];
    [lia|].
  destruct (lookup_lt_is_Some_2 basicBlock
              (Z.to_nat (Z.of_nat patchIdx + patchWritten res - 1)))
    as [lastP Hlast]; [lia|].
  rewrite Hlast. simpl.
  assert (Hnext : Z.to_nat (wrap64 (Z.of_nat patchIdx + patchWritten res))
                  = patchIdx + Z.to_nat (patchWritten res)).
  { unfold wrap64, wrap. rewrite Z.mod_small by lia. lia. }
  rewrite Hnext.
  assert (Hlook : ∀ reg2, <[r := reg2]> (regions m1) !! r = Some reg2).
  { intros reg2. apply list_lookup_insert_eq. eauto using lookup_lt_Some. }
  split_and!; [|lia|lia|].
  - eexists. split; [apply Hlook|]. exact Hlive1.
  - eexists. split; [apply Hlook|]. simpl. split.
    + intros Hnil. rewrite Hnil in Hp. by apply elem_of_nil in Hp.
    + intros j pj Hj Hpj. apply (Hcov j); [|done].
      rewrite Z.sub_diag. simpl. lia.
Qed.

Lemma write_loop_spec fuel m r basicBlock patchEnd patchIdx t1 t2 :
  alive r m → patchIdx ≤ patchEnd → patchEnd ≤ length basicBlock →
  (Z.of_nat (length basicBlock) < 2 ^ 64)%Z →
  (∃ reg, regions m !! r = Some reg
     ∧ ∀ j pj, j < patchIdx → basicBlock !! j = Some pj →
         is_Some (instCache reg !! address (metadata pj))) →
  match write_loop fuel m r basicBlock patchEnd patchIdx t1 t2 with
  | Done (m', _, _) =>
      alive r m'
      ∧ ∃ reg', regions m' !! r = Some reg'
          ∧ (patchIdx < patchEnd → blocks reg' ≠ [])
          ∧ ∀ j pj, j < patchEnd → basicBlock !! j = Some pj →
              is_Some (instCache reg' !! address (metadata pj))
  | Undefined => False
  | Stuck => ¬ fresh_block_accepts EB ∨ fuel < patchEnd - patchIdx
  | Thrown => False
  end.
Proof.
  revert m patchIdx t1 t2.
  induction fuel as [|fuel IH]; intros m patchIdx t1 t2 Hlive Hidx Hend Hsize
    (reg & Hreg & Hkeys); cbn [write_loop];
    destruct (Nat.leb_spec patchEnd patchIdx) as [Hge|Hlt].
  - split; [done|]. exists reg. split_and!; [done|lia|].
    intros j pj Hj. apply Hkeys. lia.
  - right. lia.
  - split; [done|]. exists reg. split_and!; [done|lia|].
    intros j pj Hj. apply Hkeys. lia.
  - pose proof (write_turn_spec m r basicBlock patchEnd patchIdx t1 t2
                  Hlive Hlt Hend Hsize) as Hturn.
    destruct (write_turn _ _ _ _ _ _ _) as [[[[m1 idx1] u1] u2]| | |] eqn:Heq;
      simpl; [|done|by left|done].
    destruct Hturn as (Hlive1 & Hidx1 & reg1 & Hreg1 & Hblocks1 & Hkeys1).
    apply write_turn_grows in Heq as (Hg & _).
    assert (Hkeys' : ∀ j pj, j < idx1 → basicBlock !! j = Some pj →
              is_Some (instCache reg1 !! address (metadata pj))).
    { intros j pj Hj Hpj. destruct (decide (j < patchIdx)) as [Hlow|Hhigh].
      - destruct Hg as (_ & _ & _ & _ & reg0 & reg1' & Hr0 & Hr1 & _ & _ & _ & _ & Hinst).
        assert (reg0 = reg) as -> by congruence.
        assert (reg1' = reg1) as -> by congruence.
        eauto.
      - apply (Hkeys1 j); [lia|done]. }
    specialize (IH m1 idx1 u1 u2 Hlive1 ltac:(lia) Hend Hsize
                  (ex_intro _ reg1 (conj Hreg1 Hkeys'))).
    destruct (write_loop fuel m1 r basicBlock patchEnd idx1 u1 u2)
      as [[[m2 v1] v2]| | |] eqn:Hloop; [|done| |done].
    + destruct IH as (Hlive2 & reg2 & Hreg2 & _ & Hkeys2).
      split; [done|]. exists reg2. split_and!; [done| |done].
      intros _ Hnil.
      apply write_loop_grows in Hloop as (Hg2 & _); [|eauto].
      destruct Hg2 as (_ & _ & _ & _ & reg1' & reg2' & Hr1 & Hr2 & _ & _ & Hb & _).
      assert (reg1' = reg1) as -> by congruence.
      assert (reg2' = reg2) as -> by congruence.
      destruct (blocks reg1) as [|p bs] eqn:Hbs; [done|].
      specialize (Hb p (list_elem_of_here _ _)). rewrite Hnil in Hb.
      by apply elem_of_nil in Hb.
    + destruct IH as [?|?]; [by left|right; lia].
Qed.

(** What [writeBasicBlock] does on a non-empty block, in a state whose
    slot is in range and whose blocks are live. *)
Lemma writeBasicBlock_outcome fuel m basicBlock firstPatch lastPatch :
  cache_in_range m → blocks_alive m →
  head basicBlock = Some firstPatch → last basicBlock = Some lastPatch →
  (Z.of_nat (length basicBlock) < 2 ^ 64)%Z →
  ∃ m0 r reg0,
    findRegion m (code_range firstPatch lastPatch) = Done (m0, r)
    ∧ regions m0 !! r = Some reg0
    ∧ match writeBasicBlock fuel m basicBlock with
      | Done m' =>
          ∃ reg', regions m' !! r = Some reg'
            ∧ is_Some (sequenceCache reg' !! address (metadata firstPatch))
            ∧ ∀ j pj, j < truncation (sequenceCache reg0) basicBlock →
                basicBlock !! j = Some pj →
                is_Some (instCache reg' !! address (metadata pj))
      | Undefined => False
      | Stuck => ¬ fresh_block_accepts EB ∨ fuel < length basicBlock
      | Thrown => False
      end.
Proof.
  intros Hc Hlive Hhead Hlast Hsize.
  destruct (findRegion_done m (code_range firstPatch lastPatch) Hc Hlive)
    as (m0 & r & Hfind & reg0 & Hreg0 & Hlive0).
  exists m0, r, reg0. split_and!; [done..|].
  unfold writeBasicBlock. rewrite Hhead, Hlast. simpl.
  rewrite Hfind. simpl. rewrite Hreg0. simpl.
  pose proof (truncation_le (sequenceCache reg0) basicBlock) as Hle.
  destruct (Nat.eqb_spec (truncation (sequenceCache reg0) basicBlock) 0)
    as [Hzero|Hpos].
  { exists reg0. split_and!; [done|by eapply truncation_zero|]. intros j pj Hj. lia. }
  set (reg3 := set_bbRegistry reg0 _).
  assert (Hreg3 : regions (put_region m0 r reg3) !! r = Some reg3).
  { simpl. apply list_lookup_insert_eq. eauto using lookup_lt_Some. }
  assert (Hlive3 : alive r (put_region m0 r reg3)).
  { exists reg3. split; [done|]. exact Hlive0. }
  pose proof (write_loop_spec fuel (put_region m0 r reg3) r basicBlock
                (truncation (sequenceCache reg0) basicBlock) 0 0 0
                Hlive3 ltac:(lia) Hle Hsize) as Hloop.
  destruct (write_loop _ _ _ _ _ _ _ _) as [[[m4 t1] t2]| | |] eqn:Heq; simpl.
  - destruct Hloop as ((reg4 & Hreg4 & Hlive4) & reg4' & Hreg4' & Hblocks & Hkeys).
    { exists reg3. split; [done|]. intros j pj Hj. lia. }
    assert (reg4' = reg4) as -> by congruence.
    apply write_loop_grows in Heq as (_ & Hkey); [|eauto].
    destruct Hkey as (first & reg4' & Hfirst & Hreg4'' & Hkey); [lia|].
    assert (reg4' = reg4) as -> by congruence.
    assert (first = firstPatch) as ->.
    { destruct basicBlock; simpl in *; congruence. }
    unfold updateRegionStat. simpl. rewrite Hreg4. simpl.
    destruct (blocks reg4) as [|p bs] eqn:Hbs; [by destruct Hblocks; [lia|]|].
    simpl. destruct (Hlive4 p) as [b Hb]; [left|]. rewrite Hb. simpl.
    eexists. split; [|split].
    + apply list_lookup_insert_eq. eauto using lookup_lt_Some.
    + done.
    + done.
  - apply Hloop. exists reg3. split; [done|]. intros j pj Hj. lia.
  - destruct Hloop as [?|?]; [|by left|right; lia].
    exists reg3. split; [done|]. intros j pj Hj. lia.
  - apply Hloop. exists reg3. split; [done|]. intros j pj Hj. lia.
Qed.

End Contract.

End Writer.

(** C4: a second [writeBasicBlock] of the same block changes nothing. When
    the first call returns, the second one returns the very same state: it
    finds the first patch in the sequence cache of the region that the slot
    points at, and stops there. *)
Theorem writeBasicBlock_idempotent {EB} `{!ExecBlockOps EB}
    (fuel fuel' : nat) (m m1 : Manager EB) (basicBlock : list Patch) :
  writeBasicBlock fuel m basicBlock = Done m1 →
  writeBasicBlock fuel' m1 basicBlock = Done m1.
Proof.
  unfold writeBasicBlock at 1.
  destruct (head basicBlock) as [firstPatch|] eqn:Hhead; simpl; [|done].
  destruct (last basicBlock) as [lastPatch|] eqn:Hlast; simpl; [|done].
  set (cr := code_range _ _).
  destruct (findRegion m cr) as [[m2 r]| | |] eqn:Hfind; simpl; [|done..].
  apply findRegion_post in Hfind as (Hcache & _ & reg & Hreg & Hin).
  rewrite Hreg. simpl.
  assert (Hgoal : ∀ m', searchCache m' = mkSearchCache (start cr) r →
            (∃ reg', regions m' !! r = Some reg'
               ∧ covered reg' = covered reg
               ∧ is_Some (sequenceCache reg' !! address (metadata firstPatch))) →
            writeBasicBlock fuel' m' basicBlock = Done m').
  { intros m' Hc' (reg' & Hreg' & Hcov & Hkey).
    unfold writeBasicBlock. rewrite Hhead, Hlast. simpl. fold cr.
    rewrite (findRegion_hit m' cr r reg') by (done || by rewrite Hcov).
    simpl. rewrite Hreg'. simpl.
    destruct basicBlock as [|p rest]; [done|]. injection Hhead as ->.
    by rewrite truncation_head. }
  destruct (Nat.eqb_spec (truncation (sequenceCache reg) basicBlock) 0)
    as [Hzero|Hpos].
  { intros [= <-]. apply Hgoal; [done|]. exists reg. split_and!; [done..|].
    by eapply truncation_zero. }
  set (m3 := put_region m2 r _).
  destruct (write_loop _ _ _ _ _ _ _ _) as [[[m4 t1] t2]| | |] eqn:Hloop;
    simpl; [|done..].
  assert (Hreg3 : regions m3 !! r
                  = Some (set_bbRegistry reg
                      (bbRegistry reg
                       ++ [mkBBInfo (address (metadata firstPatch))
                             (wrap64 (address (metadata lastPatch)
                                      + instSize (metadata lastPatch)))]))).
  { unfold m3. simpl. apply list_lookup_insert_eq. eauto using lookup_lt_Some. }
  apply write_loop_grows in Hloop as (Hg & Hkey); [|eauto].
  destruct Hkey as (first & reg4 & Hfirst & Hreg4 & Hkey); [lia|].
  assert (first = firstPatch) as ->.
  { destruct basicBlock; simpl in *; congruence. }
  destruct Hg as (Hc4 & _ & _ & _ & reg3 & reg4' & Hr3 & Hr4 & Hcov4 & _).
  assert (reg4' = reg4) as -> by congruence.
  rewrite Hreg3 in Hr3. injection Hr3 as <-.
  intros (reg5 & tr & av & Hreg5 & ->)%updateRegionStat_inv.
  simpl in Hreg5. rewrite Hreg4 in Hreg5. injection Hreg5 as <-.
  apply Hgoal.
  - simpl. by rewrite Hc4.
  - eexists. split; [|split].
    + simpl. apply list_lookup_insert_eq. eauto using lookup_lt_Some.
    + simpl. by rewrite Hcov4.
    + done.
Qed.

(** ** SequenceLookup *)

Lemma containing_region_unique rs addr i j ri rj :
  regions_disjoint rs →
  rs !! i = Some ri → rs !! j = Some rj →
  contains_addr (covered ri) addr = true →
  contains_addr (covered rj) addr = true →
  i = j.
Proof.
  intros Hd Hi Hj Hci%contains_addr_true Hcj%contains_addr_true.
  destruct (Nat.lt_total i j) as [Hlt|[?|Hlt]]; [|done|].
  - pose proof (Hd i j ri rj Hlt Hi Hj). lia.
  - pose proof (Hd j i rj ri Hlt Hj Hi). lia.
Qed.

Lemma searchRegion_finds {EB} (m : Manager EB) addr r reg :
  regions_sorted (regions m) →
  regions_disjoint (regions m) → cache_ok m →
  regions m !! r = Some reg → contains_addr (covered reg) addr = true →
  (searchRegion m addr).2 = r.
Proof.
  intros Hs Hd Hc Hreg Hin.
  destruct (searchRegion_correct m addr Hs Hd Hc) as (Hspec & _).
  destruct Hspec as [(reg' & Hreg' & Hin')|[Hnone _]].
  - by eapply containing_region_unique.
  - rewrite Hnone in Hin; [done|]. by eapply list_elem_of_lookup_2.
Qed.

(** C3, on a manager whose regions are sorted and disjoint: for an address
    that is a key of the instruction cache of a region but not of its
    sequence cache, [getSeqLoc] splits. It returns a location in the block
    that the instruction cache points into, stores it in the sequence
    cache under the address, and appends to the registry a basic block
    that starts at the address and ends where the enclosing basic block
    ends. *)
Theorem getSeqLoc_splits {EB} `{!ExecBlockOps EB} (m : Manager EB)
    (addr : Z) (r : nat) (reg : ExecRegion) (instLoc : InstLoc) (p : nat)
    (block : EB) (existing : SeqLoc) (bb : BBInfo) :
  regions_sorted (regions m) →
  regions_disjoint (regions m) → cache_ok m →
  regions m !! r = Some reg →
  contains_addr (covered reg) addr = true →
  instCache reg !! addr = Some instLoc →
  sequenceCache reg !! addr = None →
  blocks reg !! Z.to_nat (blockIdx instLoc) = Some p →
  heap m !! p = Some block →
  sequenceCache reg
    !! getInstAddress block
         (getSeqStart block (wrap16 (getSeqID block (instID instLoc))))
    = Some existing →
  bbRegistry reg !! Z.to_nat (bbIdx existing) = Some bb →
  ∃ m' seqLoc reg',
    getSeqLoc m addr = Done (m', seqLoc)
    ∧ execBlock seqLoc = Some p
    ∧ seqID seqLoc = wrap16 (splitSequence block (instID instLoc)).2
    ∧ bbIdx seqLoc = wrap16 (Z.of_nat (length (bbRegistry reg)))
    ∧ regions m' !! r = Some reg'
    ∧ sequenceCache reg' = <[addr := seqLoc]> (sequenceCache reg)
    ∧ bbRegistry reg' = bbRegistry reg ++ [mkBBInfo addr (bb_end bb)]
    ∧ blocks reg' = blocks reg
    ∧ heap m' = <[p := (splitSequence block (instID instLoc)).1]> (heap m).
Proof.
  intros Hs Hd Hc Hreg Hin Hinst Hseq Hblock Hheap Hexisting Hbb.
  unfold getSeqLoc.
  pose proof (searchRegion_finds m addr r reg Hs Hd Hc Hreg Hin) as Hr.
  pose proof (searchRegion_frame m addr) as (Hregs & Hh & _).
  destruct (searchRegion m addr) as [m0 r0]. simpl in Hr, Hregs, Hh. subst r0.
  rewrite Hregs, Hreg, Hin, Hseq, Hinst. simpl.
  rewrite Hblock. simpl. rewrite Hh, Hheap. simpl.
  rewrite Hexisting, Hbb. simpl.
  destruct (splitSequence block (instID instLoc)) as [block' newSeqID] eqn:Hsplit.
  set (seqLoc := mkSeqLoc (Some p) (wrap16 newSeqID) _).
  set (reg' := set_sequenceCache _ _).
  exists (set_heap (put_region m0 r reg') (<[p := block']> (heap m))), seqLoc, reg'.
  split_and!; try done.
  - unfold seqLoc. simpl. rewrite length_app. simpl. f_equal. lia.
  - simpl. rewrite Hregs. apply list_lookup_insert_eq. eauto using lookup_lt_Some.
Qed.

(** ** RegionAllocator *)

Lemma pairwise_StronglySorted {A} (R : relation A) (l : list A) :
  (∀ i j x y, i < j → l !! i = Some x → l !! j = Some y → R x y)
  ↔ StronglySorted R l.
Proof.
  split.
  - induction l as [|a l IH]; intros H; constructor.
    + apply IH. intros i j x y Hij Hi Hj. apply (H (S i) (S j)); [lia|done..].
    + apply Forall_forall. intros y [j Hj]%list_elem_of_lookup.
      apply (H 0 (S j)); [lia|done..].
  - induction 1 as [|a l Hs IH Ha]; intros i j x y Hij Hi Hj.
    { by rewrite lookup_nil in Hi. }
    destruct j as [|j]; [lia|]. simpl in Hj.
    destruct i as [|i]; simpl in Hi.
    + injection Hi as <-. rewrite Forall_forall in Ha.
      apply Ha. by eapply list_elem_of_lookup_2.
    + apply (IH i j); [lia|done..].
Qed.

Lemma StronglySorted_place {A} (R : relation A) l1 x l2 :
  StronglySorted R (l1 ++ l2) →
  (∀ a, a ∈ l1 → R a x) → (∀ b, b ∈ l2 → R x b) →
  StronglySorted R (l1 ++ x :: l2).
Proof.
  rewrite !StronglySorted_app, StronglySorted_cons, Forall_forall.
  intros (H12 & H1 & H2) Ha Hb. split_and!; [|done..].
  intros a b Ha' [->|Hb']%elem_of_cons; auto.
Qed.

Lemma StronglySorted_unplace {A} (R : relation A) l1 x l2 :
  StronglySorted R (l1 ++ x :: l2) → StronglySorted R (l1 ++ l2).
Proof.
  rewrite !StronglySorted_app, StronglySorted_cons.
  intros (H12 & H1 & _ & H2). split_and!; [|done..].
  intros a b Ha Hb. apply H12; [done|]. by right.
Qed.

Lemma insert_scan_spec l cr i :
  i ≤ insert_scan l cr i ≤ i + length l
  ∧ (∀ j reg, j < insert_scan l cr i - i → l !! j = Some reg →
       (start (covered reg) <= start cr)%Z)
  ∧ (∀ reg, l !! (insert_scan l cr i - i) = Some reg →
       (start cr < start (covered reg))%Z).
Proof.
  revert i. induction l as [|a l IH]; intros i; simpl.
  { split_and!; [lia..| |]; intros; by rewrite ?lookup_nil in *. }
  destruct (Z.ltb_spec (start cr) (start (covered a))) as [Hlt|Hge].
  - rewrite Nat.sub_diag. split_and!; [lia..| |].
    + intros j reg Hj. lia.
    + simpl. by intros reg [= <-].
  - destruct (IH (S i)) as ((Hlo & Hhi) & Hbefore & Hat).
    replace (insert_scan l cr (S i) - i) with (S (insert_scan l cr (S i) - S i))
      by lia.
    split_and!; [lia..| |].
    + intros [|j] reg Hj; simpl.
      * by intros [= <-].
      * apply Hbefore. lia.
    + simpl. exact Hat.
Qed.

Lemma elem_of_take_lookup {A} (l : list A) k a :
  a ∈ take k l → ∃ i, i < k ∧ l !! i = Some a.
Proof. intros (i & Hi & Hlt)%elem_of_take. eauto. Qed.

Lemma elem_of_drop_lookup {A} (l : list A) k b :
  b ∈ drop k l → ∃ i, k ≤ i ∧ l !! i = Some b.
Proof.
  intros [j Hj]%list_elem_of_lookup. rewrite lookup_drop in Hj.
  exists (k + j). split; [lia|done].
Qed.

(** The place found by the scan keeps the array sorted by start. *)
Lemma insert_place_sorted rs cr low :
  regions_sorted rs →
  (low = 0 ∨ ∃ reg, rs !! low = Some reg ∧ (start (covered reg) <= start cr)%Z) →
  let k := insert_scan (drop low rs) cr low in
  (∀ a, a ∈ take k rs → (start (covered a) <= start cr)%Z)
  ∧ (∀ b, b ∈ drop k rs → (start cr < start (covered b))%Z).
Proof.
  intros Hs Hlow k.
  destruct (insert_scan_spec (drop low rs) cr low)
    as ((Hlo & Hhi) & Hbefore & Hat). fold k in Hlo, Hhi, Hbefore, Hat.
  split.
  - intros a (i & Hi & Ha)%elem_of_take_lookup.
    destruct (decide (i < low)) as [Hil|Hil].
    + destruct Hlow as [->|(reg & Hreg & Hle)]; [lia|].
      pose proof (Hs i low a reg Hil Ha Hreg). lia.
    + apply (Hbefore (i - low)); [lia|]. rewrite lookup_drop.
      by replace (low + (i - low)) with i by lia.
  - intros b (j & Hj & Hb)%elem_of_drop_lookup.
    destruct (lookup_lt_is_Some_2 rs k) as [rk Hrk].
    { apply lookup_lt_Some in Hb. lia. }
    assert (start cr < start (covered rk))%Z as Hk.
    { apply Hat. rewrite lookup_drop. by replace (low + (k - low)) with k by lia. }
    destruct (decide (j = k)) as [->|Hne].
    + by assert (b = rk) as -> by congruence.
    + pose proof (Hs k j rk b ltac:(lia) Hrk Hb). lia.
Qed.

Lemma regions_sorted_iff rs : regions_sorted rs ↔ StronglySorted starts_le rs.
Proof. apply (pairwise_StronglySorted starts_le). Qed.

Lemma regions_disjoint_iff rs :
  regions_disjoint rs ↔ StronglySorted ends_le_start rs.
Proof. apply (pairwise_StronglySorted ends_le_start). Qed.

(** A region put between [l1] and [l2] that overlaps none of them keeps
    the array sorted and disjoint. *)
Lemma place_keeps_order l1 x l2 :
  regions_sorted (l1 ++ l2) → regions_disjoint (l1 ++ l2) →
  ranges_nonempty (l1 ++ l2) →
  (start (covered x) < end_ (covered x))%Z →
  (∀ a, a ∈ l1 → (start (covered a) < end_ (covered x))%Z) →
  (∀ b, b ∈ l2 → (start (covered x) < end_ (covered b))%Z) →
  (∀ a, a ∈ l1 ++ l2 → overlaps (covered a) (covered x) = false) →
  ranges_nonempty (l1 ++ x :: l2)
  ∧ regions_sorted (l1 ++ x :: l2)
  ∧ regions_disjoint (l1 ++ x :: l2).
Proof.
  rewrite !regions_sorted_iff, !regions_disjoint_iff.
  intros Hs Hd Hne Hx Ha Hb Hno.
  assert (Hleft : ∀ a, a ∈ l1 →
            (start (covered a) < end_ (covered a) <= start (covered x))%Z).
  { intros a Hin. specialize (Ha a Hin).
    specialize (Hne a ltac:(rewrite elem_of_app; auto)).
    specialize (Hno a ltac:(rewrite elem_of_app; auto)).
    unfold overlaps in Hno. apply andb_false_iff in Hno.
    rewrite !Z.ltb_ge in Hno. lia. }
  assert (Hright : ∀ b, b ∈ l2 →
            (end_ (covered x) <= start (covered b) < end_ (covered b))%Z).
  { intros b Hin. specialize (Hb b Hin).
    specialize (Hne b ltac:(rewrite elem_of_app; auto)).
    specialize (Hno b ltac:(rewrite elem_of_app; auto)).
    unfold overlaps in Hno. apply andb_false_iff in Hno.
    rewrite !Z.ltb_ge in Hno. lia. }
  split_and!.
  - intros reg [Hin|[->|Hin]%elem_of_cons]%elem_of_app; [|done|];
      apply Hne; rewrite elem_of_app; auto.
  - apply StronglySorted_place; [done|..]; unfold starts_le.
    + intros a Hin%Hleft. lia.
    + intros b Hin%Hright. lia.
  - apply StronglySorted_place; [done|..]; unfold ends_le_start.
    + intros a Hin%Hleft. lia.
    + intros b Hin%Hright. lia.
Qed.

Lemma place_lookup {A} (l1 : list A) x l2 :
  (l1 ++ x :: l2) !! length l1 = Some x
  ∧ ∀ a, a ∈ l1 ++ l2 → ∃ i, i ≠ length l1 ∧ (l1 ++ x :: l2) !! i = Some a.
Proof.
  split.
  { rewrite lookup_app_r by lia. by rewrite Nat.sub_diag. }
  intros a [[i Hi]%list_elem_of_lookup|[i Hi]%list_elem_of_lookup]%elem_of_app.
  - exists i. pose proof (lookup_lt_Some _ _ _ Hi).
    split; [lia|]. by rewrite lookup_app_l.
  - exists (length l1 + S i). split; [lia|].
    rewrite lookup_app_r by lia.
    by replace (length l1 + S i - length l1) with (S i) by lia.
Qed.

Lemma contains_start c cr :
  contains c cr = true → (start cr < end_ cr)%Z →
  contains_addr c (start cr) = true.
Proof.
  unfold contains. intros [H1 H2]%andb_true_iff Hcr.
  apply contains_addr_true. apply Z.leb_le in H1, H2. lia.
Qed.

Lemma search_spec_low rs addr low :
  search_spec rs addr low →
  low = 0 ∨ ∃ reg, rs !! low = Some reg ∧ (start (covered reg) <= addr)%Z.
Proof.
  intros [(reg & Hreg & Hin%contains_addr_true)
         |[_ [(reg & Hreg & Hle & _)|[-> _]]]]; [right|right|by left].
  - exists reg. split; [done|lia].
  - by exists reg.
Qed.

Lemma extend_bounds c cr :
  (start (extend c cr) <= start c)%Z ∧ (end_ c <= end_ (extend c cr))%Z.
Proof.
  unfold extend.
  destruct (Z.ltb_spec (end_ c) (end_ cr)); simpl;
    destruct (Z.ltb_spec (start cr) (start c)); simpl; lia.
Qed.

Lemma findRegion_order {EB} `{!ExecBlockOps EB} (m m' : Manager EB)
    (cr : Range) (r : nat) :
  ranges_nonempty (regions m) → regions_sorted (regions m) →
  regions_disjoint (regions m) → cache_ok m →
  (start cr < end_ cr)%Z →
  findRegion m cr = Done (m', r) →
  (regions m' = regions m
   ∨ (∃ reg, regions m !! r = Some reg
        ∧ regions m'
          = <[r := set_covered reg (extend (covered reg) cr)]> (regions m))
   ∨ (regions m' = take r (regions m) ++ new_region cr :: drop r (regions m)
      ∧ regions_sorted (regions m')))
  ∧ cache_ok m'
  ∧ ((∀ j regj reg', j ≠ r → regions m' !! j = Some regj →
        regions m' !! r = Some reg' →
        overlaps (covered regj) (covered reg') = false) →
     ranges_nonempty (regions m') ∧ regions_sorted (regions m')
     ∧ regions_disjoint (regions m')).
Proof.
  intros Hne Hs Hd Hc Hcr Hfind.
  pose proof (findRegion_post m cr m' r Hfind) as (Hcache' & _ & reg' & Hreg' & Hin').
  assert (Hcache_ok : cache_ok m').
  { right. left. exists reg'. rewrite Hcache'. simpl. split; [done|].
    by apply contains_start. }
  destruct (searchRegion_correct m (start cr) Hs Hd Hc)
    as (Hspec%search_spec_low & _ & Hregs & _).
  revert Hfind. unfold findRegion.
  destruct (searchRegion m (start cr)) as [m0 low]. simpl in Hspec, Hregs.
  destruct (candidate_loop _ _ _ _ _ _ _) as [i|[c best]].
  { intros [= <- <-]. simpl. rewrite Hregs.
    split_and!; [by left|done|]. intros _. done. }
  destruct (negb _).
  - destruct (regions m0 !! best) as [reg|] eqn:Hbest; simpl; [|done].
    intros [= <- <-]. simpl in *. rewrite Hregs in *.
    split_and!; [right; left; eauto|done|].
    intros Hno.
    pose proof (lookup_lt_Some _ _ _ Hbest) as Hlt.
    rewrite insert_take_drop in * by done.
    set (l1 := take best (regions m)) in *.
    set (l2 := drop (S best) (regions m)) in *.
    assert (Hlen : length l1 = best) by (unfold l1; rewrite length_take; lia).
    assert (Hold : regions m = l1 ++ reg :: l2).
    { unfold l1, l2. by rewrite take_drop_middle. }
    set (x := set_covered reg (extend (covered reg) cr)) in *.
    destruct (place_lookup l1 x l2) as (Hx & Hothers).
    rewrite Hlen in Hx, Hothers.
    pose proof (extend_bounds (covered reg) cr) as (Hlo & Hhi).
    assert (Hreg_ne : (start (covered reg) < end_ (covered reg))%Z).
    { apply Hne. by eapply list_elem_of_lookup_2. }
    rewrite Hold in Hs, Hd, Hne.
    apply place_keeps_order.
    + apply regions_sorted_iff. eapply StronglySorted_unplace.
      by apply regions_sorted_iff.
    + apply regions_disjoint_iff. eapply StronglySorted_unplace.
      by apply regions_disjoint_iff.
    + intros a Ha. apply Hne. rewrite elem_of_app, elem_of_cons.
      apply elem_of_app in Ha. tauto.
    + simpl. lia.
    + intros a Ha. simpl.
      apply regions_sorted_iff, StronglySorted_app in Hs as (Hs & _).
      specialize (Hs a reg Ha (list_elem_of_here _ _)). unfold starts_le in Hs. lia.
    + intros b Hb. simpl.
      apply regions_sorted_iff, StronglySorted_app_1_r,
        StronglySorted_cons in Hs as (Hs & _).
      rewrite Forall_forall in Hs. specialize (Hs b Hb). unfold starts_le in Hs.
      specialize (Hne b ltac:(rewrite elem_of_app, elem_of_cons; auto)). lia.
    + intros a (j & Hj & Ha)%Hothers. exact (Hno j a x Hj Ha Hx).
  - destruct (Nat.leb_spec (insert_scan (drop low (regions m0)) cr low)
                           (length (regions m0))) as [Hle|]; [|done].
    intros [= <- <-]. simpl in *. rewrite Hregs in *.
    set (k := insert_scan (drop low (regions m)) cr low) in *.
    destruct (insert_place_sorted (regions m) cr low Hs Hspec) as (Hbefore & Hafter).
    fold k in Hbefore, Hafter.
    set (l1 := take k (regions m)) in *.
    set (l2 := drop k (regions m)) in *.
    assert (Hlen : length l1 = k) by (unfold l1; rewrite length_take; lia).
    assert (Hold : regions m = l1 ++ l2) by (unfold l1, l2; by rewrite take_drop).
    destruct (place_lookup l1 (new_region cr) l2) as (Hx & Hothers).
    rewrite Hlen in Hx, Hothers.
    rewrite Hold in Hs, Hd, Hne.
    split_and!; [right; right; split; [done|]|done|].
    + apply regions_sorted_iff, StronglySorted_place;
        [by apply regions_sorted_iff|..]; unfold starts_le; simpl.
      * exact Hbefore.
      * intros b Hb%Hafter. lia.
    + intros Hno. apply place_keeps_order; try done; simpl.
      * intros a Ha%Hbefore. lia.
      * intros b Hb. specialize (Hafter b Hb).
        specialize (Hne b ltac:(rewrite elem_of_app; auto)). lia.
      * intros a (j & Hj & Ha)%Hothers.
        exact (Hno j a (new_region cr) Hj Ha Hx).
Qed.

(** *** The policy *)

Lemma candidates_past_end gate cost rs cr i n :
  rs !! i = None →
  List.find (containing rs cr) (seq i n) = None
  ∧ cheapest gate cost rs cr (seq i n) = None.
Proof.
  revert i. induction n as [|n IH]; intros i Hi; [done|].
  assert (rs !! S i = None) as HS.
  { apply lookup_ge_None in Hi. apply lookup_ge_None. lia. }
  destruct (IH (S i) HS) as [Hf Hc].
  simpl. unfold containing at 1. by rewrite Hi, Hf, Hc.
Qed.

(** The candidate loop returns the first candidate that contains the code
    range; failing that, it ends with the cheapest candidate that passes
    the gate and is cheaper than [best_cost], the first one among equals. *)
Lemma candidate_loop_policy rs ratio cr n i best_cost best_region :
  candidate_loop n rs ratio cr i best_cost best_region
  = match List.find (containing rs cr) (seq i n) with
    | Some k => inl k
    | None =>
        inr (match
               cheapest (λ c reg, (unsigned_of_float (fmul (float_of_Z c) ratio)
                                     <? available reg)%Z)
                        extension_cost rs cr (seq i n)
             with
             | Some (j, c) => if (c <? best_cost)%Z then (c, j)
                              else (best_cost, best_region)
             | None => (best_cost, best_region)
             end)
    end.
Proof.
  revert i best_cost best_region.
  induction n as [|n IH]; intros i bc br; [done|].
  cbn [candidate_loop].
  destruct (rs !! i) as [reg|] eqn:Hreg.
  2:{ by destruct (candidates_past_end
           (λ c reg, (unsigned_of_float (fmul (float_of_Z c) ratio)
                        <? available reg)%Z)
           extension_cost rs cr i (S n) Hreg) as [-> ->]. }
  cbn [seq List.find cheapest]. unfold containing at 1. rewrite Hreg.
  destruct (contains (covered reg) cr); [done|].
  set (c := extension_cost (covered reg) cr).
  destruct (unsigned_of_float _ <? available reg)%Z; simpl.
  - destruct (Z.ltb_spec c bc) as [Hlt|Hge]; rewrite IH;
      destruct (List.find _ _); try done;
      destruct (cheapest _ _ _ _ _) as [[j c']|]; f_equal.
    + destruct (Z.ltb_spec c' c); [|by rewrite (proj2 (Z.ltb_lt c bc))].
      by rewrite (proj2 (Z.ltb_lt c' bc)) by lia.
    + by rewrite (proj2 (Z.ltb_lt c bc)).
    + destruct (Z.ltb_spec c' c); [done|].
      rewrite (proj2 (Z.ltb_ge c bc)) by done.
      by rewrite (proj2 (Z.ltb_ge c' bc)) by lia.
    + by rewrite (proj2 (Z.ltb_ge c bc)).
  - by rewrite IH.
Qed.

Lemma cheapest_index gate cost rs cr cands j c :
  cheapest gate cost rs cr cands = Some (j, c) →
  j ∈ cands ∧ ∃ reg, rs !! j = Some reg ∧ c = cost (covered reg) cr.
Proof.
  induction cands as [|i cands IH]; [done|]. cbn [cheapest].
  assert (Hrest : cheapest gate cost rs cr cands = Some (j, c) →
            j ∈ i :: cands ∧ ∃ reg, rs !! j = Some reg ∧ c = cost (covered reg) cr).
  { intros [Hin Hreg]%IH. split; [by right|done]. }
  destruct (rs !! i) as [reg|] eqn:Hreg; [|done].
  destruct (gate _ reg); [|done].
  destruct (cheapest gate cost rs cr cands) as [[j' c']|].
  - destruct (_ <? _)%Z; [done|]. intros [= <- <-]. split; [left|eauto].
  - intros [= <- <-]. split; [left|eauto].
Qed.

Lemma cheapest_ext gate cost cost' rs cr cands :
  (∀ i reg, i ∈ cands → rs !! i = Some reg →
            cost (covered reg) cr = cost' (covered reg) cr) →
  cheapest gate cost rs cr cands = cheapest gate cost' rs cr cands.
Proof.
  induction cands as [|i cands IH]; intros Heq; [done|]. cbn [cheapest].
  rewrite IH by (intros j reg Hj; apply Heq; by right).
  destruct (rs !! i) as [reg|] eqn:Hreg; [|done].
  by rewrite (Heq i reg (list_elem_of_here _ _) Hreg).
Qed.

Lemma extension_cost_exact c cr :
  (spec_cost c cr < 2 ^ 32)%Z → extension_cost c cr = spec_cost c cr.
Proof.
  unfold extension_cost, spec_cost. intros Hlt. cbv zeta.
  assert (Hsmall : ∀ x, (0 <= x < 2 ^ 32)%Z → wrap32 (wrap64 x) = x ∧ wrap64 x = x).
  { intros x Hx.
    assert (wrap64 x = x) as Hw by (apply Z.mod_small; lia).
    rewrite Hw. split; [apply Z.mod_small; lia|done]. }
  destruct (Z.ltb_spec (end_ c) (end_ cr)) as [He|He];
    destruct (Z.ltb_spec (start cr) (start c)) as [Hs|Hs].
  - rewrite Z.add_0_l.
    destruct (Hsmall (end_ cr - end_ c)%Z) as [-> _]; [lia|].
    destruct (Hsmall (start c - start cr)%Z) as [_ ->]; [lia|].
    unfold wrap32, wrap. rewrite Z.mod_small; lia.
  - rewrite Z.add_0_l.
    destruct (Hsmall (end_ cr - end_ c)%Z) as [-> _]; lia.
  - rewrite Z.add_0_l.
    destruct (Hsmall (start c - start cr)%Z) as [-> _]; lia.
  - lia.
Qed.

(** Short of the 32-bit cost, [findRegion] decides as the stated policy
    does, with the gate computed in single precision: the decisions agree
    whenever the stated cost of every candidate is below 0xFFFFFFFF. *)
Lemma findRegion_follows_policy {EB} `{!ExecBlockOps EB} (m : Manager EB)
    (cr : Range) :
  (∀ i reg, i ∈ seq (searchRegion m (start cr)).2 3 →
            regions m !! i = Some reg →
            (spec_cost (covered reg) cr < 0xFFFFFFFF)%Z) →
  findRegion_decision m cr
  = policy (code_gate m) spec_cost (regions m)
           (searchRegion m (start cr)).2 cr.
Proof.
  intros Hcost. unfold findRegion_decision, policy.
  rewrite candidate_loop_policy.
  destruct (List.find _ _); [done|].
  rewrite (cheapest_ext _ extension_cost spec_cost).
  2:{ intros i reg Hi Hreg. apply extension_cost_exact.
      specialize (Hcost i reg Hi Hreg). lia. }
  unfold code_gate.
  destruct (cheapest _ spec_cost _ _ _) as [[j c]|] eqn:Hc.
  - apply cheapest_index in Hc as (Hj & reg & Hreg & ->).
    rewrite (proj2 (Z.ltb_lt _ _)) by eauto.
    destruct (Nat.eqb_spec j (length (regions m))) as [->|]; [|done].
    apply lookup_lt_Some in Hreg. lia.
  - by rewrite Nat.eqb_refl.
Qed.

(** What [findRegion] does of its decision. *)
Lemma findRegion_decides {EB} `{!ExecBlockOps EB} (m m' : Manager EB)
    (cr : Range) (r : nat) :
  findRegion m cr = Done (m', r) →
  match findRegion_decision m cr with
  | Use i => r = i ∧ regions m' = regions m
  | Extend i =>
      r = i ∧ ∃ reg, regions m !! i = Some reg
                ∧ regions m'
                  = <[i := set_covered reg (extend (covered reg) cr)]> (regions m)
  | Create =>
      regions m' = take r (regions m) ++ new_region cr :: drop r (regions m)
  end.
Proof.
  unfold findRegion, findRegion_decision.
  pose proof (searchRegion_frame m (start cr)) as (Hregs & _ & _ & Ht1 & Ht2).
  assert (Hratio : getExpansionRatio (searchRegion m (start cr)).1
                   = getExpansionRatio m).
  { unfold getExpansionRatio. by rewrite Ht1, Ht2. }
  destruct (searchRegion m (start cr)) as [m0 low].
  cbn [fst snd] in *. rewrite Hregs, Hratio.
  destruct (candidate_loop _ _ _ _ _ _ _) as [i|[c best]].
  { intros [= <- <-]. simpl. by rewrite Hregs. }
  destruct (best =? length (regions m)); simpl.
  - destruct (_ <=? _); [|done]. by intros [= <- <-].
  - destruct (regions m !! best) as [reg|] eqn:Hbest; simpl; [|done].
    intros [= <- <-]. simpl. rewrite Hregs. split; [done|]. eauto.
Qed.

(** ** The small block keeps to the contract *)

Lemma wrap16_small x : (0 <= x < 65536)%Z → wrap16 x = x.
Proof. intros H. unfold wrap16, wrap. by apply Z.mod_small. Qed.

Lemma simple_contract : write_contract SimpleBlock.
Proof.
  intros b ps t Hne. cbn [writeSequence getSeqEnd getSeqStart simple_ops].
  unfold simple_write.
  set (n := Z.min _ _).
  destruct (Z.leb_spec n 0) as [Hz|Hpos]; [done|]. cbn [res_seqID patchWritten sb_seqs].
  intros _. rewrite Nat2Z.id, nth_middle. cbn [fst snd].
  rewrite !wrap16_small by lia. lia.
Qed.

Lemma simple_accepts : fresh_block_accepts SimpleBlock.
Proof.
  intros ps t Hne. cbn [writeSequence newExecBlock simple_ops].
  unfold simple_write. cbn [sb_free sb_insts sb_seqs length].
  destruct ps as [|p ps]; [done|].
  set (n := Z.min _ _).
  assert (1 <= n)%Z.
  { unfold n. rewrite length_cons. change (64 / 16)%Z with 4%Z. lia. }
  destruct (Z.leb_spec n 0) as [Hz|Hpos]; [lia|]. done.
Qed.

Lemma run_all_reachable {EB} `{!ExecBlockOps EB} {target : Target}
    (m m' : Manager EB) os :
  reachable m → run_all m os = Done m' → reachable m'.
Proof.
  revert m. induction os as [|o os IH]; intros m Hm; cbn [run_all].
  { by intros [= <-]. }
  destruct (run m o) as [m1| | |] eqn:Hrun; simpl; [|done..].
  apply IH. by eapply reachable_run.
Qed.

(** ** What every reachable state satisfies *)

Section Ownership.
Context {EB : Type}.
Implicit Types (bl : list (list nat)) (h : gmap nat EB).

Lemma owned_blocks_heap bl h n p b :
  owned_blocks bl h n → owned_blocks bl (<[p := b]> h) n.
Proof.
  intros H i bs q Hi Hq. destruct (H i bs q Hi Hq) as (Hn & Hh & Hu).
  split_and!; [done| |done].
  destruct (decide (p = q)) as [->|Hne].
  - rewrite lookup_insert_eq. eauto.
  - by rewrite lookup_insert_ne.
Qed.

Lemma owned_blocks_alloc bl h n r bs b :
  owned_blocks bl h n → bl !! r = Some bs →
  owned_blocks (<[r := bs ++ [n]]> bl) (<[n := b]> h) (S n).
Proof.
  intros H Hr i bs' p Hi Hp.
  pose proof (lookup_lt_Some _ _ _ Hr) as Hlt.
  assert (Hold : ∀ j cs q, bl !! j = Some cs → q ∈ cs → q < n).
  { intros j cs q Hj Hq. by destruct (H j cs q Hj Hq). }
  assert (Hin : ∀ j cs q, <[r := bs ++ [n]]> bl !! j = Some cs → q ∈ cs →
            (q = n ∧ j = r) ∨ (q < n ∧ ∃ cs', bl !! j = Some cs' ∧ q ∈ cs')).
  { intros j cs q Hj Hq. destruct (decide (j = r)) as [->|Hne].
    - rewrite list_lookup_insert_eq in Hj by done. injection Hj as <-.
      apply elem_of_app in Hq as [Hq| ->%list_elem_of_singleton]; [|by left].
      right. split; [by eapply Hold|]. eauto.
    - rewrite list_lookup_insert_ne in Hj by done.
      right. split; [by eapply Hold|]. eauto. }
  destruct (Hin i bs' p Hi Hp) as [[-> ->]|(Hlt' & cs' & Hi' & Hp')].
  - split_and!; [lia|rewrite lookup_insert_eq; eauto|].
    intros j cs Hj Hq. destruct (Hin j cs n Hj Hq) as [[_ ->]|[? _]]; [done|lia].
  - destruct (H i cs' p Hi' Hp') as (_ & Hh & Hu).
    split_and!; [lia| |].
    + rewrite lookup_insert_ne by lia. done.
    + intros j cs Hj Hq.
      destruct (Hin j cs p Hj Hq) as [[-> _]|(_ & cs'' & Hj' & Hq')]; [lia|].
      by eapply Hu.
Qed.

Lemma owned_blocks_insert bl h n r :
  owned_blocks bl h n → r ≤ length bl →
  owned_blocks (take r bl ++ [] :: drop r bl) h n.
Proof.
  intros H Hr.
  assert (Hin : ∀ j cs q, (take r bl ++ [] :: drop r bl) !! j = Some cs → q ∈ cs →
            ∃ j', bl !! j' = Some cs ∧ (j' < r ∧ j = j' ∨ r ≤ j' ∧ j = S j')).
  { intros j cs q Hj Hq.
    destruct (decide (j < r)) as [Hlt|Hge].
    - rewrite lookup_app_l in Hj by (rewrite length_take; lia).
      rewrite lookup_take_lt in Hj by done. exists j. split; [done|]. lia.
    - rewrite lookup_app_r in Hj by (rewrite length_take; lia).
      rewrite length_take in Hj. replace (r `min` length bl) with r in Hj by lia.
      destruct (j - r) as [|k] eqn:Hk; simpl in Hj.
      + injection Hj as <-. by apply elem_of_nil in Hq.
      + rewrite lookup_drop in Hj. exists (r + k). split; [done|]. lia. }
  intros i bs p Hi Hp.
  destruct (Hin i bs p Hi Hp) as (i' & Hi' & Hii).
  destruct (H i' bs p Hi' Hp) as (Hn & Hh & Hu).
  split_and!; [done..|].
  intros j cs Hj Hq. destruct (Hin j cs p Hj Hq) as (j' & Hj' & Hjj).
  pose proof (Hu j' cs Hj' Hq). lia.
Qed.

Lemma lookup_foldr_delete h (l : list nat) p :
  p ∉ l → foldr (λ q h, delete q h) h l !! p = h !! p.
Proof.
  induction l as [|q l IH]; intros Hp; simpl; [done|].
  apply not_elem_of_cons in Hp as [Hne Hp].
  rewrite lookup_delete_ne by done. by apply IH.
Qed.

Lemma owned_blocks_erase bl h n r bs :
  owned_blocks bl h n → bl !! r = Some bs →
  owned_blocks (delete r bl) (foldr (λ q h, delete q h) h bs) n.
Proof.
  intros H Hr.
  assert (Hin : ∀ j cs, delete r bl !! j = Some cs →
            ∃ j', bl !! j' = Some cs ∧ (j' < r ∧ j = j' ∨ r < j' ∧ S j = j')).
  { intros j cs Hj. destruct (decide (j < r)) as [Hlt|Hge].
    - rewrite list_lookup_delete_lt in Hj by done. exists j. split; [done|]. lia.
    - rewrite list_lookup_delete_ge in Hj by lia. exists (S j). split; [done|]. lia. }
  intros i cs p Hi Hp.
  destruct (Hin i cs Hi) as (i' & Hi' & Hii).
  destruct (H i' cs p Hi' Hp) as (Hn & Hh & Hu).
  split_and!; [done| |].
  - rewrite lookup_foldr_delete; [done|].
    intros Hpr. pose proof (Hu r bs Hr Hpr). lia.
  - intros j cs' Hj Hq. destruct (Hin j cs' Hj) as (j' & Hj' & Hjj).
    pose proof (Hu j' cs' Hj' Hq). lia.
Qed.

End Ownership.

Section Reachable.
Context {EB : Type} `{!ExecBlockOps EB} {target : Target}.
Implicit Types m : Manager EB.

Lemma owned_alive m : owned m → blocks_alive m.
Proof.
  intros H reg p [i Hi]%list_elem_of_lookup Hp.
  destruct (H i (blocks reg) p) as (_ & Hh & _); [|done..].
  by rewrite list_lookup_fmap, Hi.
Qed.

Lemma owned_put_region m r reg reg' :
  owned m → regions m !! r = Some reg → blocks reg' = blocks reg →
  owned (put_region m r reg').
Proof.
  intros H Hr Hb. unfold owned. simpl. rewrite list_fmap_insert, Hb.
  rewrite list_insert_id; [done|]. by rewrite list_lookup_fmap, Hr.
Qed.

Lemma owned_set_heap m p b : owned m → owned (set_heap m (<[p := b]> (heap m))).
Proof. apply owned_blocks_heap. Qed.

Lemma cache_in_range_put m r reg :
  cache_in_range m → cache_in_range (put_region m r reg).
Proof.
  unfold cache_in_range. simpl. rewrite length_insert.
  intros [Hnil|?]; [left|by right]. by rewrite Hnil.
Qed.

Lemma searchRegion_cache_in_range m addr :
  cache_in_range m → cache_in_range (searchRegion m addr).1.
Proof.
  intros Hc. unfold searchRegion.
  destruct (Nat.eqb_spec (length (regions m)) 0) as [Hz|Hnz]; [done|].
  destruct (_ =? _)%Z; [done|]. right. simpl.
  apply search_loop_bound. lia.
Qed.

Lemma searchRegion_owned m addr : owned m → owned (searchRegion m addr).1.
Proof.
  unfold searchRegion. destruct (_ =? _); [done|]. by destruct (_ =? _)%Z.
Qed.

Lemma findRegion_owned m cr m' r :
  owned m → findRegion m cr = Done (m', r) → owned m'.
Proof.
  intros Ho. pose proof (searchRegion_owned m (start cr) Ho) as Ho0.
  unfold findRegion.
  destruct (searchRegion m (start cr)) as [m0 low]. simpl in Ho0.
  destruct (candidate_loop _ _ _ _ _ _ _) as [i|[c best]].
  { by intros [= <- <-]. }
  destruct (negb _).
  - destruct (regions m0 !! best) as [reg|] eqn:Hbest; simpl; [|done].
    intros [= <- <-]. by eapply (owned_put_region m0 best reg).
  - destruct (Nat.leb_spec (insert_scan (drop low (regions m0)) cr low)
                           (length (regions m0))) as [Hle|]; [|done].
    intros [= <- <-]. unfold owned. simpl.
    rewrite fmap_app, fmap_cons, fmap_take, fmap_drop. simpl.
    apply owned_blocks_insert; [done|]. by rewrite length_fmap.
Qed.

Lemma findRegion_cache_in_range m cr m' r :
  findRegion m cr = Done (m', r) → cache_in_range m'.
Proof.
  intros (Hc & _ & reg & Hreg & _)%findRegion_post.
  right. rewrite Hc. simpl. eauto using lookup_lt_Some.
Qed.

Lemma block_loop_owned m r bs i ps t m' i' p res :
  owned m → is_Some (regions m !! r) →
  block_loop m r bs i ps t = Done (m', i', p, res) → owned m'.
Proof.
  revert m i. induction bs as [|q bs IH]; intros m i Ho [reg Hreg].
  - cbn [block_loop]. rewrite Hreg. simpl.
    destruct (writeSequence newExecBlock ps t) as [b res'].
    destruct (_ =? _)%Z; [done|]. intros [= <- <- <- <-].
    unfold owned. simpl. rewrite list_fmap_insert. simpl.
    apply owned_blocks_alloc; [done|]. by rewrite list_lookup_fmap, Hreg.
  - cbn [block_loop]. destruct (heap m !! q) as [b|]; simpl; [|done].
    destruct (writeSequence b ps t) as [b' res'].
    destruct (_ =? _)%Z.
    + apply IH; [by apply owned_set_heap|by simpl; eauto].
    + intros [= <- <- <- <-]. by apply owned_set_heap.
Qed.

Lemma write_turn_owned m r basicBlock patchEnd patchIdx t1 t2 m' idx' t1' t2' :
  owned m →
  write_turn m r basicBlock patchEnd patchIdx t1 t2 = Done (m', idx', t1', t2') →
  owned m'.
Proof.
  intros Ho. unfold write_turn.
  destruct (regions m !! r) as [reg|] eqn:Hreg; simpl; [|done].
  destruct (block_loop _ _ _ _ _ _) as [[[[m1 i] p] res]| | |] eqn:Hbl;
    simpl; [|done..].
  apply block_loop_owned in Hbl; [|done|eauto].
  destruct (regions m1 !! r) as [reg1|] eqn:Hreg1; simpl; [|done].
  destruct (basicBlock !! patchIdx) as [first|]; simpl; [|done].
  destruct (heap m1 !! p) as [b|]; simpl; [|done].
  destruct (inst_cache_loop _ _ _ _ _ _) as [ic| | |]; simpl; [|done..].
  destruct (if (_ <? 0)%Z then _ else _) as [last|]; simpl; [|done].
  intros [= <- <- <- <-]. by eapply (owned_put_region m1 r reg1).
Qed.

Lemma write_loop_owned fuel m r basicBlock patchEnd patchIdx t1 t2 m' t1' t2' :
  owned m →
  write_loop fuel m r basicBlock patchEnd patchIdx t1 t2 = Done (m', t1', t2') →
  owned m'.
Proof.
  revert m patchIdx t1 t2.
  induction fuel as [|fuel IH]; intros m patchIdx t1 t2 Ho; cbn [write_loop];
    destruct (_ <=? _); try done; try by intros [= <- <- <-].
  destruct (write_turn _ _ _ _ _ _ _) as [[[[m1 idx1] u1] u2]| | |] eqn:Hturn;
    simpl; [|done..].
  apply IH. by eapply write_turn_owned.
Qed.

Lemma writeBasicBlock_valid fuel m basicBlock m' :
  owned m → writeBasicBlock fuel m basicBlock = Done m' →
  cache_in_range m' ∧ owned m'.
Proof.
  intros Ho. unfold writeBasicBlock.
  destruct (head basicBlock) as [firstPatch|]; simpl; [|done].
  destruct (last basicBlock) as [lastPatch|]; simpl; [|done].
  destruct (findRegion m _) as [[m2 r]| | |] eqn:Hfind; simpl; [|done..].
  pose proof (findRegion_cache_in_range _ _ _ _ Hfind) as Hc2.
  pose proof (findRegion_owned _ _ _ _ Ho Hfind) as Ho2.
  destruct (regions m2 !! r) as [reg|] eqn:Hreg; simpl; [|done].
  destruct (_ =? 0); [by intros [= <-]|].
  set (m3 := put_region m2 r _).
  assert (Ho3 : owned m3) by (by eapply (owned_put_region m2 r reg)).
  destruct (write_loop _ _ _ _ _ _ _ _) as [[[m4 t1] t2]| | |] eqn:Hloop;
    simpl; [|done..].
  pose proof (write_loop_owned _ _ _ _ _ _ _ _ _ _ _ Ho3 Hloop) as Ho4.
  apply write_loop_grows in Hloop as ((Hc4 & _ & Hl4 & _) & _).
  2:{ unfold m3. simpl. apply lookup_lt_is_Some.
      rewrite length_insert. eauto using lookup_lt_Some. }
  intros (reg5 & tr & av & Hreg5 & ->)%updateRegionStat_inv.
  simpl in Hreg5. split.
  - apply findRegion_post in Hfind as (Hcache & _).
    right. simpl. rewrite length_insert, Hc4, Hl4.
    unfold m3. simpl. rewrite length_insert, Hcache. simpl.
    eauto using lookup_lt_Some.
  - apply (owned_put_region (set_totals m4 _ _) r reg5); [done..].
Qed.

Lemma getSeqLoc_valid m addr m' seqLoc :
  cache_in_range m → owned m → getSeqLoc m addr = Done (m', seqLoc) →
  cache_in_range m' ∧ owned m'.
Proof.
  intros Hc Ho. unfold getSeqLoc.
  pose proof (searchRegion_cache_in_range m addr Hc) as Hc0.
  pose proof (searchRegion_owned m addr Ho) as Ho0.
  destruct (searchRegion m addr) as [m0 r]. simpl in Hc0, Ho0.
  destruct (regions m0 !! r) as [reg|] eqn:Hreg; [|by intros [= <- <-]].
  destruct (contains_addr _ _); [|by intros [= <- <-]].
  destruct (sequenceCache reg !! addr) as [sl|]; [by intros [= <- <-]|].
  destruct (instCache reg !! addr) as [instLoc|]; [|by intros [= <- <-]].
  destruct (blocks reg !! _) as [p|]; simpl; [|done].
  destruct (heap m0 !! p) as [block|]; simpl; [|done].
  destruct (sequenceCache reg !! _) as [existing|];
    (destruct (bbRegistry reg !! _) as [bb|]; simpl; [|done]);
    destruct (splitSequence block _) as [block' newSeqID];
    intros [= <- <-]; (split;
      [by apply (cache_in_range_put m0)
      |apply (owned_set_heap (put_region m0 r _));
       by eapply (owned_put_region m0 r reg)]).
Qed.

Lemma getExecBlock_valid m addr m' b :
  cache_in_range m → owned m → getExecBlock m addr = Done (m', b) →
  cache_in_range m' ∧ owned m'.
Proof.
  intros Hc Ho. unfold getExecBlock.
  destruct (getSeqLoc m addr) as [[m1 seqLoc]| | |] eqn:Hget; simpl; [|done..].
  apply getSeqLoc_valid in Hget as [Hc1 Ho1]; [|done..].
  destruct (execBlock seqLoc) as [p|]; [|by intros [= <- <-]].
  destruct (heap m1 !! p) as [blk|]; simpl; [|done].
  intros [= <- <-]. split; [done|]. by apply owned_set_heap.
Qed.

Lemma getBBInfo_valid m addr m' b :
  cache_in_range m → owned m → getBBInfo m addr = Done (m', b) →
  cache_in_range m' ∧ owned m'.
Proof.
  intros Hc Ho. unfold getBBInfo.
  pose proof (searchRegion_cache_in_range m addr Hc) as Hc0.
  pose proof (searchRegion_owned m addr Ho) as Ho0.
  destruct (searchRegion m addr) as [m0 r]. simpl in Hc0, Ho0.
  destruct (regions m0 !! r) as [reg|]; [|by intros [= <- <-]].
  destruct (contains_addr _ _); [|by intros [= <- <-]].
  destruct (sequenceCache reg !! addr) as [sl|]; [|by intros [= <- <-]].
  destruct (bbRegistry reg !! _) as [bb|]; simpl; [|done].
  by intros [= <- <-].
Qed.

(** A request with the facet of the operands returns as the analysis of
    the operands does. *)
Lemma analyseOperands_some GPR_ID0 MRI0 x inst0 desc r :
  analyseOperands GPR_ID0 MRI0 (Some x) inst0 desc = Returns r → is_Some r.
Proof.
  unfold analyseOperands. destruct (_ =? _)%Z; [intros [= <-]; eauto|].
  destruct (writes_loop _ _ _ _) as [w| |]; simpl; [|done..].
  destruct (explicit_loop _ _ _ _ _ _ _) as [st1| |]; simpl; [|done..].
  destruct (analyseImplicitRegisters _ _ _ _ st1) as [st2| |]; simpl; [|done..].
  destruct (analyseImplicitRegisters _ _ _ _ st2) as [st3| |]; simpl; [|done..].
  intros [= <-]. eauto.
Qed.

(** What a request that returns has done: nothing beyond the search when
    there is no metadata or when a cached analysis serves it; else it has
    built an analysis and put it into the cache of the region that holds
    the address, or into the cache of the manager. *)
Lemma analyzeInstMetadata_inv m meta type m' a :
  analyzeInstMetadata m meta type = Done (m', a) →
  match meta with
  | None => m' = m ∧ a = None
  | Some meta =>
      let m0 := (searchRegion m (address meta)).1 in
      let r := (searchRegion m (address meta)).2 in
      (m' = m0
       ∧ ∃ reg a0, regions m0 !! r = Some reg
           ∧ contains_addr (covered reg) (address meta) = true
           ∧ analysisCache reg !! address meta = Some a0
           ∧ Z.land (analysisType a0) type = type ∧ a = Some a0)
      ∨ ∃ a0, a = Some a0 ∧ analysisType a0 = type
          ∧ (Z.land type ANALYSIS_OPERANDS = 0%Z →
             operandAnalysis a0 = mkOperands 0 None)
          ∧ (Z.land type ANALYSIS_OPERANDS ≠ 0%Z →
             analyseOperands GPR_ID MRI (Some (mkOperands 0 None))
               (getOperands (inst meta)) (MCII (getOpcode (inst meta)))
             = Returns (Some (operandAnalysis a0)))
          ∧ (∀ reg a1, regions m0 !! r = Some reg →
               contains_addr (covered reg) (address meta) = true →
               analysisCache reg !! address meta = Some a1 →
               Z.land (analysisType a1) type ≠ type)
          ∧ ((∃ reg, regions m0 !! r = Some reg
                ∧ contains_addr (covered reg) (address meta) = true
                ∧ m' = put_region m0 r
                         (set_analysisCache reg
                            (<[address meta := a0]> (analysisCache reg))))
             ∨ ((∀ reg, regions m0 !! r = Some reg →
                   contains_addr (covered reg) (address meta) = false)
                ∧ m' = set_globalAnalysisCache m0
                         (<[address meta := a0]> (globalAnalysisCache m0))))
  end.
Proof.
  unfold analyzeInstMetadata. destruct meta as [meta|]; [|by intros [= <- <-]].
  destruct (searchRegion m (address meta)) as [m0 r]. cbn [fst snd].
  set (inRegion := match regions m0 !! r with
                   | Some reg => if contains_addr (covered reg) (address meta)
                                 then Some reg else None
                   | None => None
                   end).
  set (cached := match inRegion with
                 | Some reg =>
                     match analysisCache reg !! address meta with
                     | Some a => if (Z.land (analysisType a) type =? type)%Z
                                 then Some a else None
                     | None => None
                     end
                 | None => None
                 end).
  destruct cached as [a0|] eqn:Hcached.
  { intros [= <- <-]. left. split; [done|]. subst cached inRegion.
    destruct (regions m0 !! r) as [reg|]; [|done].
    destruct (contains_addr _ _) eqn:Hin; [|done].
    destruct (analysisCache reg !! address meta) as [a1|] eqn:Ha1; [|done].
    destruct (Z.eqb_spec (Z.land (analysisType a1) type) type); [|done].
    injection Hcached as ->. by exists reg, a0. }
  intros Hrun. right.
  assert (∃ a0, a = Some a0 ∧ analysisType a0 = type
            ∧ (Z.land type ANALYSIS_OPERANDS = 0%Z →
               operandAnalysis a0 = mkOperands 0 None)
            ∧ (Z.land type ANALYSIS_OPERANDS ≠ 0%Z →
               analyseOperands GPR_ID MRI (Some (mkOperands 0 None))
                 (getOperands (inst meta)) (MCII (getOpcode (inst meta)))
               = Returns (Some (operandAnalysis a0)))
            ∧ match inRegion with
              | Some reg =>
                  m' = put_region m0 r
                         (set_analysisCache reg
                            (<[address meta := a0]> (analysisCache reg)))
              | None =>
                  m' = set_globalAnalysisCache m0
                         (<[address meta := a0]> (globalAnalysisCache m0))
              end) as (a0 & -> & Ht & Hno & Hops & Hm').
  { destruct (Z.eqb_spec (Z.land type ANALYSIS_OPERANDS) 0) as [Hz|Hnz];
      cbn [negb] in Hrun.
    - cbn [mbind outcome_bind] in Hrun. eexists. split_and!.
      + destruct inRegion; by injection Hrun as <- <-.
      + done.
      + done.
      + done.
      + destruct inRegion; by injection Hrun as <- <-.
    - cbn [operandAnalysis] in Hrun.
      destruct (analyseOperands _ _ _ _ _) as [x| |] eqn:Han;
        cbn [thrown mbind outcome_bind] in Hrun; [|done..].
      destruct (analyseOperands_some _ _ _ _ _ _ Han) as [ops ->].
      cbn [default] in Hrun. eexists. split_and!.
      + destruct inRegion; by injection Hrun as <- <-.
      + done.
      + done.
      + done.
      + destruct inRegion; by injection Hrun as <- <-. }
  exists a0. split_and!; [done..| |].
  - intros reg a1 Hreg Hin Ha1 Hland. subst cached inRegion.
    rewrite Hreg, Hin, Ha1 in Hcached.
    by destruct (Z.eqb_spec (Z.land (analysisType a1) type) type).
  - subst inRegion. destruct (regions m0 !! r) as [reg|] eqn:Hreg.
    + destruct (contains_addr _ _) eqn:Hin.
      * left. by exists reg.
      * right. split; [|done]. by intros ? [= <-].
    + right. split; [|done]. done.
Qed.

(** A request returns unless the analysis of the operands fails. *)
Lemma analyzeInstMetadata_fails m meta type :
  failed_in_operands meta type (analyzeInstMetadata m (Some meta) type).
Proof.
  unfold analyzeInstMetadata.
  destruct (searchRegion m (address meta)) as [m0 r].
  set (inRegion := match regions m0 !! r with
                   | Some reg => if contains_addr (covered reg) (address meta)
                                 then Some reg else None
                   | None => None
                   end).
  destruct (match inRegion with
            | Some reg =>
                match analysisCache reg !! address meta with
                | Some a => if (Z.land (analysisType a) type =? type)%Z
                            then Some a else None
                | None => None
                end
            | None => None
            end) as [a|]; [done|].
  destruct (Z.eqb_spec (Z.land type ANALYSIS_OPERANDS) 0) as [Hz|Hnz];
    cbn [negb].
  - cbn [mbind outcome_bind]. by destruct inRegion.
  - cbn [operandAnalysis]. fold (operand_analysis meta).
    destruct (operand_analysis meta) as [x| |] eqn:Han;
      cbn [thrown mbind outcome_bind]; [|done..].
    by destruct inRegion.
Qed.

Lemma analyzeInstMetadata_valid m meta type m' a :
  analyzeInstMetadata m meta type = Done (m', a) →
  cache_in_range m → owned m →
  cache_in_range m' ∧ owned m'.
Proof.
  intros Hrun Hc Ho. apply analyzeInstMetadata_inv in Hrun.
  destruct meta as [meta|]; [|by destruct Hrun as [-> _]].
  pose proof (searchRegion_cache_in_range m (address meta) Hc) as Hc0.
  pose proof (searchRegion_owned m (address meta) Ho) as Ho0.
  destruct (searchRegion m (address meta)) as [m0 r]. simpl in *.
  destruct Hrun as [[-> _]|(a0 & _ & _ & _ & _ & _ & [(reg & Hreg & _ & ->)|[_ ->]])];
    [done| |done].
  split.
  - by apply cache_in_range_put.
  - by eapply (owned_put_region m0 r reg).
Qed.

Lemma clearCache_range_frame m range :
  regions (clearCache_range m range) = regions m
  ∧ searchCache (clearCache_range m range) = searchCache m
  ∧ heap (clearCache_range m range) = heap m
  ∧ nextBlock (clearCache_range m range) = nextBlock m.
Proof. done. Qed.

Lemma clearCache_rangeSet_valid m ranges :
  cache_in_range m → owned m →
  cache_in_range (clearCache_rangeSet m ranges)
  ∧ owned (clearCache_rangeSet m ranges).
Proof.
  unfold clearCache_rangeSet, cache_in_range, owned. simpl.
  revert m. induction ranges as [|range ranges IH]; intros m Hc Ho; [done|].
  simpl. by apply IH.
Qed.

Lemma eraseRegion_owned m r m' : owned m → eraseRegion m r = Done m' → owned m'.
Proof.
  intros Ho. unfold eraseRegion.
  destruct (regions m !! r) as [reg|] eqn:Hreg; simpl; [|done].
  intros [= <-]. unfold owned. simpl.
  rewrite delete_take_drop, fmap_app, fmap_take, fmap_drop, <- delete_take_drop.
  apply owned_blocks_erase; [done|]. by rewrite list_lookup_fmap, Hreg.
Qed.

Lemma erase_all_owned m l m' : owned m → erase_all m l = Done m' → owned m'.
Proof.
  revert m. induction l as [|r l IH]; intros m Ho; cbn [erase_all].
  { by intros [= <-]. }
  destruct (eraseRegion m r) as [m1| | |] eqn:He; simpl; [|done..].
  apply IH. by eapply eraseRegion_owned.
Qed.

Lemma flushCommit_valid m m' :
  cache_in_range m → owned m → flushCommit m = Done m' →
  cache_in_range m' ∧ owned m'.
Proof.
  intros Hc Ho. unfold flushCommit.
  destruct (0 <? _); [|by intros [= <-]].
  destruct (erase_all _ _) as [m1| | |] eqn:He; simpl; [|done..].
  apply erase_all_owned in He; [|done].
  intros [= <-]. split; [|done].
  unfold cache_in_range. simpl. destruct (regions m1); [by left|right; simpl; lia].
Qed.

Lemma clearCache_valid m m' :
  owned m → clearCache m = Done m' → cache_in_range m' ∧ owned m'.
Proof.
  intros Ho Hclear.
  destruct (clear_loop_empties (length (regions m)) m) as (m1 & Hm1 & Hregs & _);
    [done|].
  unfold clearCache in Hclear. rewrite Hm1 in Hclear. injection Hclear as <-.
  split; [by left|]. unfold owned. rewrite Hregs.
  intros i bs p Hi. by destruct i.
Qed.

Lemma newManager_owned : owned (newManager : Manager EB).
Proof. intros i bs p Hi. by destruct i. Qed.

(** In every reachable state the slot holds an index of the array, and
    every block of a region is live and belongs to that region alone. *)
Lemma reachable_valid m : reachable m → cache_in_range m ∧ owned m.
Proof.
  induction 1 as [|m o m' Hm [Hc Ho] Hrun].
  { split; [by left|apply newManager_owned]. }
  destruct o; simpl in Hrun.
  - by eapply writeBasicBlock_valid.
  - destruct (getSeqLoc m addr) as [[m1 sl]| | |] eqn:Hget; simpl in Hrun; [|done..].
    injection Hrun as <-. by eapply getSeqLoc_valid.
  - destruct (getExecBlock m addr) as [[m1 b]| | |] eqn:Hget; simpl in Hrun; [|done..].
    injection Hrun as <-. by eapply getExecBlock_valid.
  - destruct (getBBInfo m addr) as [[m1 b]| | |] eqn:Hget; simpl in Hrun; [|done..].
    injection Hrun as <-. by eapply getBBInfo_valid.
  - destruct (analyzeInstMetadata m instMetadata type) as [[m1 a]| | |] eqn:Hget;
      simpl in Hrun; [|done..].
    injection Hrun as <-. by eapply analyzeInstMetadata_valid.
  - by injection Hrun as <-.
  - injection Hrun as <-. by apply clearCache_rangeSet_valid.
  - by eapply clearCache_valid.
  - by eapply flushCommit_valid.
Qed.

Lemma reachable_alive m : reachable m → cache_in_range m ∧ blocks_alive m.
Proof. intros [Hc Ho]%reachable_valid. split; [done|]. by apply owned_alive. Qed.

End Reachable.

(** ** SequenceWriter, on reachable states *)

(** C2: when [writeBasicBlock] returns, the address of every patch below
    [patchEnd] is a key of the instruction cache of the region that
    [findRegion] chose, and the address of the first patch is a key of its
    sequence cache. In a reachable state, with fuel for one turn per patch,
    the call does return on a non-empty block, given a block interface that
    keeps to its contract. *)
Theorem writeBasicBlock_populates {EB} `{!ExecBlockOps EB} {target : Target}
    (fuel : nat) (m : Manager EB) (basicBlock : list Patch)
    (firstPatch : Patch) :
  write_contract EB → fresh_block_accepts EB →
  reachable m →
  head basicBlock = Some firstPatch →
  (Z.of_nat (length basicBlock) < 2 ^ 64)%Z →
  length basicBlock ≤ fuel →
  ∃ lastPatch m0 r reg0 m' reg',
    last basicBlock = Some lastPatch
    ∧ findRegion m (code_range firstPatch lastPatch) = Done (m0, r)
    ∧ regions m0 !! r = Some reg0
    ∧ writeBasicBlock fuel m basicBlock = Done m'
    ∧ regions m' !! r = Some reg'
    ∧ is_Some (sequenceCache reg' !! address (metadata firstPatch))
    ∧ ∀ j pj, j < truncation (sequenceCache reg0) basicBlock →
        basicBlock !! j = Some pj →
        is_Some (instCache reg' !! address (metadata pj)).
Proof.
  intros Hcontract Haccepts [Hc Hlive]%reachable_alive Hhead Hsize Hfuel.
  destruct (last basicBlock) as [lastPatch|] eqn:Hlast.
  2:{ apply last_None in Hlast. by rewrite Hlast in Hhead. }
  destruct (writeBasicBlock_outcome Hcontract fuel m basicBlock firstPatch
              lastPatch Hc Hlive Hhead Hlast Hsize)
    as (m0 & r & reg0 & Hfind & Hreg0 & Hout).
  destruct (writeBasicBlock fuel m basicBlock) as [m'| | |]; [|done| |done].
  - destruct Hout as (reg' & Hreg' & Hseq & Hinst).
    by exists lastPatch, m0, r, reg0, m', reg'.
  - destruct Hout as [?|?]; [done|lia].
Qed.

(** C10: in a reachable state, on a non-empty block, no access of
    [writeBasicBlock] leaves the bounds of its container, given that
    [writeSequence] reports a count of patches that agrees with the extent
    of the sequence; on the empty block [front()] is out of bounds. *)
Theorem writeBasicBlock_in_bounds {EB} `{!ExecBlockOps EB} {target : Target}
    (fuel : nat) (m : Manager EB) (basicBlock : list Patch) :
  write_contract EB → reachable m →
  (Z.of_nat (length basicBlock) < 2 ^ 64)%Z →
  (basicBlock ≠ [] → writeBasicBlock fuel m basicBlock ≠ Undefined)
  ∧ writeBasicBlock fuel m [] = Undefined.
Proof.
  intros Hcontract [Hc Hlive]%reachable_alive Hsize. split; [|done].
  intros Hne Hundef.
  destruct (head basicBlock) as [firstPatch|] eqn:Hhead.
  2:{ by apply head_None in Hhead. }
  destruct (last basicBlock) as [lastPatch|] eqn:Hlast.
  2:{ by apply last_None in Hlast. }
  destruct (writeBasicBlock_outcome Hcontract fuel m basicBlock firstPatch
              lastPatch Hc Hlive Hhead Hlast Hsize)
    as (m0 & r & reg0 & _ & _ & Hout).
  by rewrite Hundef in Hout.
Qed.

(** ** The properties on sample runs *)

Lemma ranges_nonempty_Forall rs :
  Forall (λ reg, (start (covered reg) < end_ (covered reg))%Z) rs →
  ranges_nonempty rs.
Proof. intros H reg Hin. rewrite Forall_forall in H. by apply H. Qed.

Lemma cache_ok_containing {EB} (m : Manager EB) reg :
  regions m !! regionIdx (searchCache m) = Some reg →
  contains_addr (covered reg) (sc_address (searchCache m)) = true →
  cache_ok m.
Proof. intros. right. left. eauto. Qed.

(** The two steps by which a statement about a sample run is settled. *)
Ltac by_run := vm_compute; reflexivity.
Ltac decided := apply (bool_decide_unpack _); vm_compute; exact I.

(** A sample state whose slot points at a region that contains the address
    of the slot, and whose regions are in order. *)
Ltac ordered m :=
  split_and!;
  [ apply ranges_nonempty_Forall; decided
  | apply regions_sorted_iff; decided
  | apply regions_disjoint_iff; decided
  | let reg := fresh "reg" in
    let Hreg := fresh "Hreg" in
    destruct (regions m !! regionIdx (searchCache m)) as [reg|] eqn:Hreg;
      [|by vm_compute in Hreg];
    apply (cache_ok_containing _ reg Hreg);
    vm_compute in Hreg; injection Hreg as <-; by_run ].

(** The statements on the samples, over the small register file. *)
Section OnSampleRuns.
#[local] Existing Instance toy_target.

Lemma state_after_reachable os m :
  run_all newManager os = Done m → reachable (state_after os).
Proof.
  intros H. unfold state_after. rewrite H.
  eapply run_all_reachable; [apply reachable_fresh|done].
Qed.

Lemma filled_ordered :
  ranges_nonempty (regions filled) ∧ regions_sorted (regions filled)
  ∧ regions_disjoint (regions filled) ∧ cache_ok filled.
Proof. ordered filled. Qed.

Lemma apart_ordered :
  ranges_nonempty (regions apart) ∧ regions_sorted (regions apart)
  ∧ regions_disjoint (regions apart) ∧ cache_ok apart.
Proof. ordered apart. Qed.

Lemma cold_ordered :
  ranges_nonempty (regions cold) ∧ regions_sorted (regions cold)
  ∧ regions_disjoint (regions cold) ∧ cache_ok cold.
Proof. ordered cold. Qed.

(** C1, the claim as stated fails: a block of four instructions at 0x1000
    fills the buffer of its region, which leaves no budget; a block that
    starts one instruction earlier is then given a region of its own,
    [0xFFC, 0x1004), placed before [0x1000, 0x1010) and overlapping it. *)
Lemma overlap_reachable :
  reachable shadowed
  ∧ regions_disjoint (regions filled)
  ∧ (∃ m', findRegion filled (mkRange 0xFFC 0x1004) = Done (m', 0)
           ∧ length (regions m') = 2
           ∧ covered <$> regions m'
             = [mkRange 0xFFC 0x1004; mkRange 0x1000 0x1010])
  ∧ covered <$> regions shadowed
    = [mkRange 0xFFC 0x1004; mkRange 0x1000 0x1010]
  ∧ ¬ regions_disjoint (regions shadowed).
Proof.
  split_and!.
  - eapply state_after_reachable with (m := shadowed). vm_compute. reflexivity.
  - apply filled_ordered.
  - eexists. split_and!; vm_compute; reflexivity.
  - vm_compute. reflexivity.
  - intros H%regions_disjoint_iff.
    apply (bool_decide_pack _) in H. vm_compute in H. done.
Qed.

(** C1, as the code has it. From an array that is sorted, disjoint and
    without empty range, with a slot that is right, [findRegion] returns,
    and returns a region that contains the code range: it leaves the array
    as it is, or widens one region to the union with the code range, or
    inserts a new region, with the code range and no budget, at a place
    that keeps the array sorted by start. The slot then holds the start of
    the code range and the index returned, and is right. The result is
    again sorted, disjoint and without empty range whenever the range
    covered by the returned region overlaps no other region. *)
Theorem findRegion_keeps_order {EB} `{!ExecBlockOps EB} (m : Manager EB)
    (cr : Range) :
  ranges_nonempty (regions m) → regions_sorted (regions m) →
  regions_disjoint (regions m) → cache_ok m →
  (start cr < end_ cr)%Z →
  ∃ m' r,
    findRegion m cr = Done (m', r)
    ∧ (∃ reg', regions m' !! r = Some reg'
               ∧ contains (covered reg') cr = true)
    ∧ searchCache m' = mkSearchCache (start cr) r
    ∧ (regions m' = regions m
       ∨ (∃ reg, regions m !! r = Some reg
            ∧ regions m'
              = <[r := set_covered reg (extend (covered reg) cr)]> (regions m))
       ∨ (regions m' = take r (regions m) ++ new_region cr :: drop r (regions m)
          ∧ r ≤ length (regions m)
          ∧ regions_sorted (regions m')))
    ∧ cache_ok m'
    ∧ ((∀ j regj reg', j ≠ r → regions m' !! j = Some regj →
          regions m' !! r = Some reg' →
          overlaps (covered regj) (covered reg') = false) →
       ranges_nonempty (regions m') ∧ regions_sorted (regions m')
       ∧ regions_disjoint (regions m')).
Proof.
  intros Hne Hs Hd Hc Hcr.
  assert (Hrange : cache_in_range m).
  { destruct Hc as [Hnil|[(reg & Hreg & _)|[_ [(reg & Hreg & _)|[Hz Hall]]]]].
    - by left.
    - right. by apply lookup_lt_Some in Hreg.
    - right. by apply lookup_lt_Some in Hreg.
    - destruct (regions m) as [|reg0 rs] eqn:Hregs; [by left|].
      right. rewrite Hz, Hregs. simpl. lia. }
  destruct (findRegion_returns m cr Hrange) as (m' & r & Hfind).
  exists m', r.
  destruct (findRegion_post m cr m' r Hfind) as (Hslot & _ & Hin).
  destruct (findRegion_order m m' cr r Hne Hs Hd Hc Hcr Hfind)
    as (Hshape & Hok & Horder).
  split_and!; try done.
  destruct Hshape as [?|[?|[Hnew Hsorted]]]; [by left|by right; left|].
  right. right. split_and!; [done| |done].
  destruct Hin as (reg' & Hreg' & _). apply lookup_lt_Some in Hreg'.
  rewrite Hnew in Hreg'. rewrite length_app, length_cons, length_take, length_drop in Hreg'.
  lia.
Qed.

(** C1 on the second sample: a block at 0x9000 gets a region of its own
    after the one at 0x1000. *)
Lemma findRegion_keeps_order_witness :
  ∃ m', findRegion filled (mkRange 0x9000 0x9010) = Done (m', 1)
        ∧ covered <$> regions m'
          = [mkRange 0x1000 0x1010; mkRange 0x9000 0x9010]
        ∧ searchCache m' = mkSearchCache 0x9000 1
        ∧ cache_ok m'
        ∧ regions_sorted (regions m') ∧ regions_disjoint (regions m').
Proof.
  destruct (findRegion_keeps_order filled (mkRange 0x9000 0x9010))
    as (m' & r & Hf & _ & Hslot & _ & Hcache & Horder);
    [apply filled_ordered..| |].
  { vm_compute. reflexivity. }
  pose proof Hf as Hrun. vm_compute in Hrun. injection Hrun as <- <-.
  eexists. split; [exact Hf|].
  split; [by_run|]. split; [exact Hslot|]. split; [exact Hcache|].
  apply Horder.
  intros [|[|j]] regj reg' Hj Hregj Hreg'; [|done|by vm_compute in Hregj].
  vm_compute in Hregj, Hreg'. injection Hregj as <-. injection Hreg' as <-.
  vm_compute. reflexivity.
Defined.

(** C2 on the first sample: three instructions at 0x1000 into a new
    manager. *)
Lemma writeBasicBlock_populates_witness :
  ∃ m' reg',
    writeBasicBlock 3 (newManager : Manager SimpleBlock) (block_at 0x1000 3)
    = Done m'
    ∧ regions m' !! 0 = Some reg'
    ∧ is_Some (sequenceCache reg' !! 0x1000%Z)
    ∧ is_Some (instCache reg' !! 0x1008%Z).
Proof.
  destruct (writeBasicBlock_populates 3 (newManager : Manager SimpleBlock)
              (block_at 0x1000 3) (mkPatch (mkInstMetadata toy_nop 0x1000 4))
              simple_contract simple_accepts reachable_fresh
              eq_refl eq_refl (le_n 3))
    as (lastPatch & m0 & r & reg0 & m' & reg' & Hlast & Hfind & Hreg0 & Hw
        & Hreg' & Hseq & Hinst).
  vm_compute in Hlast. injection Hlast as <-.
  vm_compute in Hfind. injection Hfind as <- <-.
  vm_compute in Hreg0. injection Hreg0 as <-.
  exists m', reg'. split_and!; [done..|].
  apply (Hinst 2 (mkPatch (mkInstMetadata toy_nop 0x1008 4))); [|reflexivity].
  vm_compute. lia.
Defined.

(** C3, the claim as stated fails: in the state [shadowed] the address
    0x1000 is a key of the instruction cache of region 0, which points
    into block 1, and not of its sequence cache. [searchRegion] resolves
    0x1000 to region 1, so [getSeqLoc] answers with the sequence of region
    1 in block 0: nothing is split, the sequence cache and the registry of
    region 0 stay as they were. *)
Lemma split_shadowed :
  reachable shadowed
  ∧ ∃ reg instLoc,
      regions shadowed !! 0 = Some reg
      ∧ instCache reg !! 0x1000%Z = Some instLoc
      ∧ sequenceCache reg !! 0x1000%Z = None
      ∧ blocks reg !! Z.to_nat (blockIdx instLoc) = Some 1
      ∧ ∃ m' seqLoc,
          getSeqLoc shadowed 0x1000 = Done (m', seqLoc)
          ∧ execBlock seqLoc = Some 0
          ∧ regions m' = regions shadowed.
Proof.
  split.
  - eapply state_after_reachable with (m := shadowed). vm_compute. reflexivity.
  - eexists _, _. split_and!; [vm_compute; reflexivity..|].
    eexists _, _. split_and!; vm_compute; reflexivity.
Qed.

(** C3 on the first sample, entered at its second instruction. *)
Lemma getSeqLoc_splits_witness :
  ∃ m' seqLoc reg',
    getSeqLoc cold 0x1004 = Done (m', seqLoc)
    ∧ execBlock seqLoc = Some 0
    ∧ regions m' !! 0 = Some reg'
    ∧ sequenceCache reg' !! 0x1004%Z = Some seqLoc
    ∧ bbRegistry reg' = [mkBBInfo 0x1000 0x100C; mkBBInfo 0x1004 0x100C].
Proof.
  destruct (getSeqLoc_splits cold 0x1004 0 cold_region (mkInstLoc 0 1) 0
              cold_block (mkSeqLoc (Some 0) 0 0) (mkBBInfo 0x1000 0x100C))
    as (m' & seqLoc & reg' & Hget & Hblock & _ & _ & Hreg' & Hseq & Hbb & _).
  - apply cold_ordered.
  - apply cold_ordered.
  - apply cold_ordered.
  - vm_compute. reflexivity.
  - vm_compute. reflexivity.
  - vm_compute. reflexivity.
  - vm_compute. reflexivity.
  - vm_compute. reflexivity.
  - vm_compute. reflexivity.
  - vm_compute. reflexivity.
  - vm_compute. reflexivity.
  - exists m', seqLoc, reg'. split_and!; [done..| |].
    + rewrite Hseq. apply lookup_insert_eq.
    + rewrite Hbb. vm_compute. reflexivity.
Defined.

(** C4 on the first sample. *)
Lemma writeBasicBlock_idempotent_witness :
  writeBasicBlock 3 newManager (block_at 0x1000 3) = Done cold
  ∧ writeBasicBlock 3 cold (block_at 0x1000 3) = Done cold.
Proof.
  assert (H : writeBasicBlock 3 newManager (block_at 0x1000 3) = Done cold).
  { vm_compute. reflexivity. }
  split; [exact H|].
  exact (writeBasicBlock_idempotent 3 3 newManager cold (block_at 0x1000 3) H).
Defined.

(** C5, where the code leaves the stated policy: the cost is an
    [unsigned] and the difference of two 64-bit addresses is cut to 32
    bits. After one instruction at 0x400000 the region [0x400000, 0x400004)
    has 48 bytes of budget. For a block at 0x100400000 the cost of an
    extension is 2^32, far above the budget, and the stated policy creates
    a region; the code computes the cost 0, extends the region over 4 GiB
    and leaves it without budget. *)
Theorem extension_cost_truncated :
  covered <$> regions warm = [mkRange 0x400000 0x400004]
  ∧ available <$> regions warm = [48%Z]
  ∧ spec_cost (mkRange 0x400000 0x400004) (mkRange 0x100400000 0x100400004)
    = (2 ^ 32)%Z
  ∧ extension_cost (mkRange 0x400000 0x400004)
                   (mkRange 0x100400000 0x100400004) = 0%Z
  ∧ findRegion_policy warm (mkRange 0x100400000 0x100400004) = Create
  ∧ findRegion_decision warm (mkRange 0x100400000 0x100400004) = Extend 0
  ∧ (∃ m', findRegion warm (mkRange 0x100400000 0x100400004) = Done (m', 0)
           ∧ covered <$> regions m' = [mkRange 0x400000 0x100400004])
  ∧ covered <$> regions far = [mkRange 0x400000 0x100400004]
  ∧ available <$> regions far = [0%Z].
Proof.
  split_and!; try (vm_compute; reflexivity).
  eexists. split; vm_compute; reflexivity.
Qed.

(** C6 on two regions, for an address inside the first one. *)
Lemma searchRegion_spec_witness :
  search_spec (regions apart) 0x1008 (searchRegion apart 0x1008).2
  ∧ (searchRegion apart 0x1008).2 = 0.
Proof.
  split; [|vm_compute; reflexivity].
  refine (proj1 (searchRegion_spec apart 0x1008 _ _ _)).
  - apply apart_ordered.
  - apply apart_ordered.
  - apply apart_ordered.
Defined.

(** C7, the claim as stated fails: of two regions the first one is
    pending from an earlier [clearCache(range)]. It does not overlap the
    range [0x9000, 0x9004), and [clearCache] of that range followed by
    [flushCommit()] erases it with the second one. *)
Lemma pending_region_erased :
  reachable marked
  ∧ covered <$> regions marked = [mkRange 0x1000 0x1010; mkRange 0x9000 0x9010]
  ∧ flushList marked = [0]
  ∧ overlaps (mkRange 0x1000 0x1010) (mkRange 0x9000 0x9004) = false
  ∧ ∃ m', flushCommit (clearCache_range marked (mkRange 0x9000 0x9004))
          = Done m'
          ∧ regions m' = [].
Proof.
  split; [eapply state_after_reachable with (m := marked); by_run|].
  split; [by_run|]. split; [by_run|]. split; [by_run|].
  eexists. split; by_run.
Qed.

(** C7 on two regions of which the first one has been marked twice, for a
    range across the start of the second one: the list [0; 0; 1] is
    erased as [1; 0]. *)
Lemma clearCache_flushCommit_witness :
  flushList (clearCache_range marked_twice (mkRange 0x8FFF 0x9001)) = [0; 0; 1]
  ∧ unique (sort_desc [0; 0; 1]) = [1; 0]
  ∧ ∃ m', flushCommit (clearCache_range marked_twice (mkRange 0x8FFF 0x9001))
          = Done m'
          ∧ regions m' = [] ∧ flushList m' = [].
Proof.
  split; [by_run|]. split; [by_run|].
  pose proof (clearCache_flushCommit marked_twice (mkRange 0x8FFF 0x9001)) as H.
  specialize (H ltac:(decided)). cbv zeta in H.
  destruct H as [(m' & Hm' & Hregs & _ & _ & _ & Hfl) _].
  exists m'. split; [exact Hm'|]. split; [|exact Hfl].
  rewrite Hregs. vm_compute. reflexivity.
Defined.

(** C8, the claim as stated fails: after the first sample the slot holds
    address 0x1000 and index 0. It still does after [clearCache(rangeSet)],
    which resets the counters, after [eraseRegion] and after
    [clearCache()]. *)
Lemma cache_survives :
  reachable cold
  ∧ searchCache cold = mkSearchCache 0x1000 0
  ∧ (let m' := clearCache_rangeSet cold [mkRange 0x1000 0x1004] in
     total_translated_size m' = 1%Z ∧ total_translation_size m' = 1%Z
     ∧ searchCache m' = mkSearchCache 0x1000 0)
  ∧ (∃ m', eraseRegion cold 0 = Done m'
           ∧ searchCache m' = mkSearchCache 0x1000 0)
  ∧ (∃ m', clearCache cold = Done m'
           ∧ searchCache m' = mkSearchCache 0x1000 0).
Proof.
  split_and!.
  - eapply state_after_reachable with (m := cold). vm_compute. reflexivity.
  - vm_compute. reflexivity.
  - split_and!; vm_compute; reflexivity.
  - eexists. split; vm_compute; reflexivity.
  - eexists. split; vm_compute; reflexivity.
Qed.

(** C8 on the first sample: the commit of an invalidation resets the
    slot. *)
Lemma search_cache_upkeep_witness :
  ∃ m', flushCommit (clearCache_range cold (mkRange 0x1000 0x1004)) = Done m'
        ∧ searchCache m' = mkSearchCache 0 0.
Proof.
  destruct (flushCommit (clearCache_range cold (mkRange 0x1000 0x1004)))
    as [m'| | |] eqn:Hf; [|by vm_compute in Hf..].
  exists m'. split; [reflexivity|].
  refine (proj1 (search_cache_upkeep
                   (clearCache_range cold (mkRange 0x1000 0x1004))) m' _ Hf).
  vm_compute. discriminate.
Defined.

(** C10 on the first sample. *)
Lemma writeBasicBlock_in_bounds_witness :
  writeBasicBlock 3 (newManager : Manager SimpleBlock) (block_at 0x1000 3)
  ≠ Undefined
  ∧ writeBasicBlock 3 (newManager : Manager SimpleBlock) [] = Undefined.
Proof.
  destruct (writeBasicBlock_in_bounds 3 (newManager : Manager SimpleBlock)
              (block_at 0x1000 3) simple_contract reachable_fresh eq_refl)
    as (Hdef & _).
  split; [|reflexivity]. apply Hdef. discriminate.
Defined.


(** C9, where the code leaves the stated rule: the reservation is an
    [unsigned] made from a [float]. After one instruction at 0x400000 and
    one 12 GiB above it the region [0x400000, 0x300400004) has 8 bytes
    translated and 32 bytes free in its block, and the ratio is 33 / 9: the
    reservation for the untranslated bytes is above 47 * 10^9 and the
    stated rule leaves no budget; the code converts the product 11 * 2^32
    to 0 and leaves the 32 bytes. After two instructions at 0x1000 and the
    second one again, 12 bytes are translated of a range of 8: the
    difference wraps to 2^64 - 4, the product is above 2^65 and converts
    to 0, and the budget is all of the 16 bytes that are free. *)
Theorem reservation_truncated :
  reachable wide
  ∧ covered <$> regions wide = [mkRange 0x400000 0x300400004]
  ∧ translated <$> regions wide = [8%Z]
  ∧ available <$> regions wide = [32%Z]
  ∧ total_translation_size wide = 33%Z ∧ total_translated_size wide = 9%Z
  ∧ getEpilogueOffset <$> heap wide !! 0 = Some 32%Z
  ∧ ftrunc (fmul (float_of_Z (wrap64 (0x300000004 - 8)))
                 (getExpansionRatio wide)) = (11 * 2 ^ 32)%Z
  ∧ (∃ m', updateRegionStat wide 0 0 = Done m'
           ∧ available <$> regions m' = [32%Z])
  ∧ (∃ m', updateRegionStat_spec wide 0 0 = Done m'
           ∧ available <$> regions m' = [0%Z])
  ∧ reachable overrun
  ∧ covered <$> regions overrun = [mkRange 0x1000 0x1008]
  ∧ translated <$> regions overrun = [12%Z]
  ∧ available <$> regions overrun = [16%Z]
  ∧ getEpilogueOffset <$> heap overrun !! 0 = Some 16%Z
  ∧ (2 ^ 65 < ftrunc (fmul (float_of_Z (wrap64 (8 - 12)))
                           (getExpansionRatio overrun)))%Z
  ∧ (∃ m', updateRegionStat overrun 0 0 = Done m'
           ∧ available <$> regions m' = [16%Z]).
Proof.
  split; [eapply state_after_reachable with (m := wide); by_run|].
  do 7 (split; [by_run|]).
  split; [eexists; split; by_run|].
  split; [eexists; split; by_run|].
  split; [eapply state_after_reachable with (m := overrun); by_run|].
  do 5 (split; [by_run|]).
  eexists; split; by_run.
Qed.

End OnSampleRuns.

(** * More of the manager *)

(** ** What the operations change *)

Section Shapes.
Context {EB : Type} `{!ExecBlockOps EB} {target : Target}.
Implicit Types m : Manager EB.

Lemma searchRegion_shape m addr :
  (searchRegion m addr).1 = m
  ∨ (searchRegion m addr).1
    = set_searchCache m (mkSearchCache addr (searchRegion m addr).2).
Proof.
  unfold searchRegion. destruct (_ =? _); [by left|].
  destruct (_ =? _)%Z; [by left|by right].
Qed.

(** [findRegion] changes the slot and the array of regions, nothing else:
    the array is left as it is, or one covered range is widened, or one
    region is inserted. *)
Lemma findRegion_shape m cr m' r :
  findRegion m cr = Done (m', r) →
  ∃ rs', m' = set_searchCache (set_regions m rs') (mkSearchCache (start cr) r)
    ∧ ((rs' = regions m ∧ is_Some (regions m !! r))
       ∨ (∃ reg, regions m !! r = Some reg
            ∧ rs' = <[r := set_covered reg (extend (covered reg) cr)]> (regions m))
       ∨ (r ≤ length (regions m)
          ∧ rs' = take r (regions m) ++ new_region cr :: drop r (regions m))).
Proof.
  unfold findRegion.
  pose proof (searchRegion_shape m (start cr)) as Hs.
  pose proof (proj1 (searchRegion_frame m (start cr))) as Hregs.
  destruct (searchRegion m (start cr)) as [m0 low]. cbn [fst snd] in Hs, Hregs.
  rewrite Hregs.
  destruct (candidate_loop _ _ _ _ _ _ _) as [i|[c best]] eqn:Hloop.
  { apply candidate_loop_inl in Hloop as (reg & Hreg & _).
    intros [= <- <-]. exists (regions m). split; [|left; eauto].
    by destruct Hs as [->| ->]. }
  destruct (negb _).
  - destruct (regions m !! best) as [reg|] eqn:Hbest; simpl; [|done].
    intros [= <- <-]. eexists. split; [|right; left; eauto].
    unfold put_region. rewrite Hregs. by destruct Hs as [->| ->].
  - destruct (Nat.leb_spec (insert_scan (drop low (regions m)) cr low)
                           (length (regions m))) as [Hle|]; [|done].
    intros [= <- <-]. eexists. split; [|right; right; eauto].
    by destruct Hs as [->| ->].
Qed.

Lemma set_blocks_id reg : set_blocks reg (blocks reg) = reg.
Proof. by destruct reg. Qed.

Lemma fresh_loc_mono reg reg' loc :
  bbRegistry reg' = bbRegistry reg → blocks reg `prefix_of` blocks reg' →
  fresh_loc reg loc → fresh_loc reg' loc.
Proof.
  intros Hbb [tl Hbl] (Hidx & p & Hp & Hin). split; [by rewrite Hbb|].
  exists p. split; [done|]. rewrite Hbl. apply elem_of_app. by left.
Qed.

Lemma written_refl K r m : is_Some (regions m !! r) → written K r m m.
Proof.
  intros [reg Hreg]. exists reg, reg.
  split_and!; try done; eauto.
  by rewrite list_insert_id.
Qed.

Lemma written_weaken (K K' : Z → Prop) r m m' :
  (∀ k, K k → K' k) → written K r m m' → written K' r m m'.
Proof.
  intros HK (reg & reg' & H). exists reg, reg'.
  destruct H as (?&?&?&?&?&?&?&?&?&?&?&?&?&?&?&Hkeep&?&?&?).
  split_and!; try done. intros k Hk. apply Hkeep. intros Hk'. apply Hk. by apply HK.
Qed.

Lemma written_trans K r m1 m2 m3 :
  written K r m1 m2 → written K r m2 m3 → written K r m1 m3.
Proof.
  intros (reg1 & reg2 & Hr1 & Hrs2 & Hc2 & Hf2 & Hg2 & Ht2 & Hn2 & Hcov2 & Htr2
          & Hav2 & Hbb2 & Han2 & Hbl2 & Hh2 & Hsk2 & Hkeep2 & Hse2 & Hik2 & Hie2).
  intros (reg2' & reg3 & Hr2 & Hrs3 & Hc3 & Hf3 & Hg3 & Ht3 & Hn3 & Hcov3 & Htr3
          & Hav3 & Hbb3 & Han3 & Hbl3 & Hh3 & Hsk3 & Hkeep3 & Hse3 & Hik3 & Hie3).
  pose proof (lookup_lt_Some _ _ _ Hr1) as Hlt.
  rewrite Hrs2, list_lookup_insert_eq in Hr2 by done. injection Hr2 as <-.
  exists reg1, reg3. split_and!; try congruence.
  - by rewrite Hrs3, Hrs2, list_insert_insert_eq.
  - by etrans.
  - intros q Hq. destruct (Hh3 q Hq) as [Hq2|Hq3]; [|by right].
    destruct (Hh2 q Hq2) as [?|Hin]; [by left|right].
    destruct Hbl3 as [tl ->]. apply elem_of_app. by left.
  - eauto.
  - intros k Hk. by rewrite Hkeep3, Hkeep2.
  - intros k loc Hloc. destruct (Hse3 k loc Hloc) as [Hloc2|Hfr]; [|by right].
    destruct (Hse2 k loc Hloc2) as [?|Hfr]; [by left|right].
    by eapply fresh_loc_mono.
  - eauto.
  - intros k il Hil. destruct (Hie3 k il Hil) as [Hil2|?]; [|by right].
    destruct (Hie2 k il Hil2) as [?|Hlt2]; [by left|right].
    apply prefix_length in Hbl3. lia.
Qed.

(** The search for a block changes the blocks of region [r], by one new
    block at most, and the heap; the index it returns is the place of the
    block in the region. *)
Lemma block_loop_shape m r reg pre bs i ps t m' i' p res :
  regions m !! r = Some reg → blocks reg = pre ++ bs → length pre = i →
  block_loop m r bs i ps t = Done (m', i', p, res) →
  ∃ new,
    regions m' = <[r := set_blocks reg (blocks reg ++ new)]> (regions m)
    ∧ searchCache m' = searchCache m ∧ flushList m' = flushList m
    ∧ globalAnalysisCache m' = globalAnalysisCache m
    ∧ total_translated_size m' = total_translated_size m
    ∧ total_translation_size m' = total_translation_size m
    ∧ (blocks reg ++ new) !! i' = Some p
    ∧ (∀ q, is_Some (heap m' !! q) → is_Some (heap m !! q) ∨ q ∈ new).
Proof.
  revert m pre i. induction bs as [|q bs IH]; intros m pre i Hreg Hpre Hlen.
  - cbn [block_loop]. rewrite Hreg. simpl.
    destruct (writeSequence newExecBlock ps t) as [b res'].
    destruct (_ =? _)%Z; [done|]. intros [= <- <- <- <-].
    exists [nextBlock m]. simpl. split_and!; try done.
    + rewrite app_nil_r in Hpre. rewrite lookup_app_r by (rewrite Hpre; lia).
      rewrite Hpre, Hlen, Nat.sub_diag. done.
    + intros q' Hq'. destruct (decide (q' = nextBlock m)) as [->|Hne].
      * right. apply list_elem_of_here.
      * left. by rewrite lookup_insert_ne in Hq'.
  - cbn [block_loop]. destruct (heap m !! q) as [b|] eqn:Hq; simpl; [|done].
    destruct (writeSequence b ps t) as [b' res'].
    assert (Hheap : ∀ q', is_Some (<[q := b']> (heap m) !! q') →
                          is_Some (heap m !! q')).
    { intros q' Hq'. destruct (decide (q' = q)) as [->|Hne]; [eauto|].
      by rewrite lookup_insert_ne in Hq'. }
    destruct (_ =? _)%Z.
    + intros Hloop.
      apply (IH (set_heap m (<[q := b']> (heap m))) (pre ++ [q]) (S i)) in Hloop
        as (new & Hrs & ? & ? & ? & ? & ? & Hp & Hh); [|done| |].
      * exists new. split_and!; try done.
        intros q' Hq'. destruct (Hh q' Hq') as [Hq1|?]; [left|by right].
        by apply Hheap.
      * by rewrite <- app_assoc.
      * rewrite length_app. simpl. lia.
    + intros [= <- <- <- <-]. exists []. simpl. rewrite app_nil_r.
      split_and!; try done.
      * by rewrite set_blocks_id, list_insert_id.
      * rewrite Hpre, lookup_app_r by lia. by rewrite Hlen, Nat.sub_diag.
      * intros q' Hq'. left. by apply Hheap.
Qed.

Lemma inst_loop_entries n basicBlock ic i patchIdx startID id ic' :
  inst_loop n basicBlock ic i patchIdx startID id = Done ic' →
  ∀ k il, ic' !! k = Some il →
    ic !! k = Some il ∨ blockIdx il = wrap16 (Z.of_nat i).
Proof.
  revert ic id. induction n as [|n IH]; intros ic id; cbn [inst_loop].
  { intros [= <-]. eauto. }
  destruct (basicBlock !! _) as [p|]; simpl; [|done].
  intros Hloop k il Hil. destruct (IH _ _ Hloop k il Hil) as [Hk|?]; [|by right].
  apply lookup_insert_Some in Hk as [[_ <-]|[_ ?]]; [by right|by left].
Qed.

Lemma inst_cache_loop_entries basicBlock ic i patchIdx startID endID ic' :
  inst_cache_loop basicBlock ic i patchIdx startID endID = Done ic' →
  ∀ k il, ic' !! k = Some il →
    ic !! k = Some il ∨ blockIdx il = wrap16 (Z.of_nat i).
Proof.
  unfold inst_cache_loop.
  destruct (inst_loop _ _ _ _ _ _ _) as [ic1| | |] eqn:Hloop; simpl; [|done..].
  destruct (_ =? _)%Z; [by destruct (_ && _)|].
  intros [= <-]. by eapply inst_loop_entries.
Qed.

Lemma wrap16_le n : Z.to_nat (wrap16 (Z.of_nat n)) ≤ n.
Proof.
  unfold wrap16, wrap.
  pose proof (Z.mod_le (Z.of_nat n) (2 ^ 16)). pose proof (Z.mod_pos_bound (Z.of_nat n) (2 ^ 16)).
  lia.
Qed.

(** A turn of the write loop writes one sequence, at the address of the
    patch it starts from. *)
Lemma write_turn_written m r basicBlock patchEnd patchIdx t1 t2 m' idx' t1' t2' :
  write_turn m r basicBlock patchEnd patchIdx t1 t2 = Done (m', idx', t1', t2') →
  ∃ first reg' loc,
    basicBlock !! patchIdx = Some first
    ∧ written (λ k, k = address (metadata first)) r m m'
    ∧ regions m' !! r = Some reg'
    ∧ sequenceCache reg' !! address (metadata first) = Some loc
    ∧ fresh_loc reg' loc.
Proof.
  unfold write_turn.
  destruct (regions m !! r) as [reg|] eqn:Hreg; simpl; [|done].
  pose proof (lookup_lt_Some _ _ _ Hreg) as Hlt.
  destruct (block_loop _ _ _ _ _ _) as [[[[m1 i] p] res]| | |] eqn:Hbl;
    simpl; [|done..].
  apply (block_loop_shape m r reg [] (blocks reg) 0) in Hbl
    as (new & Hrs1 & Hc1 & Hf1 & Hg1 & Ht1 & Hn1 & Hp & Hh1); [|done..].
  rewrite Hrs1, list_lookup_insert_eq by done. simpl.
  destruct (basicBlock !! patchIdx) as [first|] eqn:Hfirst; simpl; [|done].
  destruct (heap m1 !! p) as [b|]; simpl; [|done].
  destruct (inst_cache_loop _ _ _ _ _ _) as [ic| | |] eqn:Hic; simpl; [|done..].
  destruct (if (_ <? 0)%Z then _ else _) as [last|]; simpl; [|done].
  intros [= <- <- <- <-].
  pose proof (inst_cache_loop_mono _ _ _ _ _ _ _ Hic) as Hmono.
  pose proof (inst_cache_loop_entries _ _ _ _ _ _ _ Hic) as Hent.
  simpl in Hmono, Hent.
  set (loc := mkSeqLoc (Some p) (res_seqID res)
                (wrap16 (Z.of_nat (length (bbRegistry reg)) - 1))).
  set (reg' := set_instCache
                 (set_sequenceCache (set_blocks reg (blocks reg ++ new))
                    (<[address (metadata first) := loc]> (sequenceCache reg)))
                 ic).
  assert (Hfresh : fresh_loc reg' loc).
  { split; [done|]. exists p. split; [done|]. by eapply list_elem_of_lookup_2. }
  exists first, reg', loc. split_and!; try done.
  - exists reg, reg'. simpl. split_and!; try done.
    + by rewrite Hrs1, list_insert_insert_eq.
    + by apply prefix_app_r.
    + intros q Hq. destruct (Hh1 q Hq) as [?|Hin]; [by left|right].
      apply elem_of_app. by right.
    + intros k Hk. destruct (decide (k = address (metadata first))) as [->|Hne].
      * rewrite lookup_insert_eq. eauto.
      * by rewrite lookup_insert_ne.
    + intros k Hk. by rewrite lookup_insert_ne.
    + intros k loc' [[_ <-]|[_ ?]]%lookup_insert_Some; [by right|by left].
    + intros k il Hil. destruct (Hent k il Hil) as [?|Hidx]; [by left|right].
      rewrite Hidx. pose proof (wrap16_le i). apply lookup_lt_Some in Hp. lia.
  - simpl. rewrite list_lookup_insert_eq; [done|].
    rewrite Hrs1, length_insert. done.
  - simpl. apply lookup_insert_eq.
Qed.

Lemma starts_below_turn basicBlock patchEnd patchIdx first k :
  patchIdx < patchEnd → basicBlock !! patchIdx = Some first →
  k = address (metadata first) → starts_below basicBlock patchEnd k.
Proof. intros. by exists patchIdx, first. Qed.

(** The write loop writes sequences at addresses of patches below
    [patchEnd], and the sequence of the first one is there at the end. *)
Lemma write_loop_written fuel m r basicBlock patchEnd patchIdx t1 t2 m' t1' t2' :
  is_Some (regions m !! r) →
  write_loop fuel m r basicBlock patchEnd patchIdx t1 t2 = Done (m', t1', t2') →
  written (starts_below basicBlock patchEnd) r m m'
  ∧ (patchIdx < patchEnd →
     ∃ first reg' loc,
       basicBlock !! patchIdx = Some first
       ∧ regions m' !! r = Some reg'
       ∧ sequenceCache reg' !! address (metadata first) = Some loc
       ∧ fresh_loc reg' loc).
Proof.
  revert m patchIdx t1 t2.
  induction fuel as [|fuel IH]; intros m patchIdx t1 t2 Hr; cbn [write_loop];
    (destruct (Nat.leb_spec patchEnd patchIdx) as [Hge|Hlt];
       [intros [= <- <- <-]; split; [by apply written_refl|lia]|]); [done|].
  destruct (write_turn _ _ _ _ _ _ _) as [[[[m1 idx1] u1] u2]| | |] eqn:Hturn;
    simpl; [|done..].
  apply write_turn_written in Hturn
    as (first & reg1 & loc & Hfirst & Hw1 & Hreg1 & Hloc & Hfresh).
  intros Hloop. apply IH in Hloop as [Hw2 _]; [|eauto].
  split.
  - eapply written_trans; [|done].
    eapply written_weaken; [|done]. intros k. by apply (starts_below_turn _ _ patchIdx first).
  - intros _.
    destruct Hw2 as (reg1' & reg' & Hr1 & Hrs & _ & _ & _ & _ & _ & _ & _ & _
                     & Hbb & _ & Hbl & _ & Hkeys & _ & Hse & _).
    rewrite Hreg1 in Hr1. injection Hr1 as <-.
    destruct (Hkeys (address (metadata first))) as [loc' Hloc']; [eauto|].
    exists first, reg', loc'. split_and!; [done| |done|].
    + rewrite Hrs. apply list_lookup_insert_eq. eauto using lookup_lt_Some.
    + destruct (Hse _ _ Hloc') as [Hold|?]; [|done].
      rewrite Hloc in Hold. injection Hold as <-. by eapply fresh_loc_mono.
Qed.

Lemma truncation_not_key sc basicBlock j p :
  j < truncation sc basicBlock → basicBlock !! j = Some p →
  sc !! address (metadata p) = None.
Proof.
  revert j. induction basicBlock as [|q rest IH]; intros j; simpl; [lia|].
  destruct (sc !! address (metadata q)) eqn:Hq; [lia|].
  destruct j as [|j]; simpl.
  - by intros _ [= <-].
  - intros Hj. apply IH. lia.
Qed.

(** [writeBasicBlock] as a whole: the region is chosen by [findRegion];
    when the first patch is a key of its sequence cache nothing more is
    done; otherwise the block is registered, the write loop runs, and the
    counters of the manager and of the region are updated. *)
Lemma writeBasicBlock_shape fuel m basicBlock m' :
  writeBasicBlock fuel m basicBlock = Done m' →
  ∃ firstPatch lastPatch m0 r reg0,
    head basicBlock = Some firstPatch ∧ last basicBlock = Some lastPatch
    ∧ findRegion m (code_range firstPatch lastPatch) = Done (m0, r)
    ∧ regions m0 !! r = Some reg0
    ∧ ((is_Some (sequenceCache reg0 !! address (metadata firstPatch)) ∧ m' = m0)
       ∨ (sequenceCache reg0 !! address (metadata firstPatch) = None
          ∧ ∃ m4 reg4 loc tr av u1 u2,
              written
                (starts_below basicBlock
                   (truncation (sequenceCache reg0) basicBlock)) r
                (put_region m0 r
                   (set_bbRegistry reg0
                      (bbRegistry reg0
                       ++ [mkBBInfo (address (metadata firstPatch))
                             (end_ (code_range firstPatch lastPatch))])))
                m4
              ∧ regions m4 !! r = Some reg4
              ∧ sequenceCache reg4 !! address (metadata firstPatch) = Some loc
              ∧ fresh_loc reg4 loc
              ∧ m' = put_region (set_totals m4 u1 u2) r (set_stat reg4 tr av))).
Proof.
  unfold writeBasicBlock.
  destruct (head basicBlock) as [firstPatch|] eqn:Hhead; simpl; [|done].
  destruct (last basicBlock) as [lastPatch|] eqn:Hlast; simpl; [|done].
  destruct (findRegion m _) as [[m0 r]| | |] eqn:Hfind; simpl; [|done..].
  destruct (regions m0 !! r) as [reg0|] eqn:Hreg0; simpl; [|done].
  pose proof (lookup_lt_Some _ _ _ Hreg0) as Hlt.
  destruct (Nat.eqb_spec (truncation (sequenceCache reg0) basicBlock) 0)
    as [Hz|Hnz].
  { intros [= <-]. exists firstPatch, lastPatch, m0, r, reg0.
    split_and!; try done. left. split; [|done]. by eapply truncation_zero. }
  destruct (write_loop _ _ _ _ _ _ _ _) as [[[m4 u1] u2]| | |] eqn:Hloop;
    simpl; [|done..].
  apply write_loop_written in Hloop as [Hw Hfirst].
  2:{ simpl. apply lookup_lt_is_Some. by rewrite length_insert. }
  destruct Hfirst as (first & reg4 & loc & Hf & Hreg4 & Hloc & Hfresh); [lia|].
  assert (first = firstPatch) as ->.
  { destruct basicBlock; simpl in *; congruence. }
  intros (reg5 & tr & av & Hreg5 & ->)%updateRegionStat_inv.
  simpl in Hreg5. rewrite Hreg4 in Hreg5. injection Hreg5 as <-.
  exists firstPatch, lastPatch, m0, r, reg0. split_and!; try done. right.
  split.
  { apply (truncation_not_key _ basicBlock 0); [lia|].
    by destruct basicBlock. }
  eexists m4, reg4, loc, tr, av, _, _. split_and!; done.
Qed.

(** [getSeqLoc] answers from the sequence cache of the region that
    [searchRegion] finds, or with nil, and then changes the slot at most;
    or it splits: the registry takes one more basic block, the sequence
    cache the new location (and a nil location under the start of the
    enclosing sequence when that is not a key), the block is replaced by
    the split block. *)
Lemma getSeqLoc_shape m addr m' seqLoc :
  getSeqLoc m addr = Done (m', seqLoc) →
  let m0 := (searchRegion m addr).1 in
  let r := (searchRegion m addr).2 in
  (m' = m0
   ∧ (seqLoc = nil_SeqLoc
      ∨ ∃ reg, regions m0 !! r = Some reg
          ∧ contains_addr (covered reg) addr = true
          ∧ sequenceCache reg !! addr = Some seqLoc))
  ∨ ∃ reg instLoc p block sc bb,
      regions m0 !! r = Some reg
      ∧ contains_addr (covered reg) addr = true
      ∧ sequenceCache reg !! addr = None
      ∧ instCache reg !! addr = Some instLoc
      ∧ blocks reg !! Z.to_nat (blockIdx instLoc) = Some p
      ∧ heap m0 !! p = Some block
      ∧ (sc = sequenceCache reg
         ∨ ∃ k, sequenceCache reg !! k = None
             ∧ sc = <[k := nil_SeqLoc]> (sequenceCache reg))
      ∧ execBlock seqLoc = Some p
      ∧ seqID seqLoc = wrap16 (splitSequence block (instID instLoc)).2
      ∧ bbIdx seqLoc = wrap16 (Z.of_nat (length (bbRegistry reg ++ [bb])) - 1)
      ∧ bb_start bb = addr
      ∧ m' = set_heap
               (put_region m0 r
                  (set_sequenceCache
                     (set_bbRegistry reg (bbRegistry reg ++ [bb]))
                     (<[addr := seqLoc]> sc)))
               (<[p := (splitSequence block (instID instLoc)).1]> (heap m0)).
Proof.
  unfold getSeqLoc. destruct (searchRegion m addr) as [m0 r]. simpl.
  destruct (regions m0 !! r) as [reg|] eqn:Hreg;
    [|intros [= <- <-]; left; eauto].
  destruct (contains_addr _ _) eqn:Hin; [|intros [= <- <-]; left; eauto].
  destruct (sequenceCache reg !! addr) as [sl|] eqn:Hsl.
  { intros [= <- <-]. left. split; [done|]. right. eauto. }
  destruct (instCache reg !! addr) as [instLoc|] eqn:Hil;
    [|intros [= <- <-]; left; eauto].
  destruct (blocks reg !! _) as [p|] eqn:Hp; simpl; [|done].
  destruct (heap m0 !! p) as [block|] eqn:Hblock; simpl; [|done].
  destruct (sequenceCache reg !! getInstAddress block _) as [existing|] eqn:Hex;
    (destruct (bbRegistry reg !! _) as [bb|]; simpl; [|done]);
    destruct (splitSequence block _) as [block' newSeqID] eqn:Hsplit;
    intros [= <- <-]; right;
    eexists reg, instLoc, p, block, _, (mkBBInfo addr (bb_end bb));
    split_and!; try done; try (by rewrite Hsplit); eauto.
Qed.

End Shapes.

(** ** Live blocks and cache entries, on reachable states *)

Section Tidy.
Context {EB : Type} `{!ExecBlockOps EB} {target : Target}.
Implicit Types m : Manager EB.

Lemma set_covered_id reg : set_covered reg (covered reg) = reg.
Proof. by destruct reg. Qed.

Lemma no_leak_ext m m' :
  regions m' = regions m → heap m' = heap m → no_leak m → no_leak m'.
Proof. unfold no_leak. by intros -> ->. Qed.

Lemma caches_in_bounds_ext m m' :
  regions m' = regions m → caches_in_bounds m → caches_in_bounds m'.
Proof. unfold caches_in_bounds. by intros ->. Qed.

Lemma no_leak_put_region m r reg reg' :
  no_leak m → regions m !! r = Some reg → blocks reg' = blocks reg →
  no_leak (put_region m r reg').
Proof.
  intros H Hr Hb. unfold no_leak. simpl. rewrite list_fmap_insert, Hb.
  rewrite list_insert_id; [done|]. by rewrite list_lookup_fmap, Hr.
Qed.

Lemma no_leak_set_heap m p b :
  is_Some (heap m !! p) → no_leak m →
  no_leak (set_heap m (<[p := b]> (heap m))).
Proof.
  intros Hp H q Hq. apply H. simpl in Hq.
  destruct (decide (q = p)) as [->|Hne]; [done|].
  by rewrite lookup_insert_ne in Hq.
Qed.

Lemma wrap16_last n : 0 < n → Z.to_nat (wrap16 (Z.of_nat n - 1)) < n.
Proof.
  intros Hn. unfold wrap16, wrap.
  pose proof (Z.mod_le (Z.of_nat n - 1) (2 ^ 16)).
  pose proof (Z.mod_pos_bound (Z.of_nat n - 1) (2 ^ 16)). lia.
Qed.

(** The regions after [findRegion] are the regions before, one of them
    widened at most, and one new region at most. *)
Lemma findRegion_regions m cr m' r :
  findRegion m cr = Done (m', r) →
  heap m' = heap m ∧ flushList m' = flushList m
  ∧ length (regions m) ≤ length (regions m')
  ∧ (∀ reg', reg' ∈ regions m' →
       reg' = new_region cr
       ∨ ∃ reg c, reg ∈ regions m ∧ reg' = set_covered reg c)
  ∧ (∀ i reg, regions m !! i = Some reg →
       ∃ i' c, regions m' !! i' = Some (set_covered reg c)
               ∧ contains c (covered reg) = true).
Proof.
  intros (rs' & -> & Hrs)%findRegion_shape. simpl.
  split; [done|]. split; [done|].
  destruct Hrs as [[-> _]|[(reg0 & Hreg0 & ->)|[Hle ->]]].
  - split; [done|]. split.
    + intros reg' Hin. right. exists reg', (covered reg').
      by rewrite set_covered_id.
    + intros i reg Hi. exists i, (covered reg).
      rewrite set_covered_id. split; [done|]. apply contains_refl.
  - rewrite length_insert. split; [done|]. split.
    + intros reg' [j Hj]%list_elem_of_lookup.
      apply list_lookup_insert_Some in Hj as [(<- & <- & _)|[_ Hj]]; right.
      * exists reg0, (extend (covered reg0) cr). split; [|done].
        by eapply list_elem_of_lookup_2.
      * exists reg', (covered reg'). rewrite set_covered_id. split; [|done].
        by eapply list_elem_of_lookup_2.
    + intros i reg Hi. destruct (decide (i = r)) as [->|Hne].
      * exists r, (extend (covered reg0) cr).
        rewrite Hreg0 in Hi. injection Hi as <-.
        rewrite list_lookup_insert_eq by eauto using lookup_lt_Some.
        split; [done|]. unfold contains. apply andb_true_iff.
        rewrite !Z.leb_le. apply extend_bounds.
      * exists i, (covered reg). rewrite set_covered_id.
        rewrite list_lookup_insert_ne by done. split; [done|].
        apply contains_refl.
  - split; [rewrite length_app, length_take; simpl; rewrite length_drop; lia|].
    split.
    + intros reg' [Hin|Hin]%elem_of_app.
      * right. exists reg', (covered reg'). rewrite set_covered_id.
        apply elem_of_take in Hin as (j & Hj & _).
        split; [|done]. by eapply list_elem_of_lookup_2.
      * apply elem_of_cons in Hin as [->|Hin]; [by left|right].
        exists reg', (covered reg'). rewrite set_covered_id.
        apply elem_of_drop_lookup in Hin as (j & _ & Hj).
        split; [|done]. by eapply list_elem_of_lookup_2.
    + intros i reg Hi. exists (if decide (i < r) then i else S i), (covered reg).
      rewrite set_covered_id. split; [|apply contains_refl].
      destruct (decide (i < r)) as [Hlt|Hge].
      * rewrite lookup_app_l by (rewrite length_take; lia).
        by rewrite lookup_take_lt.
      * rewrite lookup_app_r by (rewrite length_take; lia).
        rewrite length_take. replace (r `min` length (regions m)) with r by lia.
        replace (S i - r) with (S (i - r)) by lia. simpl.
        rewrite lookup_drop. by replace (r + (i - r)) with i by lia.
Qed.

Lemma region_in_bounds_covered reg c :
  region_in_bounds reg → region_in_bounds (set_covered reg c).
Proof. done. Qed.

Lemma region_in_bounds_new cr : region_in_bounds (new_region cr).
Proof. split; intros k x Hx; simpl in Hx; by rewrite lookup_empty in Hx. Qed.

Lemma findRegion_tidy m cr m' r :
  no_leak m → caches_in_bounds m → findRegion m cr = Done (m', r) →
  no_leak m' ∧ caches_in_bounds m'.
Proof.
  intros Hl Hb (Hh & _ & _ & Hnew & Hold)%findRegion_regions. split.
  - intros p Hp. rewrite Hh in Hp. destruct (Hl p Hp) as (bs & Hbs & Hin).
    apply list_elem_of_fmap in Hbs as (reg & -> & Hreg).
    apply list_elem_of_lookup in Hreg as [i Hi].
    destruct (Hold i reg Hi) as (i' & c & Hi' & _).
    exists (blocks reg). split; [|done].
    apply list_elem_of_fmap. exists (set_covered reg c). split; [done|].
    by eapply list_elem_of_lookup_2.
  - apply Forall_forall. intros reg' Hreg'.
    destruct (Hnew reg' Hreg') as [->|(reg & c & Hreg & ->)].
    + apply region_in_bounds_new.
    + apply region_in_bounds_covered.
      unfold caches_in_bounds in Hb. rewrite Forall_forall in Hb. by apply Hb.
Qed.

Lemma written_tidy K r m m' :
  written K r m m' → no_leak m → caches_in_bounds m →
  (∀ reg, regions m !! r = Some reg → bbRegistry reg ≠ []) →
  no_leak m' ∧ caches_in_bounds m'.
Proof.
  intros (reg & reg' & Hr & Hrs & _ & _ & _ & _ & _ & _ & _ & _ & Hbb & _
          & Hbl & Hh & _ & _ & Hse & _ & Hie) Hl Hb Hne.
  pose proof (lookup_lt_Some _ _ _ Hr) as Hlt.
  specialize (Hne reg Hr).
  split.
  - intros q Hq.
    assert (Hin' : blocks reg' ∈ blocks <$> regions m').
    { apply list_elem_of_fmap. exists reg'. split; [done|].
      rewrite Hrs. by apply list_elem_of_insert. }
    destruct (Hh q Hq) as [Hq0|Hin]; [|by exists (blocks reg')].
    destruct (Hl q Hq0) as (bs & Hbs & Hqbs).
    apply list_elem_of_fmap in Hbs as (reg0 & -> & Hreg0).
    apply list_elem_of_lookup in Hreg0 as [i Hi].
    destruct (decide (i = r)) as [->|Hir].
    + rewrite Hr in Hi. injection Hi as <-.
      exists (blocks reg'). split; [done|].
      destruct Hbl as [tl ->]. apply elem_of_app. by left.
    + exists (blocks reg0). split; [|done].
      apply list_elem_of_fmap. exists reg0. split; [done|].
      rewrite Hrs. apply (list_elem_of_lookup_2 _ i).
      by rewrite list_lookup_insert_ne.
  - unfold caches_in_bounds. rewrite Hrs. apply Forall_insert; [done|].
    pose proof (Forall_lookup_1 _ _ _ _ Hb Hr) as [Hs Hi].
    pose proof (prefix_length _ _ Hbl) as Hlen.
    split.
    + intros k loc Hloc. rewrite Hbb.
      destruct (Hse k loc Hloc) as [Hold|(Hidx & p & Hp & Hin)].
      * destruct (Hs k loc Hold) as [? Hblk]. split; [done|].
        intros p Hp. destruct Hbl as [tl ->]. apply elem_of_app. left. eauto.
      * split.
        -- rewrite Hidx, Hbb. apply wrap16_last. destruct (bbRegistry reg); simpl; [done|lia].
        -- intros p' Hp'. congruence.
    + intros k il Hil. rewrite Hbb. split; [|done].
      destruct (Hie k il Hil) as [Hold|?]; [|done].
      destruct (Hi k il Hold). lia.
Qed.

Lemma region_in_bounds_push reg l :
  region_in_bounds reg →
  region_in_bounds (set_bbRegistry reg (bbRegistry reg ++ l)).
Proof.
  intros [Hs Hi]. split; simpl.
  - intros k loc Hloc. destruct (Hs k loc Hloc). split; [|done].
    rewrite length_app. lia.
  - intros k il Hil. destruct (Hi k il Hil) as [? Hne]. split; [done|].
    by destruct (bbRegistry reg).
Qed.

Lemma caches_in_bounds_put m r reg :
  caches_in_bounds m → region_in_bounds reg →
  caches_in_bounds (put_region m r reg).
Proof. intros. by apply Forall_insert. Qed.

Lemma writeBasicBlock_tidy fuel m basicBlock m' :
  no_leak m → caches_in_bounds m →
  writeBasicBlock fuel m basicBlock = Done m' →
  no_leak m' ∧ caches_in_bounds m'.
Proof.
  intros Hl Hb (firstPatch & lastPatch & m0 & r & reg0 & _ & _ & Hfind & Hreg0
                & Hcase)%writeBasicBlock_shape.
  destruct (findRegion_tidy _ _ _ _ Hl Hb Hfind) as [Hl0 Hb0].
  destruct Hcase as [[_ ->]|(_ & m4 & reg4 & loc & tr & av & u1 & u2 & Hw & Hreg4
                             & _ & _ & ->)]; [done|].
  pose proof (lookup_lt_Some _ _ _ Hreg0) as Hlt.
  apply written_tidy in Hw as [Hl4 Hb4].
  - split.
    + apply (no_leak_put_region (set_totals m4 u1 u2) r reg4); done.
    + apply (caches_in_bounds_put (set_totals m4 u1 u2)); [done|].
      exact (Forall_lookup_1 _ _ _ _ Hb4 Hreg4).
  - by apply (no_leak_put_region m0 r reg0).
  - apply caches_in_bounds_put; [done|]. apply region_in_bounds_push.
    exact (Forall_lookup_1 _ _ _ _ Hb0 Hreg0).
  - intros reg. simpl. rewrite list_lookup_insert_eq by done.
    intros [= <-]. simpl. by destruct (bbRegistry reg0).
Qed.

Lemma searchRegion_tidy m addr :
  no_leak m → caches_in_bounds m →
  no_leak (searchRegion m addr).1 ∧ caches_in_bounds (searchRegion m addr).1.
Proof.
  intros Hl Hb. destruct (searchRegion_frame m addr) as (Hr & Hh & _).
  split; [by eapply no_leak_ext|by eapply caches_in_bounds_ext].
Qed.

Lemma getSeqLoc_tidy m addr m' seqLoc :
  no_leak m → caches_in_bounds m →
  getSeqLoc m addr = Done (m', seqLoc) →
  no_leak m' ∧ caches_in_bounds m'.
Proof.
  intros Hl Hb Hget.
  destruct (searchRegion_tidy m addr Hl Hb) as [Hl0 Hb0].
  apply getSeqLoc_shape in Hget. cbv zeta in Hget.
  set (m0 := (searchRegion m addr).1) in *.
  set (r := (searchRegion m addr).2) in *.
  destruct Hget as [[-> _]|(reg & instLoc & p & block & sc & bb & Hreg & _ & Hnone
                           & Hil & Hp & Hblock & Hsc & Hexec & _ & Hidx & _ & ->)];
    [done|].
  split.
  - apply (no_leak_set_heap (put_region _ _ _)); [simpl; eauto|].
    by apply (no_leak_put_region _ r reg).
  - unfold caches_in_bounds. simpl. apply Forall_insert; [done|].
    destruct (Forall_lookup_1 _ _ _ _ Hb0 Hreg) as [Hs Hi].
    destruct (Hi _ _ Hil) as [_ Hne].
    assert (Hlen : ∀ loc, Z.to_nat (bbIdx loc) < length (bbRegistry reg) →
              Z.to_nat (bbIdx loc) < length (bbRegistry reg ++ [bb])).
    { intros loc. rewrite length_app. lia. }
    assert (Hsc' : ∀ k loc, sc !! k = Some loc →
              Z.to_nat (bbIdx loc) < length (bbRegistry reg ++ [bb])
              ∧ ∀ q, execBlock loc = Some q → q ∈ blocks reg).
    { intros k loc Hloc.
      destruct Hsc as [->|(k0 & _ & ->)].
      - destruct (Hs k loc Hloc). eauto.
      - apply lookup_insert_Some in Hloc as [[_ <-]|[_ Hloc]].
        + split; [|done]. rewrite length_app. simpl. lia.
        + destruct (Hs k loc Hloc). eauto. }
    split; simpl.
    + intros k loc [[_ <-]|[_ Hloc]]%lookup_insert_Some; [|by eapply Hsc'].
      split.
      * rewrite Hidx. apply wrap16_last. rewrite length_app. simpl. lia.
      * intros q Hq. rewrite Hexec in Hq. injection Hq as <-.
        by eapply list_elem_of_lookup_2.
    + intros k il Hk. destruct (Hi k il Hk). split; [done|].
      by destruct (bbRegistry reg).
Qed.

(** The block of a sequence that [getSeqLoc] returns belongs to a region. *)
Lemma getSeqLoc_block m addr m' seqLoc p :
  caches_in_bounds m → getSeqLoc m addr = Done (m', seqLoc) →
  execBlock seqLoc = Some p →
  ∃ reg', reg' ∈ regions m' ∧ p ∈ blocks reg'.
Proof.
  intros Hb Hget Hp.
  assert (Hb0 : caches_in_bounds (searchRegion m addr).1).
  { eapply caches_in_bounds_ext; [|done]. apply searchRegion_frame. }
  apply getSeqLoc_shape in Hget. cbv zeta in Hget.
  destruct Hget as [[-> [->|(reg & Hreg & _ & Hloc)]]
                   |(reg & instLoc & q & block & sc & bb & Hreg & _ & _
                     & _ & Hq & _ & _ & Hexec & _ & _ & _ & ->)].
  - done.
  - exists reg. split; [by eapply list_elem_of_lookup_2|].
    destruct (Forall_lookup_1 _ _ _ _ Hb0 Hreg) as [Hs _].
    destruct (Hs _ _ Hloc) as [_ Hblk]. by apply Hblk.
  - eexists. split.
    + simpl. apply list_elem_of_insert. eauto using lookup_lt_Some.
    + simpl. rewrite Hexec in Hp. injection Hp as <-.
      by eapply list_elem_of_lookup_2.
Qed.

Lemma getExecBlock_tidy m addr m' b :
  no_leak m → caches_in_bounds m →
  getExecBlock m addr = Done (m', b) →
  no_leak m' ∧ caches_in_bounds m'.
Proof.
  intros Hl Hb. unfold getExecBlock.
  destruct (getSeqLoc m addr) as [[m1 seqLoc]| | |] eqn:Hget; simpl; [|done..].
  apply getSeqLoc_tidy in Hget as [Hl1 Hb1]; [|done..].
  destruct (execBlock seqLoc) as [p|]; [|by intros [= <- <-]].
  destruct (heap m1 !! p) as [blk|] eqn:Hp; simpl; [|done].
  intros [= <- <-]. split; [|done]. apply no_leak_set_heap; eauto.
Qed.

Lemma getBBInfo_tidy m addr m' b :
  no_leak m → caches_in_bounds m → getBBInfo m addr = Done (m', b) →
  no_leak m' ∧ caches_in_bounds m'.
Proof.
  intros Hl Hb. unfold getBBInfo.
  pose proof (searchRegion_tidy m addr Hl Hb) as H0.
  destruct (searchRegion m addr) as [m0 r]. simpl in H0.
  destruct (regions m0 !! r) as [reg|]; [|by intros [= <- <-]].
  destruct (contains_addr _ _); [|by intros [= <- <-]].
  destruct (sequenceCache reg !! addr) as [sl|]; [|by intros [= <- <-]].
  destruct (bbRegistry reg !! _) as [bb|]; simpl; [|done].
  by intros [= <- <-].
Qed.

Lemma analyzeInstMetadata_tidy m meta type m' a :
  analyzeInstMetadata m meta type = Done (m', a) →
  no_leak m → caches_in_bounds m →
  no_leak m' ∧ caches_in_bounds m'.
Proof.
  intros Hrun Hl Hb. apply analyzeInstMetadata_inv in Hrun.
  destruct meta as [meta|]; [|by destruct Hrun as [-> _]].
  pose proof (searchRegion_tidy m (address meta) Hl Hb) as [Hl0 Hb0].
  destruct (searchRegion m (address meta)) as [m0 r]. simpl in *.
  destruct Hrun as [[-> _]|(a0 & _ & _ & _ & _ & _ & [(reg & Hreg & _ & ->)|[_ ->]])];
    [done| |done].
  split.
  - by apply (no_leak_put_region m0 r reg).
  - apply caches_in_bounds_put; [done|].
    exact (Forall_lookup_1 _ _ _ _ Hb0 Hreg).
Qed.

Lemma clearCache_rangeSet_tidy m ranges :
  no_leak m → caches_in_bounds m →
  no_leak (clearCache_rangeSet m ranges)
  ∧ caches_in_bounds (clearCache_rangeSet m ranges).
Proof.
  unfold clearCache_rangeSet, no_leak, caches_in_bounds. simpl.
  revert m. induction ranges as [|range ranges IH]; intros m Hl Hb; [done|].
  simpl. by apply IH.
Qed.

Lemma eraseRegion_tidy m r m' :
  no_leak m → caches_in_bounds m → eraseRegion m r = Done m' →
  no_leak m' ∧ caches_in_bounds m'.
Proof.
  intros Hl Hb. unfold eraseRegion.
  destruct (regions m !! r) as [reg|] eqn:Hreg; simpl; [|done].
  intros [= <-]. split; [|by apply Forall_delete].
  intros p Hp. simpl in Hp.
  destruct (decide (p ∈ blocks reg)) as [Hin|Hnin].
  { exfalso. clear -Hp Hin. induction (blocks reg) as [|q l IH]; simpl in *.
    - by apply elem_of_nil in Hin.
    - destruct (decide (p = q)) as [->|Hne].
      + rewrite lookup_delete_eq in Hp. by destruct Hp.
      + rewrite lookup_delete_ne in Hp by done.
        apply elem_of_cons in Hin as [?|Hin]; [done|]. by apply IH. }
  rewrite lookup_foldr_delete in Hp by done.
  destruct (Hl p Hp) as (bs & Hbs & Hpbs).
  exists bs. split; [|done]. simpl.
  apply list_elem_of_fmap in Hbs as (reg0 & -> & Hreg0).
  apply list_elem_of_lookup in Hreg0 as [i Hi].
  apply list_elem_of_fmap. exists reg0. split; [done|].
  assert (i ≠ r) as Hne by (intros ->; congruence).
  destruct (decide (i < r)).
  - apply (list_elem_of_lookup_2 _ i). by rewrite list_lookup_delete_lt.
  - apply (list_elem_of_lookup_2 _ (i - 1)).
    rewrite list_lookup_delete_ge by lia. by replace (S (i - 1)) with i by lia.
Qed.

Lemma erase_all_tidy m l m' :
  no_leak m → caches_in_bounds m → erase_all m l = Done m' →
  no_leak m' ∧ caches_in_bounds m'.
Proof.
  revert m. induction l as [|r l IH]; intros m Hl Hb; cbn [erase_all].
  { by intros [= <-]. }
  destruct (eraseRegion m r) as [m1| | |] eqn:He; simpl; [|done..].
  apply eraseRegion_tidy in He as [? ?]; [|done..]. by apply IH.
Qed.

Lemma flushCommit_tidy m m' :
  no_leak m → caches_in_bounds m → flushCommit m = Done m' →
  no_leak m' ∧ caches_in_bounds m'.
Proof.
  intros Hl Hb. unfold flushCommit.
  destruct (0 <? _); [|by intros [= <-]].
  destruct (erase_all _ _) as [m1| | |] eqn:He; simpl; [|done..].
  apply erase_all_tidy in He; [|done..].
  by intros [= <-].
Qed.

Lemma clear_loop_tidy n m m' :
  no_leak m → caches_in_bounds m → clear_loop n m = Done m' →
  no_leak m' ∧ caches_in_bounds m'.
Proof.
  revert m. induction n as [|n IH]; intros m Hl Hb; cbn [clear_loop].
  { by intros [= <-]. }
  destruct (0 <? _); [|by intros [= <-]].
  destruct (eraseRegion m _) as [m1| | |] eqn:He; simpl; [|done..].
  apply eraseRegion_tidy in He as [? ?]; [|done..]. by apply IH.
Qed.

(** In every reachable state every live block belongs to a region, and the
    entries of the caches of a region point into its own vectors. *)
Lemma reachable_tidy m : reachable m → no_leak m ∧ caches_in_bounds m.
Proof.
  induction 1 as [|m o m' Hm [Hl Hb] Hrun].
  { split; [|by apply Forall_nil].
    intros p Hp. simpl in Hp. rewrite lookup_empty in Hp. by destruct Hp. }
  destruct o; simpl in Hrun.
  - by eapply writeBasicBlock_tidy.
  - destruct (getSeqLoc m addr) as [[m1 sl]| | |] eqn:Hget; simpl in Hrun; [|done..].
    injection Hrun as <-. by eapply getSeqLoc_tidy.
  - destruct (getExecBlock m addr) as [[m1 b]| | |] eqn:Hget; simpl in Hrun; [|done..].
    injection Hrun as <-. by eapply getExecBlock_tidy.
  - destruct (getBBInfo m addr) as [[m1 b]| | |] eqn:Hget; simpl in Hrun; [|done..].
    injection Hrun as <-. by eapply getBBInfo_tidy.
  - destruct (analyzeInstMetadata m instMetadata type) as [[m1 a]| | |] eqn:Hget;
      simpl in Hrun; [|done..].
    injection Hrun as <-. by eapply analyzeInstMetadata_tidy.
  - by injection Hrun as <-.
  - injection Hrun as <-. by apply clearCache_rangeSet_tidy.
  - by eapply clear_loop_tidy.
  - by eapply flushCommit_tidy.
Qed.

End Tidy.

(** ** What an operation keeps *)

Section Persists.
Context {EB : Type} `{!ExecBlockOps EB} {target : Target}.
Implicit Types m : Manager EB.

Lemma contains_trans a b c :
  contains a b = true → contains b c = true → contains a c = true.
Proof.
  unfold contains. rewrite !andb_true_iff, !Z.leb_le. lia.
Qed.

Lemma region_persists_refl reg : region_persists reg reg.
Proof. split_and!; try done. apply contains_refl. Qed.

Lemma region_persists_trans reg1 reg2 reg3 :
  region_persists reg1 reg2 → region_persists reg2 reg3 →
  region_persists reg1 reg3.
Proof.
  intros (Hc & Hb & Hr & Hs & Hi & Ha) (Hc' & Hb' & Hr' & Hs' & Hi' & Ha').
  split_and!; eauto.
  - by eapply contains_trans.
  - by etrans.
  - by etrans.
  - by etrans.
Qed.

Lemma kept_refl m : kept m m.
Proof.
  split_and!; try done. intros i reg Hi. exists i, reg.
  split; [done|]. apply region_persists_refl.
Qed.

Lemma kept_trans m1 m2 m3 : kept m1 m2 → kept m2 m3 → kept m1 m3.
Proof.
  intros (Hp & Hl & Hf) (Hp' & Hl' & Hf'). split_and!; [|lia|congruence].
  intros i reg Hi. destruct (Hp i reg Hi) as (i2 & reg2 & Hi2 & Hr2).
  destruct (Hp' i2 reg2 Hi2) as (i3 & reg3 & Hi3 & Hr3).
  exists i3, reg3. split; [done|]. by eapply region_persists_trans.
Qed.

Lemma kept_ext m m' :
  regions m' = regions m → flushList m' = flushList m → kept m m'.
Proof.
  intros Hr Hf. split_and!; [|by rewrite Hr|done].
  intros i reg Hi. exists i, reg. rewrite Hr.
  split; [done|]. apply region_persists_refl.
Qed.

Lemma kept_put m r reg reg' :
  regions m !! r = Some reg → region_persists reg reg' →
  kept m (put_region m r reg').
Proof.
  intros Hr Hp. split_and!; [|by simpl; rewrite length_insert|done].
  intros i regi Hi. destruct (decide (i = r)) as [->|Hne].
  - exists r, reg'. rewrite Hr in Hi. injection Hi as <-. split; [|done].
    simpl. apply list_lookup_insert_eq. eauto using lookup_lt_Some.
  - exists i, regi. split; [|apply region_persists_refl].
    simpl. by rewrite list_lookup_insert_ne.
Qed.

Lemma searchRegion_kept m addr : kept m (searchRegion m addr).1.
Proof.
  destruct (searchRegion_frame m addr) as (? & _ & ? & _). by apply kept_ext.
Qed.

Lemma findRegion_kept m cr m' r : findRegion m cr = Done (m', r) → kept m m'.
Proof.
  intros (_ & Hf & Hl & _ & Hold)%findRegion_regions. split_and!; [|done..].
  intros i reg Hi. destruct (Hold i reg Hi) as (i' & c & Hi' & Hc).
  exists i', (set_covered reg c). split; [done|].
  split_and!; done.
Qed.

Lemma written_kept K r m m' :
  written K r m m' →
  (∀ reg k, regions m !! r = Some reg → K k → sequenceCache reg !! k = None) →
  kept m m'.
Proof.
  intros (reg & reg' & Hr & Hrs & _ & Hf & _ & _ & _ & Hcov & _ & _ & Hbb & Han
          & Hbl & _ & _ & Hkeep & _ & Hik & _) HK.
  split_and!; [|by rewrite Hrs, length_insert|done].
  intros i regi Hi. destruct (decide (i = r)) as [->|Hne].
  - exists r, reg'. rewrite Hr in Hi. injection Hi as <-. split.
    { rewrite Hrs. apply list_lookup_insert_eq. eauto using lookup_lt_Some. }
    split_and!; try done.
    + rewrite Hcov. apply contains_refl.
    + by rewrite Hbb.
    + apply map_subseteq_spec. intros k loc Hloc. rewrite Hkeep; [done|].
      intros Hk. rewrite (HK reg k Hr Hk) in Hloc. done.
    + by rewrite Han.
  - exists i, regi. split; [|apply region_persists_refl].
    rewrite Hrs. by rewrite list_lookup_insert_ne.
Qed.

Lemma writeBasicBlock_kept fuel m basicBlock m' :
  writeBasicBlock fuel m basicBlock = Done m' → kept m m'.
Proof.
  intros (firstPatch & lastPatch & m0 & r & reg0 & _ & _ & Hfind & Hreg0
          & Hcase)%writeBasicBlock_shape.
  apply findRegion_kept in Hfind.
  destruct Hcase as [[_ ->]|(_ & m4 & reg4 & loc & tr & av & u1 & u2 & Hw & Hreg4
                             & _ & _ & ->)]; [done|].
  pose proof (lookup_lt_Some _ _ _ Hreg0) as Hlt.
  set (bb := mkBBInfo _ _) in Hw. set (reg1 := set_bbRegistry reg0 _) in Hw.
  assert (H1 : kept m0 (put_region m0 r reg1)).
  { apply (kept_put m0 r reg0); [done|]. split_and!; try done.
    - apply contains_refl.
    - by apply prefix_app_r. }
  assert (H2 : kept (put_region m0 r reg1) m4).
  { eapply written_kept; [done|]. simpl. intros reg k.
    rewrite list_lookup_insert_eq by done. intros [= <-] (j & p & Hj & Hp & ->).
    simpl. by eapply truncation_not_key. }
  assert (H3 : kept m4 (put_region (set_totals m4 u1 u2) r (set_stat reg4 tr av))).
  { eapply kept_trans; [apply (kept_ext m4 (set_totals m4 u1 u2)); done|].
    apply (kept_put (set_totals m4 u1 u2) r reg4); [done|].
    split_and!; try done. apply contains_refl. }
  eauto using kept_trans.
Qed.

Lemma getSeqLoc_kept m addr m' seqLoc :
  getSeqLoc m addr = Done (m', seqLoc) → kept m m'.
Proof.
  intros Hget. apply getSeqLoc_shape in Hget. cbv zeta in Hget.
  pose proof (searchRegion_kept m addr) as H0.
  set (m0 := (searchRegion m addr).1) in *.
  set (r := (searchRegion m addr).2) in *.
  destruct Hget as [[-> _]|(reg & instLoc & p & block & sc & bb & Hreg & _ & Hnone
                           & _ & _ & _ & Hsc & _ & _ & _ & _ & ->)]; [done|].
  eapply kept_trans; [done|].
  eapply (kept_trans _ (put_region m0 r
                          (set_sequenceCache
                             (set_bbRegistry reg (bbRegistry reg ++ [bb]))
                             (<[addr := seqLoc]> sc)))).
  { apply (kept_put m0 r reg); [done|].
    split_and!; try done.
    - apply contains_refl.
    - by apply prefix_app_r.
    - simpl. apply map_subseteq_spec. intros k loc Hloc.
      assert (k ≠ addr) by congruence.
      rewrite lookup_insert_ne by done.
      destruct Hsc as [->|(k0 & Hk0 & ->)]; [done|].
      assert (k ≠ k0) by congruence. by rewrite lookup_insert_ne. }
  by apply kept_ext.
Qed.

Lemma getExecBlock_kept m addr m' b :
  getExecBlock m addr = Done (m', b) → kept m m'.
Proof.
  unfold getExecBlock.
  destruct (getSeqLoc m addr) as [[m1 seqLoc]| | |] eqn:Hget; simpl; [|done..].
  apply getSeqLoc_kept in Hget.
  destruct (execBlock seqLoc) as [p|]; [|by intros [= <- <-]].
  destruct (heap m1 !! p) as [blk|]; simpl; [|done].
  intros [= <- <-]. eapply kept_trans; [done|]. by apply kept_ext.
Qed.

Lemma getBBInfo_kept m addr m' b : getBBInfo m addr = Done (m', b) → kept m m'.
Proof.
  unfold getBBInfo. pose proof (searchRegion_kept m addr) as H0.
  destruct (searchRegion m addr) as [m0 r]. simpl in H0.
  destruct (regions m0 !! r) as [reg|]; [|by intros [= <- <-]].
  destruct (contains_addr _ _); [|by intros [= <- <-]].
  destruct (sequenceCache reg !! addr) as [sl|]; [|by intros [= <- <-]].
  destruct (bbRegistry reg !! _) as [bb|]; simpl; [|done].
  by intros [= <- <-].
Qed.

Lemma analyzeInstMetadata_kept m meta type m' a :
  analyzeInstMetadata m meta type = Done (m', a) → kept m m'.
Proof.
  intros Hrun. apply analyzeInstMetadata_inv in Hrun.
  destruct meta as [meta|]; [|destruct Hrun as [-> _]; apply kept_refl].
  pose proof (searchRegion_kept m (address meta)) as H0.
  destruct (searchRegion m (address meta)) as [m0 r]. simpl in *.
  destruct Hrun as [[-> _]|(a0 & _ & _ & _ & _ & _ & [(reg & Hreg & _ & ->)|[_ ->]])];
    [done| |].
  - eapply kept_trans; [done|]. apply (kept_put m0 r reg); [done|].
    split_and!; try done; [apply contains_refl|].
    intros k Hk. simpl. destruct (decide (k = address meta)) as [->|Hne].
    + rewrite lookup_insert_eq. eauto.
    + by rewrite lookup_insert_ne.
  - eapply kept_trans; [done|]. by apply kept_ext.
Qed.

Lemma clearCache_rangeSet_regions m ranges :
  regions (clearCache_rangeSet m ranges) = regions m.
Proof. apply clearCache_rangeSet_frame. Qed.

Lemma persists_ext m m' : regions m' = regions m → persists m m'.
Proof.
  intros Hr i reg Hi. exists i, reg. rewrite Hr.
  split; [done|apply region_persists_refl].
Qed.

End Persists.

(** ** Lookups *)

Section Lookups.
Context {EB : Type} `{!ExecBlockOps EB} {target : Target}.
Implicit Types m : Manager EB.

(** After [searchRegion] the slot answers for the address: a second search,
    in any state with that slot and as many regions, returns the same index
    and changes nothing. *)
Lemma searchRegion_again m m1 addr :
  searchCache m1 = searchCache (searchRegion m addr).1 →
  length (regions m1) = length (regions m) →
  searchRegion m1 addr = (m1, (searchRegion m addr).2).
Proof.
  unfold searchRegion. intros Hc Hl. rewrite Hl.
  destruct (length (regions m) =? 0); [done|].
  destruct (sc_address (searchCache m) =? addr)%Z eqn:Hhit; simpl in Hc.
  - by rewrite Hc, Hhit.
  - rewrite Hc. simpl. by rewrite Z.eqb_refl.
Qed.

(** X4: [getSeqLoc] is stable: asked again for the same address, it returns
    the same location and changes nothing, also after a split. *)
Theorem getSeqLoc_stable m addr m' seqLoc :
  getSeqLoc m addr = Done (m', seqLoc) → getSeqLoc m' addr = Done (m', seqLoc).
Proof.
  unfold getSeqLoc at 1.
  pose proof (λ m1, searchRegion_again m m1 addr) as Hagain.
  pose proof (proj1 (searchRegion_frame m addr)) as Hregs.
  destruct (searchRegion m addr) as [m0 r]. simpl in Hagain, Hregs.
  assert (H0 : searchRegion m0 addr = (m0, r)).
  { apply Hagain; [done|by rewrite Hregs]. }
  destruct (regions m0 !! r) as [reg|] eqn:Hreg.
  2:{ intros [= <- <-]. unfold getSeqLoc. by rewrite H0, Hreg. }
  destruct (contains_addr _ _) eqn:Hin.
  2:{ intros [= <- <-]. unfold getSeqLoc. by rewrite H0, Hreg, Hin. }
  destruct (sequenceCache reg !! addr) as [sl|] eqn:Hsl.
  { intros [= <- <-]. unfold getSeqLoc. by rewrite H0, Hreg, Hin, Hsl. }
  destruct (instCache reg !! addr) as [instLoc|] eqn:Hil.
  2:{ intros [= <- <-]. unfold getSeqLoc. by rewrite H0, Hreg, Hin, Hsl, Hil. }
  destruct (blocks reg !! _) as [p|]; simpl; [|done].
  destruct (heap m0 !! p) as [block|]; simpl; [|done].
  destruct (sequenceCache reg !! getInstAddress block _) as [existing|];
    (destruct (bbRegistry reg !! _) as [bb|]; simpl; [|done]);
    destruct (splitSequence block _) as [block' newSeqID];
    intros [= <- <-]; unfold getSeqLoc;
    (rewrite Hagain; [|done|by simpl; rewrite length_insert, Hregs]);
    simpl; rewrite list_lookup_insert_eq by eauto using lookup_lt_Some;
    simpl; by rewrite Hin, lookup_insert_eq.
Qed.

Lemma owned_ext m m' :
  regions m' = regions m → heap m' = heap m → nextBlock m' = nextBlock m →
  owned m → owned m'.
Proof. unfold owned. by intros -> -> ->. Qed.

(** With live blocks and cache entries that point into the vectors of
    their region, [getSeqLoc] stays within the bounds of every container. *)
Lemma getSeqLoc_defined m addr :
  owned m → caches_in_bounds m →
  ∃ m' seqLoc, getSeqLoc m addr = Done (m', seqLoc).
Proof.
  intros Ho Hb. unfold getSeqLoc.
  pose proof (searchRegion_owned m addr Ho) as Ho0.
  assert (Hb0 : caches_in_bounds (searchRegion m addr).1).
  { eapply caches_in_bounds_ext; [|done]. apply searchRegion_frame. }
  destruct (searchRegion m addr) as [m0 r]. simpl in Ho0, Hb0.
  destruct (regions m0 !! r) as [reg|] eqn:Hreg; [|eauto].
  destruct (contains_addr _ _); [|eauto].
  destruct (sequenceCache reg !! addr) as [sl|]; [eauto|].
  destruct (instCache reg !! addr) as [instLoc|] eqn:Hil; [|eauto].
  destruct (Forall_lookup_1 _ _ _ _ Hb0 Hreg) as [Hs Hi].
  destruct (Hi _ _ Hil) as [Hidx Hne].
  destruct (lookup_lt_is_Some_2 _ _ Hidx) as [p Hp]. rewrite Hp. simpl.
  destruct (owned_alive m0 Ho0 reg p) as [block Hblock];
    [by eapply list_elem_of_lookup_2..|].
  rewrite Hblock. simpl.
  destruct (sequenceCache reg !! getInstAddress block _) as [existing|] eqn:Hex.
  - destruct (Hs _ _ Hex) as [Hlt _].
    destruct (lookup_lt_is_Some_2 _ _ Hlt) as [bb Hbb]. rewrite Hbb. simpl.
    destruct (splitSequence block _). eauto.
  - simpl. destruct (bbRegistry reg) as [|bb l] eqn:Hbbr; [done|]. simpl.
    destruct (splitSequence block _). eauto.
Qed.

Lemma getExecBlock_defined m addr :
  cache_in_range m → owned m → caches_in_bounds m →
  ∃ m' b, getExecBlock m addr = Done (m', b).
Proof.
  intros Hc Ho Hb. unfold getExecBlock.
  destruct (getSeqLoc_defined m addr Ho Hb) as (m1 & seqLoc & Hget).
  rewrite Hget. simpl.
  destruct (execBlock seqLoc) as [p|] eqn:Hp; [|eauto].
  destruct (getSeqLoc_block _ _ _ _ _ Hb Hget Hp) as (reg' & Hreg' & Hin).
  apply getSeqLoc_valid in Hget as [_ Ho1]; [|done..].
  destruct (owned_alive m1 Ho1 reg' p Hreg' Hin) as [blk Hblk].
  rewrite Hblk. simpl. eauto.
Qed.

Lemma getBBInfo_defined m addr :
  caches_in_bounds m → ∃ m' b, getBBInfo m addr = Done (m', b).
Proof.
  intros Hb. unfold getBBInfo.
  assert (Hb0 : caches_in_bounds (searchRegion m addr).1).
  { eapply caches_in_bounds_ext; [|done]. apply searchRegion_frame. }
  destruct (searchRegion m addr) as [m0 r]. simpl in Hb0.
  destruct (regions m0 !! r) as [reg|] eqn:Hreg; [|eauto].
  destruct (contains_addr _ _); [|eauto].
  destruct (sequenceCache reg !! addr) as [sl|] eqn:Hsl; [|eauto].
  destruct (Forall_lookup_1 _ _ _ _ Hb0 Hreg) as [Hs _].
  destruct (Hs _ _ Hsl) as [Hlt _].
  destruct (lookup_lt_is_Some_2 _ _ Hlt) as [bb Hbb]. rewrite Hbb. simpl. eauto.
Qed.

End Lookups.

(** X3: what has just been written is found. After [writeBasicBlock] of a
    block whose range holds its first address, the sequence cache of the
    chosen region has a location for the first address and [getSeqLoc]
    returns it without changing anything. When the address was not a key
    before, the location names a live block of the region, and [getBBInfo]
    returns the element of the registry at the index of the new basic
    block cut to 16 bits: the basic block just registered as long as the
    registry had fewer than 2^16 entries. *)
Theorem writeBasicBlock_then_lookup {EB} `{!ExecBlockOps EB} {target : Target}
    (fuel : nat) (m m' : Manager EB) (basicBlock : list Patch)
    (firstPatch lastPatch : Patch) :
  reachable m →
  head basicBlock = Some firstPatch → last basicBlock = Some lastPatch →
  (address (metadata firstPatch) < end_ (code_range firstPatch lastPatch))%Z →
  writeBasicBlock fuel m basicBlock = Done m' →
  let addr := address (metadata firstPatch) in
  let bb := mkBBInfo addr (end_ (code_range firstPatch lastPatch)) in
  ∃ m0 r reg0 reg' seqLoc,
    findRegion m (code_range firstPatch lastPatch) = Done (m0, r)
    ∧ regions m0 !! r = Some reg0
    ∧ regions m' !! r = Some reg'
    ∧ sequenceCache reg' !! addr = Some seqLoc
    ∧ getSeqLoc m' addr = Done (m', seqLoc)
    ∧ (sequenceCache reg0 !! addr = None →
       (∃ p, execBlock seqLoc = Some p ∧ p ∈ blocks reg'
             ∧ is_Some (heap m' !! p))
       ∧ bbRegistry reg' = bbRegistry reg0 ++ [bb]
       ∧ (∃ bb',
            bbRegistry reg'
              !! Z.to_nat (wrap16 (Z.of_nat (length (bbRegistry reg0))))
            = Some bb'
            ∧ getBBInfo m' addr = Done (m', Some bb'))
       ∧ ((Z.of_nat (length (bbRegistry reg0)) < 65536)%Z →
          getBBInfo m' addr = Done (m', Some bb))).
Proof.
  intros Hreach Hhead Hlast Hrange Hwrite addr bb.
  assert (Hreach' : reachable m').
  { by apply (reachable_run m (WriteBasicBlock fuel basicBlock)). }
  pose proof (proj2 (reachable_alive m' Hreach')) as Halive.
  apply writeBasicBlock_shape in Hwrite
    as (first & last' & m0 & r & reg0 & Hhead' & Hlast' & Hfind & Hreg0 & Hcase).
  rewrite Hhead in Hhead'. injection Hhead' as <-.
  rewrite Hlast in Hlast'. injection Hlast' as <-.
  destruct (findRegion_post _ _ _ _ Hfind) as (Hslot & _ & reg0' & Hreg0' & Hin).
  rewrite Hreg0 in Hreg0'. injection Hreg0' as <-.
  pose proof (contains_start _ _ Hin Hrange) as Haddr. simpl in Haddr.
  fold addr in Haddr.
  pose proof (lookup_lt_Some _ _ _ Hreg0) as Hlt.
  assert (Hlookup : ∀ m1 reg1 loc,
            searchCache m1 = mkSearchCache addr r →
            regions m1 !! r = Some reg1 → covered reg1 = covered reg0 →
            sequenceCache reg1 !! addr = Some loc →
            getSeqLoc m1 addr = Done (m1, loc)
            ∧ getBBInfo m1 addr
              = (bb ← access (bbRegistry reg1 !! Z.to_nat (bbIdx loc));
                 Done (m1, Some bb))).
  { intros m1 reg1 loc Hs Hr Hc Hl.
    assert (Hsearch : searchRegion m1 addr = (m1, r)).
    { unfold searchRegion.
      destruct (Nat.eqb_spec (length (regions m1)) 0) as [Hz|_].
      - apply lookup_lt_Some in Hr. lia.
      - rewrite Hs. simpl. by rewrite Z.eqb_refl. }
    unfold getSeqLoc, getBBInfo. by rewrite Hsearch, Hr, Hc, Haddr, Hl. }
  destruct Hcase as [[[loc Hloc] ->]
                    |(Hnone & m4 & reg4 & loc & tr & av & u1 & u2 & Hw & Hreg4
                      & Hloc & Hfresh & ->)].
  { exists m0, r, reg0, reg0, loc. fold addr in Hloc.
    split_and!; try done.
    - by apply (Hlookup m0 reg0 loc).
    - intros Hnone. congruence. }
  destruct Hw as (reg1 & reg4' & Hr1 & Hrs & Hc4 & _ & _ & _ & _ & Hcov & _ & _
                  & Hbb & _).
  simpl in Hr1. rewrite list_lookup_insert_eq in Hr1 by done.
  injection Hr1 as <-.
  assert (reg4' = reg4) as ->.
  { rewrite Hrs in Hreg4. simpl in Hreg4.
    rewrite list_lookup_insert_eq in Hreg4 by (by rewrite length_insert).
    congruence. }
  simpl in Hc4, Hcov, Hbb.
  set (m5 := put_region _ _ _).
  assert (Hreg5 : regions m5 !! r = Some (set_stat reg4 tr av)).
  { unfold m5. simpl. apply list_lookup_insert_eq. eauto using lookup_lt_Some. }
  destruct (Hlookup m5 (set_stat reg4 tr av) loc) as [Hget Hinfo]; try done.
  { unfold m5. simpl. by rewrite Hc4. }
  exists m0, r, reg0, (set_stat reg4 tr av), loc.
  split_and!; try done. intros _.
  assert (Hidx : bbIdx loc = wrap16 (Z.of_nat (length (bbRegistry reg0)))).
  { destruct Hfresh as [-> _]. rewrite Hbb, length_app. simpl. f_equal. lia. }
  assert (Hlt' : Z.to_nat (wrap16 (Z.of_nat (length (bbRegistry reg0))))
                 < length (bbRegistry reg4)).
  { rewrite Hbb, length_app. simpl. pose proof (wrap16_le (length (bbRegistry reg0))).
    lia. }
  destruct (lookup_lt_is_Some_2 _ _ Hlt') as [bb' Hbb'].
  split_and!.
  - destruct Hfresh as (_ & p & Hp & Hpin). exists p. split_and!; [done..|].
    apply (Halive (set_stat reg4 tr av)); [|done].
    by eapply list_elem_of_lookup_2.
  - done.
  - exists bb'. split; [done|]. rewrite Hinfo. simpl. by rewrite Hidx, Hbb'.
  - intros Hlen. rewrite Hinfo. simpl. rewrite Hidx, Hbb.
    rewrite wrap16_small by lia. rewrite Nat2Z.id.
    rewrite lookup_app_r by lia. by rewrite Nat.sub_diag.
Qed.

(** ** Invalidation *)

Lemma pending_kept {EB} (m m' : Manager EB) :
  kept m m' → pending_in_range m → pending_in_range m'.
Proof.
  intros (_ & Hl & Hf) Hp. unfold pending_in_range. rewrite Hf.
  eapply Forall_impl; [done|]. simpl. lia.
Qed.

Lemma pending_clearCache_rangeSet {EB} (m : Manager EB) ranges :
  pending_in_range m → pending_in_range (clearCache_rangeSet m ranges).
Proof.
  unfold clearCache_rangeSet, pending_in_range. simpl.
  revert m. induction ranges as [|range ranges IH]; intros m Hp; [done|].
  simpl. apply IH. by apply pending_clearCache_range.
Qed.

Lemma clear_loop_frame {EB} n (m m' : Manager EB) :
  clear_loop n m = Done m' →
  flushList m' = flushList m
  ∧ globalAnalysisCache m' = globalAnalysisCache m
  ∧ total_translated_size m' = total_translated_size m
  ∧ total_translation_size m' = total_translation_size m
  ∧ nextBlock m' = nextBlock m.
Proof.
  revert m. induction n as [|n IH]; intros m; cbn [clear_loop].
  { by intros [= <-]. }
  destruct (0 <? _); [|by intros [= <-]].
  unfold eraseRegion. destruct (regions m !! _) as [reg|]; simpl; [|done].
  intros Hloop. by apply IH in Hloop.
Qed.

Lemma flushCommit_empty_array {EB} (m : Manager EB) :
  regions m = [] → flushList m ≠ [] → flushCommit m = Undefined.
Proof.
  intros Hregs Hne. unfold flushCommit.
  destruct (flushList m) as [|x l] eqn:Hl; [done|]. simpl.
  destruct (unique (sort_desc (x :: l))) as [|r l'] eqn:Hu.
  { assert (Hx : x ∈ unique (sort_desc (x :: l))).
    { apply elem_of_unique, elem_of_sort_desc, list_elem_of_here. }
    rewrite Hu in Hx. by apply elem_of_nil in Hx. }
  cbn [erase_all]. unfold eraseRegion. simpl. by rewrite Hregs.
Qed.

(** X6: the pending indices stay indices of the array through every
    operation but [clearCache()], and [flushCommit] is then defined: it
    removes the regions at the pending positions and empties the list.
    [clearCache()] empties the array and leaves the list as it is: after
    [clearCache(range)] for a range that overlaps a region, [clearCache()]
    and then [flushCommit()] erase out of the bounds of the array. *)
Theorem pending_indices_in_range {EB} `{!ExecBlockOps EB} {target : Target}
    (m : Manager EB) :
  (∀ o m', pending_in_range m → o ≠ ClearCache → run m o = Done m' →
           pending_in_range m')
  ∧ (pending_in_range m →
     ∃ m', flushCommit m = Done m'
           ∧ regions m' = remove_positions (regions m) (flushList m) 0
           ∧ flushList m' = [])
  ∧ (∀ range reg, reg ∈ regions m → overlaps (covered reg) range = true →
       ∃ m1, clearCache (clearCache_range m range) = Done m1
             ∧ regions m1 = []
             ∧ flushList m1 = flushList (clearCache_range m range)
             ∧ flushCommit m1 = Undefined).
Proof.
  split_and!.
  - intros o m' Hp Ho Hrun. destruct o; simpl in Hrun.
    + eapply pending_kept; [|done]. by eapply writeBasicBlock_kept.
    + destruct (getSeqLoc m addr) as [[m1 sl]| | |] eqn:Hget; simpl in Hrun;
        [|done..].
      injection Hrun as <-. eapply pending_kept; [|done].
      by eapply getSeqLoc_kept.
    + destruct (getExecBlock m addr) as [[m1 b]| | |] eqn:Hget; simpl in Hrun;
        [|done..].
      injection Hrun as <-. eapply pending_kept; [|done].
      by eapply getExecBlock_kept.
    + destruct (getBBInfo m addr) as [[m1 b]| | |] eqn:Hget; simpl in Hrun;
        [|done..].
      injection Hrun as <-. eapply pending_kept; [|done].
      by eapply getBBInfo_kept.
    + destruct (analyzeInstMetadata m instMetadata type) as [[m1 a]| | |]
        eqn:Hget; simpl in Hrun; [|done..].
      injection Hrun as <-. eapply pending_kept; [|done].
      by eapply analyzeInstMetadata_kept.
    + injection Hrun as <-. by apply pending_clearCache_range.
    + injection Hrun as <-. by apply pending_clearCache_rangeSet.
    + done.
    + unfold flushCommit in Hrun. destruct (0 <? _); [|by injection Hrun as <-].
      destruct (erase_all _ _) as [m1| | |]; simpl in Hrun; [|done..].
      injection Hrun as <-. apply Forall_nil_2.
  - apply flushCommit_regions.
  - intros range reg Hin Hov.
    destruct (clear_loop_empties (length (regions (clearCache_range m range)))
                (clearCache_range m range)) as (m1 & Hm1 & Hregs & _); [done|].
    exists m1. pose proof (clear_loop_frame _ _ _ Hm1) as (Hf & _).
    split_and!; try done.
    apply flushCommit_empty_array; [done|]. rewrite Hf. simpl.
    assert (Hx : ∃ x, x ∈ overlapping (regions m) range 0).
    { clear -Hin Hov. generalize 0.
      induction (regions m) as [|reg0 rs IH]; intros i; simpl.
      - by apply elem_of_nil in Hin.
      - apply elem_of_cons in Hin as [<-|Hin].
        + rewrite Hov. exists i. apply list_elem_of_here.
        + destruct (IH Hin (S i)) as [x Hx]. exists x.
          destruct (overlaps (covered reg0) range);
            [by apply list_elem_of_further|done]. }
    destruct Hx as [x Hx]. intros Hnil.
    assert (Hx' : x ∈ flushList m ++ overlapping (regions m) range 0).
    { apply elem_of_app. by right. }
    rewrite Hnil in Hx'. by apply elem_of_nil in Hx'.
Qed.

(** X5: an invalidated range is gone. With pending indices in range,
    [clearCache(range)] and [flushCommit()] leave no region that holds an
    address of the range: for such an address [getSeqLoc] returns the nil
    location and [getBBInfo] returns null; a request for an analysis fails
    in the analysis of the operands or builds an analysis anew and puts it
    into the cache of the manager. *)
Theorem invalidated_range_misses {EB} `{!ExecBlockOps EB} {target : Target}
    (m : Manager EB) (range : Range) (addr : Z) :
  pending_in_range m → (start range <= addr < end_ range)%Z →
  ∃ m', flushCommit (clearCache_range m range) = Done m'
    ∧ (∀ reg, reg ∈ regions m' → contains_addr (covered reg) addr = false)
    ∧ getSeqLoc m' addr = Done ((searchRegion m' addr).1, nil_SeqLoc)
    ∧ getBBInfo m' addr = Done ((searchRegion m' addr).1, None)
    ∧ ∀ meta type,
        address meta = addr →
        failed_in_operands meta type
          (analyzeInstMetadata m' (Some meta) type)
        ∧ ∀ m2 a,
            analyzeInstMetadata m' (Some meta) type = Done (m2, a) →
            ∃ a0, a = Some a0 ∧ analysisType a0 = type
              ∧ m2 = set_globalAnalysisCache (searchRegion m' addr).1
                       (<[addr := a0]>
                          (globalAnalysisCache (searchRegion m' addr).1)).
Proof.
  intros Hp Haddr.
  destruct (flushCommit_regions (clearCache_range m range))
    as (m' & Hm' & Hregs & _); [by apply pending_clearCache_range|].
  exists m'. split; [done|].
  assert (Hout : ∀ reg, reg ∈ regions m' →
                        contains_addr (covered reg) addr = false).
  { intros reg Hin. rewrite Hregs in Hin. simpl in Hin.
    apply remove_positions_clear in Hin.
    apply contains_addr_false.
    unfold overlaps in Hin. apply andb_false_iff in Hin.
    rewrite !Z.ltb_ge in Hin. lia. }
  split; [done|].
  pose proof (proj1 (searchRegion_frame m' addr)) as Hfr.
  assert (Hout0 : ∀ reg, regions (searchRegion m' addr).1
                           !! (searchRegion m' addr).2 = Some reg →
                         contains_addr (covered reg) addr = false).
  { intros reg Hreg. apply Hout. rewrite <- Hfr.
    by eapply list_elem_of_lookup_2. }
  split_and!.
  - unfold getSeqLoc. destruct (searchRegion m' addr) as [m0 r]. simpl in *.
    destruct (regions m0 !! r) as [reg|] eqn:Hreg; [|done].
    by rewrite (Hout0 reg).
  - unfold getBBInfo. destruct (searchRegion m' addr) as [m0 r]. simpl in *.
    destruct (regions m0 !! r) as [reg|] eqn:Hreg; [|done].
    by rewrite (Hout0 reg).
  - intros meta type <-. split; [apply analyzeInstMetadata_fails|].
    intros m2 a Hrun. apply analyzeInstMetadata_inv in Hrun. cbv zeta in Hrun.
    destruct Hrun as [[_ (reg & a0 & Hreg & Hin & _)]
                     |(a0 & -> & Ht & _ & _ & _ & [(reg & Hreg & Hin & _)|[_ ->]])].
    + by rewrite (Hout0 reg Hreg) in Hin.
    + by rewrite (Hout0 reg Hreg) in Hin.
    + by exists a0.
Qed.

(** ** The blocks of the heap *)

(** X7: in every reachable state the live blocks are exactly the blocks of
    the regions, and no block belongs to two regions. *)
Theorem heap_is_blocks_of_regions {EB} `{!ExecBlockOps EB} {target : Target}
    (m : Manager EB) :
  reachable m →
  (∀ p, is_Some (heap m !! p) ↔ ∃ reg, reg ∈ regions m ∧ p ∈ blocks reg)
  ∧ (∀ i j regi regj p,
       regions m !! i = Some regi → regions m !! j = Some regj →
       p ∈ blocks regi → p ∈ blocks regj → i = j).
Proof.
  intros Hreach.
  destruct (reachable_valid m Hreach) as [_ Ho].
  destruct (reachable_tidy m Hreach) as [Hl _].
  split.
  - intros p. split.
    + intros Hp. destruct (Hl p Hp) as (bs & Hbs & Hin).
      apply list_elem_of_fmap in Hbs as (reg & -> & Hreg). eauto.
    + intros (reg & Hreg & Hin). by apply (owned_alive m Ho reg).
  - intros i j regi regj p Hi Hj Hpi Hpj.
    destruct (Ho i (blocks regi) p) as (_ & _ & Hu); [|done|].
    { by rewrite list_lookup_fmap, Hi. }
    apply (Hu j (blocks regj)); [|done]. by rewrite list_lookup_fmap, Hj.
Qed.

(** ** Lookups, on reachable states *)

(** X2: in a reachable state no access of [getSeqLoc], [getExecBlock] and
    [getBBInfo] leaves the bounds of its container or follows a dangling
    block: each of them returns. *)
Theorem lookups_in_bounds {EB} `{!ExecBlockOps EB} {target : Target}
    (m : Manager EB) (addr : Z) :
  reachable m →
  (∃ m' seqLoc, getSeqLoc m addr = Done (m', seqLoc))
  ∧ (∃ m' b, getExecBlock m addr = Done (m', b))
  ∧ (∃ m' bb, getBBInfo m addr = Done (m', bb)).
Proof.
  intros Hreach.
  destruct (reachable_valid m Hreach) as [Hc Ho].
  destruct (reachable_tidy m Hreach) as [_ Hb].
  split_and!.
  - by apply getSeqLoc_defined.
  - by apply getExecBlock_defined.
  - by apply getBBInfo_defined.
Qed.

(** ** What only an invalidation drops *)

(** X1: an operation other than [clearCache()] and [flushCommit()] drops
    nothing. Every region is still in the array, with a covered range that
    contains the former one, the same blocks and registered basic blocks
    followed by new ones at most, every sequence location as it was, and
    every key of its instruction and analysis caches; the array has not
    become shorter. *)
Theorem run_persists {EB} `{!ExecBlockOps EB} {target : Target}
    (m m' : Manager EB) (o : operation) :
  invalidates o = false → run m o = Done m' →
  persists m m' ∧ length (regions m) ≤ length (regions m').
Proof.
  intros Ho Hrun.
  assert (Hk : kept m m' → persists m m' ∧ length (regions m) ≤ length (regions m')).
  { by intros (? & ? & _). }
  destruct o; simpl in Hrun; try done.
  - apply Hk. by eapply writeBasicBlock_kept.
  - destruct (getSeqLoc m addr) as [[m1 sl]| | |] eqn:Hget; simpl in Hrun; [|done..].
    injection Hrun as <-. apply Hk. by eapply getSeqLoc_kept.
  - destruct (getExecBlock m addr) as [[m1 b]| | |] eqn:Hget; simpl in Hrun;
      [|done..].
    injection Hrun as <-. apply Hk. by eapply getExecBlock_kept.
  - destruct (getBBInfo m addr) as [[m1 b]| | |] eqn:Hget; simpl in Hrun; [|done..].
    injection Hrun as <-. apply Hk. by eapply getBBInfo_kept.
  - destruct (analyzeInstMetadata m instMetadata type) as [[m1 a]| | |] eqn:Hget;
      simpl in Hrun; [|done..].
    injection Hrun as <-. apply Hk. by eapply analyzeInstMetadata_kept.
  - injection Hrun as <-. split; [by apply persists_ext|done].
  - injection Hrun as <-.
    pose proof (clearCache_rangeSet_regions m ranges) as Hr.
    split; [by apply persists_ext|by rewrite Hr].
Qed.

(** ** The analysis caches *)

Lemma searchRegion_global {EB} (m : Manager EB) c addr :
  searchRegion (set_globalAnalysisCache m c) addr
  = (set_globalAnalysisCache (searchRegion m addr).1 c, (searchRegion m addr).2).
Proof.
  unfold searchRegion. simpl. destruct (_ =? _); [done|].
  by destruct (_ =? _)%Z.
Qed.

(** A request finds the analysis that the cache of the region holds for
    the address, when it holds the facets asked for; the instruction of
    the request is not looked at. *)
Lemma analyzeInstMetadata_hit {EB} `{!ExecBlockOps EB} {target : Target}
    (m m1 : Manager EB) (addr : Z) (meta : InstMetadata) (reg : ExecRegion)
    (a : InstAnalysis) (type' : Z) :
  address meta = addr →
  searchCache m1 = searchCache (searchRegion m addr).1 →
  length (regions m1) = length (regions m) →
  regions m1 !! (searchRegion m addr).2 = Some reg →
  contains_addr (covered reg) addr = true →
  analysisCache reg !! addr = Some a →
  (Z.land (analysisType a) type' = type' →
   analyzeInstMetadata m1 (Some meta) type' = Done (m1, Some a))
  ∧ (Z.land (analysisType a) type' ≠ type' →
     ∀ m2 a2, analyzeInstMetadata m1 (Some meta) type' = Done (m2, a2) →
       ∃ a3, a2 = Some a3 ∧ analysisType a3 = type').
Proof.
  intros <- Hs Hl Hr Hin Ha. split; intros Hland.
  - unfold analyzeInstMetadata.
    rewrite (searchRegion_again m m1) by done. rewrite Hr, Hin, Ha.
    by rewrite (proj2 (Z.eqb_eq _ _) Hland).
  - intros m2 a2 Hrun. apply analyzeInstMetadata_inv in Hrun. cbv zeta in Hrun.
    rewrite (searchRegion_again m m1) in Hrun by done. cbn [fst snd] in Hrun.
    destruct Hrun as [[_ (reg0 & a0 & Hreg0 & _ & Ha0 & Hland0 & _)]
                     |(a0 & -> & Ht & _)].
    + congruence.
    + by exists a0.
Qed.

(** What a request that returns leaves in the cache of the region. *)
Lemma analyzeInstMetadata_first {EB} `{!ExecBlockOps EB} {target : Target}
    (m m1 : Manager EB) (meta : InstMetadata) (type : Z) a' :
  analyzeInstMetadata m (Some meta) type = Done (m1, a') →
  ∃ a,
    a' = Some a
    ∧ Z.land (analysisType a) type = type
    ∧ ∀ reg,
        regions m !! (searchRegion m (address meta)).2 = Some reg →
        contains_addr (covered reg) (address meta) = true →
        searchCache m1 = searchCache (searchRegion m (address meta)).1
        ∧ length (regions m1) = length (regions m)
        ∧ ∃ reg', regions m1 !! (searchRegion m (address meta)).2 = Some reg'
                  ∧ covered reg' = covered reg
                  ∧ analysisCache reg' !! address meta = Some a.
Proof.
  intros Hrun. apply analyzeInstMetadata_inv in Hrun. cbv zeta in Hrun.
  pose proof (proj1 (searchRegion_frame m (address meta))) as Hregs.
  destruct (searchRegion m (address meta)) as [m0 r]. simpl in *.
  rewrite <- Hregs.
  destruct Hrun as [[-> (reg & a0 & Hreg & Hin & Ha0 & Hland & ->)]
                   |(a0 & -> & Ht & _ & _ & _
                     & [(reg & Hreg & Hin & ->)|[Hout ->]])].
  - exists a0. split_and!; [done..|].
    intros reg0 Hreg0 _. assert (reg0 = reg) as -> by congruence.
    split_and!; [done..|]. eauto.
  - exists a0. split_and!; [done|rewrite Ht; apply Z.land_diag|].
    intros reg0 Hreg0 _. assert (reg0 = reg) as -> by congruence.
    pose proof (lookup_lt_Some _ _ _ Hreg) as Hlt.
    simpl. split_and!; [done|by rewrite length_insert|].
    eexists. split_and!; [by apply list_lookup_insert_eq|done|].
    simpl. apply lookup_insert_eq.
  - exists a0. split_and!; [done|rewrite Ht; apply Z.land_diag|].
    intros reg0 Hreg0 Hin. by rewrite (Hout reg0 Hreg0) in Hin.
Qed.

(** X9: a request for an analysis returns unless the analysis of the
    operands fails, and returns an analysis that holds the facets asked
    for. For an instruction inside the region that [searchRegion] finds,
    the analysis is kept in the cache of the region under the address: a
    later request at that address for facets it holds returns the same
    analysis and changes nothing, whatever its instruction; a request for
    a facet it lacks builds an analysis with the facets of the request. *)
Theorem analyzeInstMetadata_cached {EB} `{!ExecBlockOps EB} {target : Target}
    (m : Manager EB) (meta : InstMetadata) (type : Z) :
  failed_in_operands meta type (analyzeInstMetadata m (Some meta) type)
  ∧ ∀ m1 a',
      analyzeInstMetadata m (Some meta) type = Done (m1, a') →
      ∃ a,
        a' = Some a
        ∧ Z.land (analysisType a) type = type
        ∧ ∀ reg,
            regions m !! (searchRegion m (address meta)).2 = Some reg →
            contains_addr (covered reg) (address meta) = true →
            ∀ meta' type',
              address meta' = address meta →
              (Z.land (analysisType a) type' = type' →
               analyzeInstMetadata m1 (Some meta') type' = Done (m1, Some a))
              ∧ (Z.land (analysisType a) type' ≠ type' →
                 ∀ m2 a2,
                   analyzeInstMetadata m1 (Some meta') type' = Done (m2, a2) →
                   ∃ a3, a2 = Some a3 ∧ analysisType a3 = type').
Proof.
  split; [apply analyzeInstMetadata_fails|].
  intros m1 a' Hrun.
  destruct (analyzeInstMetadata_first m m1 meta type a' Hrun)
    as (a & -> & Hland & Hin).
  exists a. split_and!; [done..|].
  intros reg Hreg Hc meta' type' Haddr.
  destruct (Hin reg Hreg Hc) as (Hs & Hl & reg' & Hreg' & Hcov & Hcache).
  apply (analyzeInstMetadata_hit m m1 (address meta) meta' reg' a type');
    try done.
  by rewrite Hcov.
Qed.

(** The outcome of a request, without the manager. *)
Lemma analyzeInstMetadata_global {EB} `{!ExecBlockOps EB} {target : Target}
    (m : Manager EB) c (meta : option InstMetadata) (type : Z) :
  match analyzeInstMetadata (set_globalAnalysisCache m c) meta type,
        analyzeInstMetadata m meta type with
  | Done (_, a), Done (_, a') => a = a'
  | Undefined, Undefined | Stuck, Stuck | Thrown, Thrown => True
  | _, _ => False
  end.
Proof.
  unfold analyzeInstMetadata. destruct meta as [meta|]; [|done].
  rewrite searchRegion_global.
  destruct (searchRegion m (address meta)) as [m0 r]. cbn [fst snd regions
    set_globalAnalysisCache].
  set (inRegion := match regions m0 !! r with
                   | Some reg => if contains_addr (covered reg) (address meta)
                                 then Some reg else None
                   | None => None
                   end).
  destruct (match inRegion with
            | Some reg =>
                match analysisCache reg !! address meta with
                | Some a => if (Z.land (analysisType a) type =? type)%Z
                            then Some a else None
                | None => None
                end
            | None => None
            end) as [a|]; [done|].
  destruct (negb _).
  - cbn [operandAnalysis].
    destruct (analyseOperands _ _ _ _ _) as [x| |];
      cbn [thrown mbind outcome_bind]; [|done..].
    by destruct inRegion.
  - cbn [mbind outcome_bind]. by destruct inRegion.
Qed.

(** X10: the analysis cache of the manager is written and never read. The
    outcome of [analyzeInstMetadata] and the analysis it returns do not
    depend on it, and for an instruction outside the region that
    [searchRegion] finds every request that does not fail in the analysis
    of the operands builds an analysis anew and stores it over the former
    one. *)
Theorem global_analysis_cache_write_only {EB} `{!ExecBlockOps EB}
    {target : Target} (m : Manager EB) (meta : option InstMetadata)
    (type : Z) :
  (∀ c, match analyzeInstMetadata (set_globalAnalysisCache m c) meta type,
              analyzeInstMetadata m meta type with
        | Done (_, a), Done (_, a') => a = a'
        | Undefined, Undefined | Stuck, Stuck | Thrown, Thrown => True
        | _, _ => False
        end)
  ∧ ∀ meta',
      meta = Some meta' →
      (∀ reg, regions m !! (searchRegion m (address meta')).2 = Some reg →
              contains_addr (covered reg) (address meta') = false) →
      let m0 := (searchRegion m (address meta')).1 in
      failed_in_operands meta' type (analyzeInstMetadata m meta type)
      ∧ ∀ m' a,
          analyzeInstMetadata m meta type = Done (m', a) →
          ∃ a0, a = Some a0 ∧ analysisType a0 = type
            ∧ (Z.land type ANALYSIS_OPERANDS = 0%Z →
               operandAnalysis a0 = mkOperands 0 None)
            ∧ (Z.land type ANALYSIS_OPERANDS ≠ 0%Z →
               operand_analysis meta' = Returns (Some (operandAnalysis a0)))
            ∧ m' = set_globalAnalysisCache m0
                     (<[address meta' := a0]> (globalAnalysisCache m0)).
Proof.
  split; [intros c; apply analyzeInstMetadata_global|].
  intros meta' -> Hout m0. split; [apply analyzeInstMetadata_fails|].
  intros m' a Hrun. apply analyzeInstMetadata_inv in Hrun. cbv zeta in Hrun.
  pose proof (proj1 (searchRegion_frame m (address meta'))) as Hregs.
  fold m0 in Hrun, Hregs. rewrite Hregs in Hrun.
  destruct Hrun as [[_ (reg & a0 & Hreg & Hin & _)]
                   |(a0 & -> & Ht & Hno & Hops & _
                     & [(reg & Hreg & Hin & _)|[_ ->]])].
  - by rewrite (Hout reg Hreg) in Hin.
  - by rewrite (Hout reg Hreg) in Hin.
  - by exists a0.
Qed.

(** X18: the analysis of the operands decides the outcome of a request
    for the facet of the operands that no cached analysis serves: the
    request returns the operands that [analyseOperands] returns, its
    exception leaves [analyzeInstMetadata], and where it leaves the bounds
    of an array so does the request. *)
Theorem analyzeInstMetadata_operands {EB} `{!ExecBlockOps EB} {target : Target}
    (m : Manager EB) (meta : InstMetadata) (type : Z) :
  Z.land type ANALYSIS_OPERANDS ≠ 0%Z →
  (∀ reg a, regions m !! (searchRegion m (address meta)).2 = Some reg →
            contains_addr (covered reg) (address meta) = true →
            analysisCache reg !! address meta = Some a →
            Z.land (analysisType a) type ≠ type) →
  match operand_analysis meta with
  | Returns ops =>
      ∃ m' a, analyzeInstMetadata m (Some meta) type = Done (m', Some a)
              ∧ analysisType a = type ∧ ops = Some (operandAnalysis a)
  | Throws => analyzeInstMetadata m (Some meta) type = Thrown
  | Unbound => analyzeInstMetadata m (Some meta) type = Undefined
  end.
Proof.
  intros Hbit Hmiss. unfold analyzeInstMetadata.
  pose proof (proj1 (searchRegion_frame m (address meta))) as Hregs.
  destruct (searchRegion m (address meta)) as [m0 r]. simpl in Hregs, Hmiss.
  rewrite <- Hregs in Hmiss.
  set (inRegion := match regions m0 !! r with
                   | Some reg => if contains_addr (covered reg) (address meta)
                                 then Some reg else None
                   | None => None
                   end).
  assert (match inRegion with
          | Some reg =>
              match analysisCache reg !! address meta with
              | Some a => if (Z.land (analysisType a) type =? type)%Z
                          then Some a else None
              | None => None
              end
          | None => None
          end = None) as ->.
  { subst inRegion. destruct (regions m0 !! r) as [reg|] eqn:Hreg; [|done].
    destruct (contains_addr _ _) eqn:Hin; [|done].
    destruct (analysisCache reg !! address meta) as [a|] eqn:Ha; [|done].
    destruct (Z.eqb_spec (Z.land (analysisType a) type) type) as [Heq|]; [|done].
    by destruct (Hmiss reg a). }
  rewrite (proj2 (Z.eqb_neq _ _) Hbit). cbn [negb operandAnalysis].
  fold (operand_analysis meta).
  destruct (operand_analysis meta) as [ops| |] eqn:Han;
    cbn [thrown mbind outcome_bind]; [|done..].
  destruct (analyseOperands_some _ _ _ _ _ _ Han) as [x ->]. cbn [default].
  destruct inRegion; eexists _, _; split_and!; done.
Qed.

(** ** The choice of a region *)

(** X11: what [findRegion] chooses. As long as the extension cost of each of
    the three candidates is below 0xFFFFFFFF, it takes the first candidate
    that contains the code range and changes no region; failing that, it
    widens to the union with the code range the cheapest candidate whose
    cost times the expansion ratio, in single precision and truncated, is
    below its budget, the first one among equals; failing that, it inserts
    a new region. *)
Theorem findRegion_choice {EB} `{!ExecBlockOps EB} (m m' : Manager EB)
    (cr : Range) (r : nat) :
  (∀ i reg, i ∈ seq (searchRegion m (start cr)).2 3 →
            regions m !! i = Some reg →
            (spec_cost (covered reg) cr < 0xFFFFFFFF)%Z) →
  findRegion m cr = Done (m', r) →
  match policy (code_gate m) spec_cost (regions m)
               (searchRegion m (start cr)).2 cr with
  | Use i => r = i ∧ regions m' = regions m
  | Extend i =>
      r = i ∧ ∃ reg, regions m !! i = Some reg
                ∧ regions m'
                  = <[i := set_covered reg (extend (covered reg) cr)]> (regions m)
  | Create =>
      regions m' = take r (regions m) ++ new_region cr :: drop r (regions m)
  end.
Proof.
  intros Hcost Hfind. rewrite <- (findRegion_follows_policy m cr Hcost).
  by apply findRegion_decides.
Qed.

(** * The analysis of operands *)

Section OperandProperties.
Variable GPR_ID : list Z.
Variable MRI : MCRegisterInfo.

Lemma gpr_loop_spec gprs j regNo opa :
  ((∀ gpr, gpr ∈ gprs → isSubRegisterEq MRI gpr regNo = false)
   ∧ gpr_loop MRI gprs j regNo opa = opa)
  ∨ ∃ k gpr,
      gprs !! k = Some gpr ∧ isSubRegisterEq MRI gpr regNo = true
      ∧ (∀ k' gpr', k' < k → gprs !! k' = Some gpr' →
           isSubRegisterEq MRI gpr' regNo = false)
      ∧ gpr_loop MRI gprs j regNo opa
        = mkOperandAnalysis (op_type opa) (op_value opa)
            (if (gpr =? regNo)%Z then sizeof_rword
             else wrap8 (getSubRegIdxSize MRI (getSubRegIndex MRI gpr regNo)))
            (if (gpr =? regNo)%Z then regOff opa
             else wrap8 (getSubRegIdxOffset MRI (getSubRegIndex MRI gpr regNo)))
            (wrap8 (Z.of_nat (j + k))) (regName opa) (regAccess opa).
Proof.
  revert j. induction gprs as [|gpr gprs IH]; intros j; simpl.
  { left. split; [|done]. intros gpr Hin. by apply elem_of_nil in Hin. }
  destruct (isSubRegisterEq MRI gpr regNo) eqn:Hsub.
  - right. exists 0, gpr. split_and!; [done..|lia|].
    rewrite Nat.add_0_r. by destruct (gpr =? regNo)%Z.
  - destruct (IH (S j)) as [[Hnone ->]|(k & g & Hk & Hg & Hfirst & ->)].
    + left. split; [|done]. intros g [->|Hin]%elem_of_cons; eauto.
    + right. exists (S k), g. split_and!; [done..| |].
      * intros [|k'] g' Hlt; simpl; [by intros [= <-]|].
        apply Hfirst. lia.
      * by replace (S j + k) with (j + S k) by lia.
Qed.

Lemma same_register_eqb a b :
  (regName a =? regName b)%Z && (op_size a =? op_size b)%Z
  && (regOff a =? regOff b)%Z = true ↔ same_register a b.
Proof.
  unfold same_register. rewrite !andb_true_iff, !Z.eqb_eq. tauto.
Qed.

(** The loop of [tryMergeCurrentRegister] stops at the first operand of
    the type of [opa] that names the same part of the same register. *)
Lemma merge_loop_spec cnt j ops n opa x :
  merge_loop cnt j ops n opa = x → j + cnt ≤ length ops →
  ((∀ k pop, j ≤ k < j + cnt → ops !! k = Some pop →
      ¬ (op_type pop = op_type opa ∧ same_register pop opa))
   ∧ x = Returns (ops, n))
  ∨ ∃ k pop,
      j ≤ k < j + cnt ∧ ops !! k = Some pop
      ∧ op_type pop = op_type opa ∧ same_register pop opa
      ∧ (∀ k' pop', j ≤ k' < k → ops !! k' = Some pop' →
           ¬ (op_type pop' = op_type opa ∧ same_register pop' opa))
      ∧ x = Returns (<[n - 1 := zero_operand]> (<[k := merged pop opa]> ops),
                     n - 1).
Proof.
  revert j. induction cnt as [|cnt IH]; intros j Hx Hlen; cbn [merge_loop] in Hx.
  { left. split; [|done]. intros k pop Hk. lia. }
  destruct (lookup_lt_is_Some_2 ops j) as [pop Hpop]; [lia|].
  rewrite Hpop in Hx. simpl in Hx.
  assert (Htail : ¬ (op_type pop = op_type opa ∧ same_register pop opa) →
                  merge_loop cnt (S j) ops n opa = x →
                  ((∀ k pop, j ≤ k < j + S cnt → ops !! k = Some pop →
                      ¬ (op_type pop = op_type opa ∧ same_register pop opa))
                   ∧ x = Returns (ops, n))
                  ∨ ∃ k pop,
                      j ≤ k < j + S cnt ∧ ops !! k = Some pop
                      ∧ op_type pop = op_type opa ∧ same_register pop opa
                      ∧ (∀ k' pop', j ≤ k' < k → ops !! k' = Some pop' →
                           ¬ (op_type pop' = op_type opa ∧ same_register pop' opa))
                      ∧ x = Returns (<[n - 1 := zero_operand]>
                                       (<[k := merged pop opa]> ops), n - 1)).
  { intros Hno Hx'.
    destruct (IH (S j) Hx')
      as [[Hnone Heq]|(k & pop' & Hk & Hpop' & Ht & Hs & Hfirst & Heq)]; [lia| |].
    - left. split; [|done]. intros k pop' Hk Hpop'.
      destruct (decide (k = j)) as [->|Hne]; [congruence|].
      apply (Hnone k); [lia|done].
    - right. exists k, pop'. split_and!; try done; [lia..|].
      intros k' pop'' Hk' Hpop''.
      destruct (decide (k' = j)) as [->|Hne]; [congruence|].
      apply (Hfirst k'); [lia|done]. }
  destruct (bool_decide (op_type pop = op_type opa)) eqn:Hbd; simpl in Hx.
  - apply bool_decide_eq_true in Hbd.
    destruct (_ && _) eqn:Hsame.
    + apply same_register_eqb in Hsame. right. exists j, pop.
      split_and!; try done; [lia..|]. intros k' pop' Hk'. lia.
    + apply Htail; [|done]. intros [_ Hs%same_register_eqb]. congruence.
  - apply bool_decide_eq_false in Hbd. apply Htail; [tauto|done].
Qed.

Lemma access_lor a b :
  (a = REGISTER_READ ∨ a = REGISTER_WRITE ∨ a = REGISTER_READ_WRITE) →
  (b = REGISTER_READ ∨ b = REGISTER_WRITE ∨ b = REGISTER_READ_WRITE) →
  Z.lor a b = REGISTER_READ ∨ Z.lor a b = REGISTER_WRITE
  ∨ Z.lor a b = REGISTER_READ_WRITE.
Proof.
  unfold REGISTER_READ, REGISTER_WRITE, REGISTER_READ_WRITE.
  intros [->|[->| ->]] [->|[->| ->]]; simpl; auto.
Qed.

Lemma analysed_start size :
  analysed GPR_ID MRI size (replicate size zero_operand, 0).
Proof.
  split_and!; simpl.
  - apply length_replicate.
  - lia.
  - intros i j a b Hij Hj. lia.
  - intros k a Hk. lia.
  - intros k a _ [-> _]%lookup_replicate. done.
Qed.

(** [tryMergeCurrentRegister] after a register operand has been put at the
    count: the operand stays, or it is merged into the first operand that
    names the same part of the same register and its place is cleared. *)
Lemma tryMerge_analysed size ops n opa :
  analysed GPR_ID MRI size (ops, n) → n < size →
  op_type opa = OPERAND_GPR → register_operand GPR_ID MRI opa →
  ∃ st, tryMergeCurrentRegister (<[n := opa]> ops, S n) = Returns st
        ∧ analysed GPR_ID MRI size st ∧ n ≤ st.2 ≤ S n.
Proof.
  intros (Hlen & Hn & Hdist & Hok & Hspare) Hlt Htype Hreg. simpl in *.
  unfold tryMergeCurrentRegister.
  rewrite list_lookup_insert_eq by lia. simpl.
  destruct (merge_loop_spec n 0 (<[n := opa]> ops) (S n) opa _ eq_refl)
    as [[Hnone ->]|(k & pop & Hk & Hpop & Ht & Hs & Hfirst & ->)].
  { rewrite length_insert. lia. }
  - eexists. split; [done|]. split; [|simpl; lia].
    split_and!; simpl.
    + by rewrite length_insert.
    + lia.
    + intros i j a b Hij Hj Ha Hb Hta Htb.
      rewrite list_lookup_insert_ne in Ha by lia.
      destruct (decide (j = n)) as [->|Hne].
      * rewrite list_lookup_insert_eq in Hb by lia. injection Hb as <-.
        intros Hsame. apply (Hnone i a); [lia| |].
        -- by rewrite list_lookup_insert_ne by lia.
        -- split; [congruence|done].
      * rewrite list_lookup_insert_ne in Hb by done.
        apply (Hdist i j); [done|lia|done..].
    + intros i a Hi Ha. destruct (decide (i = n)) as [->|Hne].
      * rewrite list_lookup_insert_eq in Ha by lia. injection Ha as <-.
        by rewrite Htype.
      * rewrite list_lookup_insert_ne in Ha by done. apply (Hok i); [lia|done].
    + intros i a Hi Ha. rewrite list_lookup_insert_ne in Ha by lia.
      apply (Hspare i); [lia|done].
  - rewrite list_lookup_insert_ne in Hpop by lia.
    replace (S n - 1) with n by lia.
    assert (Hold : ∀ i a, i < n →
              <[n := zero_operand]>
                (<[k := merged pop opa]> (<[n := opa]> ops)) !! i = Some a →
              ∃ a0, ops !! i = Some a0 ∧ op_type a = op_type a0
                    ∧ regName a = regName a0 ∧ op_size a = op_size a0
                    ∧ regOff a = regOff a0
                    ∧ (a = a0 ∨ (i = k ∧ a = merged a0 opa))).
    { intros i a Hi Ha. rewrite list_lookup_insert_ne in Ha by lia.
      destruct (decide (i = k)) as [->|Hne].
      - rewrite list_lookup_insert_eq in Ha by (rewrite length_insert; lia).
        injection Ha as <-. exists pop. split_and!; try done. right. done.
      - rewrite list_lookup_insert_ne in Ha by done.
        rewrite list_lookup_insert_ne in Ha by lia.
        exists a. split_and!; try done. by left. }
    eexists. split; [done|]. split; [|simpl; lia].
    split_and!; simpl.
    + by rewrite !length_insert.
    + lia.
    + intros i j a b Hij Hj Ha Hb Hta Htb.
      destruct (Hold i a) as (a0 & Ha0 & Hta0 & Hna & Hsa & Hoa & _); [lia|done|].
      destruct (Hold j b) as (b0 & Hb0 & Htb0 & Hnb & Hsb & Hob & _); [lia|done|].
      intros (H1 & H2 & H3).
      apply (Hdist i j a0 b0); try done; try congruence.
      split_and!; congruence.
    + intros i a Hi Ha.
      destruct (Hold i a Hi Ha) as (a0 & Ha0 & Hta0 & Hna & Hsa & Hoa & Hcase).
      pose proof (Hok i a0 Hi Ha0) as Hok0.
      destruct Hcase as [->|[-> ->]]; [done|].
      rewrite Hpop in Ha0. injection Ha0 as <-.
      simpl. rewrite Ht, Htype in *.
      destruct Hok0 as (Hname & Hacc & Hctx).
      split_and!; try done. simpl. apply access_lor; [done|]. apply Hreg.
    + intros i a Hi Ha. destruct (decide (i = n)) as [->|Hne].
      * rewrite list_lookup_insert_eq in Ha by (rewrite !length_insert; lia).
        by injection Ha as <-.
      * rewrite list_lookup_insert_ne in Ha by done.
        rewrite list_lookup_insert_ne in Ha by lia.
        rewrite list_lookup_insert_ne in Ha by lia.
        apply (Hspare i); [lia|done].
Qed.

(** [analyseRegister] keeps the type and the access of the operand, sets
    its value and name, and finds the first register of the context that
    holds the register; without one the size is 0. *)
Lemma analyseRegister_spec opa regNo :
  let r := analyseRegister GPR_ID MRI opa regNo in
  op_type r = op_type opa ∧ regAccess r = regAccess opa
  ∧ op_value r = regNo ∧ regName r = getName MRI regNo
  ∧ (((∀ gpr, gpr ∈ GPR_ID → isSubRegisterEq MRI gpr regNo = false)
      ∧ op_size r = 0%Z ∧ regOff r = 0%Z ∧ regCtxIdx r = 0%Z)
     ∨ ∃ j gpr,
         GPR_ID !! j = Some gpr ∧ isSubRegisterEq MRI gpr regNo = true
         ∧ (∀ j' gpr', j' < j → GPR_ID !! j' = Some gpr' →
              isSubRegisterEq MRI gpr' regNo = false)
         ∧ regCtxIdx r = wrap8 (Z.of_nat j)
         ∧ (gpr = regNo → op_size r = sizeof_rword ∧ regOff r = 0%Z)
         ∧ (gpr ≠ regNo →
            op_size r
            = wrap8 (getSubRegIdxSize MRI (getSubRegIndex MRI gpr regNo))
            ∧ regOff r
              = wrap8 (getSubRegIdxOffset MRI (getSubRegIndex MRI gpr regNo)))).
Proof.
  unfold analyseRegister.
  destruct (gpr_loop_spec GPR_ID 0 regNo
              (mkOperandAnalysis (op_type opa) regNo 0 0 0 (getName MRI regNo)
                 (regAccess opa)))
    as [[Hnone ->]|(k & gpr & Hk & Hsub & Hfirst & ->)]; simpl.
  - split_and!; try done. by left.
  - split_and!; try done. right. exists k, gpr. split_and!; try done.
    + intros ->. by rewrite Z.eqb_refl.
    + intros Hne. by rewrite (proj2 (Z.eqb_neq _ _) Hne).
Qed.

Lemma analyseRegister_register opa regNo access :
  op_size (analyseRegister GPR_ID MRI opa regNo) ≠ 0%Z →
  (access = REGISTER_READ ∨ access = REGISTER_WRITE
   ∨ access = REGISTER_READ_WRITE) →
  ∀ size,
    register_operand GPR_ID MRI
      (mkOperandAnalysis OPERAND_GPR
         (op_value (analyseRegister GPR_ID MRI opa regNo)) size
         (regOff (analyseRegister GPR_ID MRI opa regNo))
         (regCtxIdx (analyseRegister GPR_ID MRI opa regNo))
         (regName (analyseRegister GPR_ID MRI opa regNo)) access).
Proof.
  intros Hsize Hacc size.
  destruct (analyseRegister_spec opa regNo)
    as (_ & _ & Hv & Hn & [(_ & Hz & _)|(j & gpr & Hj & Hsub & Hfirst & Hctx & _)]);
    [done|].
  split_and!; simpl; [by rewrite Hv|done|].
  exists j, gpr. rewrite Hv. split_and!; done.
Qed.

(** One turn of the loop over the operands: it returns with at most one
    operand more; or it throws, at a register operand from place 16 on; or
    it leaves the bounds, of the descriptions or of the array. *)
Lemma explicit_operand_analysed size desc regWrites i op ops n :
  analysed GPR_ID MRI size (ops, n) →
  (∃ st, explicit_operand GPR_ID MRI desc regWrites i op (ops, n) = Returns st
         ∧ analysed GPR_ID MRI size st ∧ n ≤ st.2 ≤ S n)
  ∨ (explicit_operand GPR_ID MRI desc regWrites i op (ops, n) = Throws
     ∧ 16 ≤ i ∧ ∃ regNo, op = RegOperand regNo)
  ∨ (explicit_operand GPR_ID MRI desc regWrites i op (ops, n) = Unbound
     ∧ (op ≠ InvalidOperand ∧ op ≠ OtherOperand)
     ∧ (OpInfo desc !! i = None ∨ size ≤ n)).
Proof.
  intros Han. pose proof Han as (Hlen & Hn & Hdist & Hok & Hspare).
  simpl in *.
  assert (Hsame : ∃ st, Returns (ops, n) = Returns st
                        ∧ analysed GPR_ID MRI size st ∧ n ≤ st.2 ≤ S n).
  { exists (ops, n). split_and!; [done..|simpl; lia|simpl; lia]. }
  destruct op as [|regNo|imm|]; simpl; [by left| | |by left].
  - destruct (OpInfo desc !! i) as [opdesc|] eqn:Hdesc; simpl;
      [|right; right; split_and!; [done..|by left]].
    destruct (bool_decide _); simpl; [|by left].
    destruct (ops !! n) as [slot|] eqn:Hslot; simpl.
    2:{ right; right. split_and!; [done..|]. right.
        apply lookup_ge_None in Hslot. lia. }
    pose proof (lookup_lt_Some _ _ _ Hslot) as Hlt.
    destruct (Hspare n slot) as [Hst Hsa]; [lia|done|].
    destruct (Z.eqb_spec (op_size (analyseRegister GPR_ID MRI slot regNo)) 0)
      as [Hz|Hnz].
    { left. eexists. split; [done|]. split; [|simpl; lia].
      destruct (analyseRegister_spec slot regNo) as (Ht & Ha & _).
      split_and!; simpl.
      - by rewrite length_insert.
      - lia.
      - intros a b x y Hab Hb Hx Hy.
        rewrite list_lookup_insert_ne in Hx by lia.
        rewrite list_lookup_insert_ne in Hy by lia. by apply (Hdist a b).
      - intros k a Hk Ha'. rewrite list_lookup_insert_ne in Ha' by lia.
        by apply (Hok k).
      - intros k a Hk Ha'. destruct (decide (k = n)) as [->|Hne].
        + rewrite list_lookup_insert_eq in Ha' by lia. injection Ha' as <-.
          by rewrite Ht, Ha.
        + rewrite list_lookup_insert_ne in Ha' by done. by apply (Hspare k). }
    unfold bitset_test. destruct (Nat.ltb_spec i 16) as [Hi|Hi]; simpl.
    2:{ right; left. split_and!; [done..|]. eauto. }
    left. apply tryMerge_analysed; [done|lia|done|].
    apply analyseRegister_register; [done|].
    destruct (Z.testbit _ _); [right; left|left]; done.
  - destruct (OpInfo desc !! i) as [opdesc|] eqn:Hdesc; simpl;
      [|right; right; split_and!; [done..|by left]].
    destruct (bool_decide _); simpl; [|by left].
    destruct (ops !! n) as [slot|] eqn:Hslot; simpl.
    2:{ right; right. split_and!; [done..|]. right.
        apply lookup_ge_None in Hslot. lia. }
    pose proof (lookup_lt_Some _ _ _ Hslot) as Hlt.
    destruct (Hspare n slot) as [Hst Hsa]; [lia|done|].
    left. eexists. split; [done|]. split; [|simpl; lia].
    split_and!; simpl.
    + by rewrite length_insert.
    + lia.
    + intros a b x y Hab Hb Hx Hy Htx Hty.
      rewrite list_lookup_insert_ne in Hx by lia.
      destruct (decide (b = n)) as [->|Hne].
      * rewrite list_lookup_insert_eq in Hy by lia. injection Hy as <-.
        simpl in Hty. by destruct (isPredicate opdesc).
      * rewrite list_lookup_insert_ne in Hy by done.
        apply (Hdist a b); [done|lia|done..].
    + intros k a Hk Ha'. destruct (decide (k = n)) as [->|Hne].
      * rewrite list_lookup_insert_eq in Ha' by lia. injection Ha' as <-.
        simpl. by destruct (isPredicate opdesc).
      * rewrite list_lookup_insert_ne in Ha' by done. apply (Hok k); [lia|done].
    + intros k a Hk Ha'. rewrite list_lookup_insert_ne in Ha' by lia.
      apply (Hspare k); [lia|done].
Qed.

Lemma explicit_loop_analysed size desc regWrites i rest st :
  analysed GPR_ID MRI size st →
  (∃ st', explicit_loop GPR_ID MRI desc regWrites i rest st = Returns st'
          ∧ analysed GPR_ID MRI size st'
          ∧ st.2 ≤ st'.2 ≤ st.2 + length rest)
  ∨ (explicit_loop GPR_ID MRI desc regWrites i rest st = Throws
     ∧ ∃ k regNo, rest !! k = Some (RegOperand regNo) ∧ 16 ≤ i + k)
  ∨ (explicit_loop GPR_ID MRI desc regWrites i rest st = Unbound
     ∧ ((∃ k op, rest !! k = Some op ∧ op ≠ InvalidOperand ∧ op ≠ OtherOperand
                 ∧ OpInfo desc !! (i + k) = None)
        ∨ size < st.2 + length rest)).
Proof.
  revert i st. induction rest as [|op rest IH]; intros i [ops n] Han;
    cbn [explicit_loop].
  { left. exists (ops, n). split_and!; [done..|simpl; lia|simpl; lia]. }
  destruct (explicit_operand_analysed size desc regWrites i op ops n Han)
    as [(st1 & -> & Han1 & Hn1)|[(-> & Hi & regNo & ->)|(-> & [Hop1 Hop2] & Hwhy)]];
    simpl.
  - destruct (IH (S i) st1 Han1)
      as [(st2 & -> & Han2 & Hn2)|[(-> & k & regNo & Hk & Hik)|(-> & Hwhy)]].
    + left. exists st2. split_and!; [done..|lia|simpl in *; lia].
    + right; left. split; [done|]. exists (S k), regNo. split; [done|lia].
    + right; right. split; [done|].
      destruct Hwhy as [(k & op' & Hk & ? & ? & Hnone)|Hsize].
      * left. exists (S k), op'. split_and!; try done.
        by replace (i + S k) with (S i + k) by lia.
      * right. simpl in *. lia.
  - right; left. split; [done|]. exists 0, regNo. split; [done|lia].
  - right; right. split; [done|].
    destruct Hwhy as [Hnone|Hsize].
    + left. exists 0, op. rewrite Nat.add_0_r. split_and!; done.
    + right. simpl. lia.
Qed.

Lemma implicit_loop_analysed size regs type st :
  analysed GPR_ID MRI size st →
  (type = REGISTER_READ ∨ type = REGISTER_WRITE ∨ type = REGISTER_READ_WRITE) →
  (∃ st', implicit_loop GPR_ID MRI regs type st = Returns st'
          ∧ analysed GPR_ID MRI size st'
          ∧ st.2 ≤ st'.2 ≤ st.2 + length regs)
  ∨ (implicit_loop GPR_ID MRI regs type st = Unbound
     ∧ size < st.2 + length regs).
Proof.
  intros Han Htype. revert st Han.
  induction regs as [|reg regs IH]; intros [ops n] Han; cbn [implicit_loop].
  { left. exists (ops, n). split_and!; [done..|simpl; lia|simpl; lia]. }
  assert (Hskip : (∃ st', implicit_loop GPR_ID MRI regs type (ops, n) = Returns st'
                     ∧ analysed GPR_ID MRI size st'
                     ∧ n ≤ st'.2 ≤ n + S (length regs))
                  ∨ (implicit_loop GPR_ID MRI regs type (ops, n) = Unbound
                     ∧ size < n + S (length regs))).
  { destruct (IH (ops, n) Han) as [(st' & -> & ? & ?)|[-> ?]]; simpl in *.
    - left. exists st'. split_and!; [done..|lia|lia].
    - right. split; [done|lia]. }
  cbv zeta.
  destruct (Z.eqb_spec (op_size (analyseRegister GPR_ID MRI zero_operand reg)) 0)
    as [Hz|Hnz]; cbn [negb]; [done|].
  destruct (ops !! n) as [slot|] eqn:Hslot; cbn [element mbind thrower_bind].
  2:{ right. split; [done|]. apply lookup_ge_None in Hslot.
      destruct Han as (Hlen & _). simpl in *. lia. }
  pose proof (lookup_lt_Some _ _ _ Hslot) as Hlt.
  destruct (tryMerge_analysed size ops n
              (mkOperandAnalysis OPERAND_GPR
                 (op_value (analyseRegister GPR_ID MRI zero_operand reg))
                 (op_size (analyseRegister GPR_ID MRI zero_operand reg))
                 (regOff (analyseRegister GPR_ID MRI zero_operand reg))
                 (regCtxIdx (analyseRegister GPR_ID MRI zero_operand reg))
                 (regName (analyseRegister GPR_ID MRI zero_operand reg)) type))
    as (st1 & Hst1 & Han1 & Hn1); [done| |done| |].
  { destruct Han as (Hlen & _). simpl in Hlen. lia. }
  { by apply analyseRegister_register. }
  rewrite Hst1. cbn [element mbind thrower_bind].
  destruct (IH st1 Han1) as [(st' & -> & ? & ?)|[-> ?]]; simpl in *.
  - left. exists st'. split_and!; [done..|lia|lia].
  - right. split; [done|lia].
Qed.

Lemma writes_loop_spec inst cnt i regWrites :
  i + cnt ≤ length inst →
  (∃ w, writes_loop inst cnt i regWrites = Returns w
        ∧ ∀ k regNo, i ≤ k < i + cnt → inst !! k = Some (RegOperand regNo) →
            k < 16)
  ∨ (writes_loop inst cnt i regWrites = Throws
     ∧ ∃ k regNo, i ≤ k < i + cnt ∧ inst !! k = Some (RegOperand regNo)
                  ∧ 16 ≤ k).
Proof.
  revert i regWrites. induction cnt as [|cnt IH]; intros i regWrites Hlen;
    cbn [writes_loop].
  { left. eexists. split; [done|]. intros k regNo Hk. lia. }
  destruct (lookup_lt_is_Some_2 inst i) as [op Hop]; [lia|].
  rewrite Hop. simpl.
  assert (Hrest : ∀ w, (∀ regNo, op = RegOperand regNo → i < 16) →
            (∃ w', writes_loop inst cnt (S i) w = Returns w'
               ∧ ∀ k regNo, i ≤ k < i + S cnt →
                   inst !! k = Some (RegOperand regNo) → k < 16)
            ∨ (writes_loop inst cnt (S i) w = Throws
               ∧ ∃ k regNo, i ≤ k < i + S cnt
                   ∧ inst !! k = Some (RegOperand regNo) ∧ 16 ≤ k)).
  { intros w Hi. destruct (IH (S i) w) as [(w' & -> & Hall)|(-> & k & r & Hk & Hr & Hge)];
      [lia| |].
    - left. exists w'. split; [done|]. intros k regNo Hk Hr.
      destruct (decide (k = i)) as [->|Hne].
      + rewrite Hop in Hr. injection Hr as ->. by eapply Hi.
      + apply (Hall k regNo); [lia|done].
    - right. split; [done|]. exists k, r. split_and!; try done; lia. }
  destruct op as [|regNo|imm|]; simpl; try by apply Hrest.
  unfold bitset_set. destruct (Nat.ltb_spec i 16) as [Hi|Hi]; simpl.
  - apply Hrest. by intros _ _.
  - right. split; [done|]. exists i, regNo. split_and!; try done; lia.
Qed.

Lemma wrap8_small x : (0 <= x < 256)%Z → wrap8 x = x.
Proof. intros H. unfold wrap8, wrap. by apply Z.mod_small. Qed.

Lemma analyseImplicitRegisters_analysed size regs type st :
  analysed GPR_ID MRI size st →
  (type = REGISTER_READ ∨ type = REGISTER_WRITE ∨ type = REGISTER_READ_WRITE) →
  (∃ st', analyseImplicitRegisters GPR_ID MRI regs type st = Returns st'
          ∧ analysed GPR_ID MRI size st'
          ∧ st.2 ≤ st'.2 ≤ st.2 + implicit_count regs)
  ∨ (analyseImplicitRegisters GPR_ID MRI regs type st = Unbound
     ∧ size < st.2 + implicit_count regs).
Proof.
  intros Han Htype. destruct regs as [l|]; simpl.
  - by apply implicit_loop_analysed.
  - left. exists st. split_and!; [done..|lia|lia].
Qed.

(** X12: what [analyseOperands] returns. The array has as many elements as
    there are operands and implicit registers, modulo 2^8, and the count is
    within it. Below the count every element is a register operand or an
    immediate: a register operand names its register, is read, written or
    both, and its context index is that of the first register of the
    context that holds it; an immediate has the size of a word and no
    access. No two register operands name the same part of the same
    register. From the count on the elements are cleared of type and
    access. *)
Theorem analyseOperands_result (instAnalysis : option Operands)
    (inst : list MCOperand) (desc : MCInstrDesc) (r : Operands)
    (ops : list OperandAnalysis) :
  analyseOperands GPR_ID MRI instAnalysis inst desc = Returns (Some r) →
  operands r = Some ops →
  analysed GPR_ID MRI
    (Z.to_nat (wrap8 (wrap8 (Z.of_nat (length inst))
                      + Z.of_nat (getNumImplicitDefs desc)
                      + Z.of_nat (getNumImplicitUses desc))))
    (ops, numOperands r).
Proof.
  unfold analyseOperands. destruct instAnalysis as [x|]; [|done].
  destruct (_ =? 0)%Z; [by intros [= <-]|].
  set (size := Z.to_nat (wrap8 (_ + _ + _))).
  destruct (writes_loop _ _ _ _) as [w| |]; cbn [mbind thrower_bind]; [|done..].
  destruct (explicit_loop_analysed size desc w 0
              (take (Z.to_nat (wrap8 (Z.of_nat (length inst)))) inst)
              (replicate size zero_operand, 0) (analysed_start size))
    as [(st1 & -> & Han1 & _)|[[-> _]|[-> _]]]; cbn [mbind thrower_bind];
    [|done..].
  destruct (analyseImplicitRegisters_analysed size (getImplicitDefs desc)
              REGISTER_WRITE st1 Han1)
    as [(st2 & -> & Han2 & _)|[-> _]]; cbn [mbind thrower_bind];
    [by right; left| |done].
  destruct (analyseImplicitRegisters_analysed size (getImplicitUses desc)
              REGISTER_READ st2 Han2)
    as [(st3 & -> & Han3 & _)|[-> _]]; cbn [mbind thrower_bind];
    [by left| |done].
  intros [= <-] [= <-]. by destruct st3.
Qed.

(** X13: [analyseOperands] returns, without an exception and within the
    bounds of every array, when the operands and the implicit registers
    number less than 256, the definitions are among the operands, every
    register operand is at a place below 16 and every operand has a
    description. The count is then at most the sum of their numbers. *)
Theorem analyseOperands_in_bounds (x : Operands) (inst : list MCOperand)
    (desc : MCInstrDesc) :
  length inst + getNumImplicitDefs desc + getNumImplicitUses desc < 256 →
  (isVariadic desc = false → getNumDefs desc ≤ length inst) →
  (∀ k regNo, inst !! k = Some (RegOperand regNo) → k < 16) →
  length inst ≤ length (OpInfo desc) →
  ∃ r, analyseOperands GPR_ID MRI (Some x) inst desc = Returns (Some r)
       ∧ numOperands r
         ≤ length inst + getNumImplicitDefs desc + getNumImplicitUses desc
       ∧ match operands r with
         | Some ops =>
             length ops
             = length inst + getNumImplicitDefs desc + getNumImplicitUses desc
         | None => inst = [] ∧ getNumImplicitDefs desc = 0
                   ∧ getNumImplicitUses desc = 0
         end.
Proof.
  intros Hsmall Hdefs Hregs Hinfo. unfold analyseOperands.
  rewrite (wrap8_small (Z.of_nat (length inst))) by lia.
  rewrite wrap8_small by lia.
  destruct (Z.eqb_spec (Z.of_nat (length inst)
                        + Z.of_nat (getNumImplicitDefs desc)
                        + Z.of_nat (getNumImplicitUses desc)) 0) as [Hz|Hnz].
  { eexists. split; [done|]. simpl. split; [lia|].
    split_and!; [|lia..]. destruct inst; [done|simpl in Hz; lia]. }
  set (size := Z.to_nat (_ + _ + _)).
  assert (Hsize : size = length inst + getNumImplicitDefs desc
                         + getNumImplicitUses desc) by (unfold size; lia).
  rewrite Nat2Z.id, firstn_all.
  destruct (writes_loop_spec inst
              (if isVariadic desc then length inst else getNumDefs desc) 0 0)
    as [(w & -> & _)|(_ & k & regNo & _ & Hk & Hge)]; cbn [mbind thrower_bind].
  { destruct (isVariadic desc); [lia|]. by apply Hdefs. }
  2:{ specialize (Hregs k regNo Hk). lia. }
  destruct (explicit_loop_analysed size desc w 0 inst
              (replicate size zero_operand, 0) (analysed_start size))
    as [(st1 & -> & Han1 & Hn1)
       |[(_ & k & regNo & Hk & Hge)
        |(_ & [(k & op & Hk & _ & _ & Hnone)|Hlt])]]; cbn [mbind thrower_bind fst snd] in *.
  2:{ specialize (Hregs k regNo Hk). lia. }
  2:{ apply lookup_lt_Some in Hk. apply lookup_ge_None in Hnone. lia. }
  2:{ lia. }
  destruct (analyseImplicitRegisters_analysed size (getImplicitDefs desc)
              REGISTER_WRITE st1 Han1)
    as [(st2 & -> & Han2 & Hn2)|[_ Hlt]]; cbn [mbind thrower_bind];
    [by right; left| |unfold getNumImplicitDefs in *; lia].
  destruct (analyseImplicitRegisters_analysed size (getImplicitUses desc)
              REGISTER_READ st2 Han2)
    as [(st3 & -> & Han3 & Hn3)|[_ Hlt]]; cbn [mbind thrower_bind];
    [by left| |unfold getNumImplicitDefs, getNumImplicitUses in *; lia].
  eexists. split; [done|]. simpl.
  destruct Han3 as (Hlen & _).
  unfold getNumImplicitDefs, getNumImplicitUses in *. split; lia.
Qed.

(** X14: a register operand at a place from 16 on, among the operands that
    the loop for the written registers visits, makes [analyseOperands]
    throw [std::out_of_range]: the bit set of the written registers has 16
    places. *)
Theorem analyseOperands_throws (x : Operands) (inst : list MCOperand)
    (desc : MCInstrDesc) (k : nat) (regNo : Z) :
  let e := if isVariadic desc then length inst else getNumDefs desc in
  e ≤ length inst → k < e → 16 ≤ k →
  inst !! k = Some (RegOperand regNo) →
  wrap8 (wrap8 (Z.of_nat (length inst)) + Z.of_nat (getNumImplicitDefs desc)
         + Z.of_nat (getNumImplicitUses desc)) ≠ 0%Z →
  analyseOperands GPR_ID MRI (Some x) inst desc = Throws.
Proof.
  intros e He Hk Hge Hop Hmax. unfold analyseOperands.
  rewrite (proj2 (Z.eqb_neq _ _) Hmax). fold e.
  destruct (writes_loop_spec inst e 0 0) as [(w & _ & Hall)|[-> _]];
    [lia| |done].
  specialize (Hall k regNo ltac:(lia) Hop). lia.
Qed.

End OperandProperties.

(** ** The static helpers *)

(** X15: [analyseRegister] keeps the type and the access of the operand and
    sets its value and its name. It looks for the first register of the
    context that holds the register: the context index is its place; the
    size is that of a word when it is the register itself, else size and
    offset are those of the sub-register index; and when no register of the
    context holds it, size, offset and context index are 0. *)
Theorem analyseRegister_finds_first (GPR_ID : list Z) (MRI : MCRegisterInfo)
    (opa : OperandAnalysis) (regNo : Z) :
  let r := analyseRegister GPR_ID MRI opa regNo in
  op_type r = op_type opa ∧ regAccess r = regAccess opa
  ∧ op_value r = regNo ∧ regName r = getName MRI regNo
  ∧ (((∀ gpr, gpr ∈ GPR_ID → isSubRegisterEq MRI gpr regNo = false)
      ∧ op_size r = 0%Z ∧ regOff r = 0%Z ∧ regCtxIdx r = 0%Z)
     ∨ ∃ j gpr,
         GPR_ID !! j = Some gpr ∧ isSubRegisterEq MRI gpr regNo = true
         ∧ (∀ j' gpr', j' < j → GPR_ID !! j' = Some gpr' →
              isSubRegisterEq MRI gpr' regNo = false)
         ∧ regCtxIdx r = wrap8 (Z.of_nat j)
         ∧ (gpr = regNo → op_size r = sizeof_rword ∧ regOff r = 0%Z)
         ∧ (gpr ≠ regNo →
            op_size r
            = wrap8 (getSubRegIdxSize MRI (getSubRegIndex MRI gpr regNo))
            ∧ regOff r
              = wrap8 (getSubRegIdxOffset MRI (getSubRegIndex MRI gpr regNo)))).
Proof. apply analyseRegister_spec. Qed.

(** X16: [tryMergeCurrentRegister] looks among the operands before the
    last one for the first that has the type of the last one and names the
    same part of the same register. When there is one, the access of the
    last operand is added to its access, the last operand is cleared and
    the count goes down by one; when there is none nothing changes. With no
    operand at all it reads before the array. *)
Theorem tryMergeCurrentRegister_spec (ops : list OperandAnalysis) (n : nat)
    (opa : OperandAnalysis) :
  ops !! n = Some opa →
  ((∀ k pop, k < n → ops !! k = Some pop →
      ¬ (op_type pop = op_type opa ∧ same_register pop opa)) →
   tryMergeCurrentRegister (ops, S n) = Returns (ops, S n))
  ∧ (∀ k pop,
       k < n → ops !! k = Some pop →
       op_type pop = op_type opa → same_register pop opa →
       (∀ k' pop', k' < k → ops !! k' = Some pop' →
          ¬ (op_type pop' = op_type opa ∧ same_register pop' opa)) →
       tryMergeCurrentRegister (ops, S n)
       = Returns (<[n := zero_operand]> (<[k := merged pop opa]> ops), n))
  ∧ tryMergeCurrentRegister (ops, 0) = Unbound.
Proof.
  intros Hopa. pose proof (lookup_lt_Some _ _ _ Hopa) as Hlt.
  unfold tryMergeCurrentRegister. rewrite Hopa. simpl.
  destruct (merge_loop_spec n 0 ops (S n) opa _ eq_refl)
    as [[Hnone Heq]|(k & pop & Hk & Hpop & Ht & Hs & Hfirst & Heq)]; [lia| |].
  - split_and!; [done| |done].
    intros k pop Hk Hpop Ht Hs _. exfalso. apply (Hnone k pop); [lia|done..].
  - replace (S n - 1) with n in Heq by lia. split_and!; [| |done].
    + intros Hnone. exfalso. apply (Hnone k pop); [lia|done..].
    + intros k2 pop2 Hk2 Hpop2 Ht2 Hs2 Hfirst2.
      assert (k2 = k) as ->.
      { destruct (Nat.lt_total k2 k) as [Hlt2|[->|Hgt]]; [|done|].
        - exfalso. apply (Hfirst k2 pop2); [lia|done..].
        - exfalso. apply (Hfirst2 k pop); [lia|done..]. }
      rewrite Hpop in Hpop2. by injection Hpop2 as <-.
Qed.

(** ** Statistics *)

Lemma occupation_loop_defined {EB} (occupationRatio : EB → float)
    (h : gmap nat EB) bs occupation :
  (∀ p, p ∈ bs → is_Some (h !! p)) →
  ∃ x, occupation_loop occupationRatio h bs occupation = Done x.
Proof.
  revert occupation. induction bs as [|p bs IH]; intros occupation Hlive; simpl.
  { eauto. }
  destruct (Hlive p) as [b Hb]; [apply list_elem_of_here|].
  rewrite Hb. simpl. apply IH. intros q Hq. apply Hlive.
  by apply list_elem_of_further.
Qed.

Lemma region_loop_counts {EB} (occupationRatio : EB → float)
    (h : gmap nat EB) rs mean overflow lines :
  (∀ reg p, reg ∈ rs → p ∈ blocks reg → is_Some (h !! p)) →
  ∃ mean' lines',
    region_loop occupationRatio h rs mean overflow lines
    = Done (mean', overflow + overflowing rs, lines ++ lines')
    ∧ (λ l, (line_covered l, line_blocks l)) <$> lines'
      = (λ reg, (covered reg, length (blocks reg))) <$> rs.
Proof.
  revert mean overflow lines.
  induction rs as [|reg rs IH]; intros mean overflow lines Hlive; simpl.
  { exists mean, []. unfold overflowing. simpl.
    by rewrite Nat.add_0_r, app_nil_r. }
  destruct (occupation_loop_defined occupationRatio h (blocks reg) float_zero)
    as [x Hx].
  { intros p Hp. apply (Hlive reg); [apply list_elem_of_here|done]. }
  rewrite Hx. simpl.
  edestruct IH as (mean' & lines' & Hloop & Hlines).
  { intros reg' p Hreg'. apply Hlive. by apply list_elem_of_further. }
  rewrite Hloop. eexists _, (_ :: lines'). split.
  - rewrite <- app_assoc. simpl. do 3 f_equal.
    unfold overflowing. rewrite filter_cons.
    destruct (Nat.ltb_spec 1 (length (blocks reg))).
    + rewrite decide_True by done. simpl. lia.
    + rewrite decide_False by lia. lia.
  - rewrite !fmap_cons. by rewrite Hlines.
Qed.

(** X17: in a reachable state [printCacheStatistics] follows no dangling
    block. It reports the number of regions, one line for each region in
    the order of the array with its covered range and the number of its
    blocks, and as overflow count the number of regions that have more
    than one block; for an empty cache the mean occupation is 0. *)
Theorem printCacheStatistics_counts {EB} `{!ExecBlockOps EB} {target : Target}
    (occupationRatio : EB → float) (m : Manager EB) :
  reachable m →
  ∃ s, printCacheStatistics occupationRatio m = Done s
       ∧ stat_regions s = length (regions m)
       ∧ (λ l, (line_covered l, line_blocks l)) <$> stat_lines s
         = (λ reg, (covered reg, length (blocks reg))) <$> regions m
       ∧ region_overflow s = overflowing (regions m)
       ∧ (regions m = [] → mean_occupation s = float_zero).
Proof.
  intros Hreach. destruct (reachable_alive m Hreach) as [_ Halive].
  unfold printCacheStatistics.
  destruct (region_loop_counts occupationRatio (heap m) (regions m)
              float_zero 0 []) as (mean' & lines' & Hloop & Hlines).
  { intros reg p. apply Halive. }
  rewrite Hloop. simpl. eexists. split; [done|]. simpl.
  split_and!; try done.
  intros Hnil. rewrite Hnil in Hloop |- *. simpl in *. by injection Hloop as <- _.
Qed.

(** X8: on a reachable state the destructor returns, whether it logs the
    statistics or not, and leaves no region and no live block. The slot,
    the pending list and the analysis cache of the manager are left as
    they are. *)
Theorem destructor_frees_blocks {EB} `{!ExecBlockOps EB} {target : Target}
    (occupationRatio : EB → float) (logged : bool) (m : Manager EB) :
  reachable m →
  ∃ m', destructor occupationRatio logged m = Done m'
    ∧ regions m' = []
    ∧ heap m' = ∅
    ∧ searchCache m' = searchCache m
    ∧ flushList m' = flushList m
    ∧ globalAnalysisCache m' = globalAnalysisCache m.
Proof.
  intros Hreach.
  destruct (clear_loop_empties (length (regions m)) m) as (m' & Hm' & Hregs & Hc);
    [done|].
  assert (destructor occupationRatio logged m = Done m') as Hd.
  { unfold destructor, clearCache. destruct logged; [|done].
    destruct (reachable_alive m Hreach) as [_ Halive].
    unfold printCacheStatistics.
    destruct (region_loop_counts occupationRatio (heap m) (regions m)
                float_zero 0 []) as (mean' & lines' & Hloop & _).
    { intros reg p. apply Halive. }
    by rewrite Hloop. }
  exists m'. destruct (clear_loop_frame _ _ _ Hm') as (Hf & Hg & _).
  split_and!; try done.
  destruct (reachable_tidy m Hreach) as [Hl Hb].
  destruct (clear_loop_tidy _ _ _ Hl Hb Hm') as [Hl' _].
  apply map_empty. intros p. destruct (heap m' !! p) as [b|] eqn:Hp; [|done].
  destruct (Hl' p) as (bs & Hbs & _); [eauto|].
  rewrite Hregs in Hbs. by apply elem_of_nil in Hbs.
Qed.

(** ** The further properties on sample runs *)

(** Again over the small register file. *)
Section OnMoreSampleRuns.
#[local] Existing Instance toy_target.

Lemma cold_reachable : reachable cold.
Proof. eapply state_after_reachable with (m := cold). by_run. Qed.

(** X1 on the first sample: a split at its second instruction. *)
Lemma run_persists_witness :
  ∃ m', run cold (GetSeqLoc 0x1004) = Done m'
        ∧ persists cold m' ∧ length (regions cold) ≤ length (regions m').
Proof.
  destruct (run cold (GetSeqLoc 0x1004)) as [m'| | |] eqn:Hrun;
    [|by vm_compute in Hrun..].
  exists m'. split; [reflexivity|].
  exact (run_persists cold m' (GetSeqLoc 0x1004) eq_refl Hrun).
Defined.

(** X6 on the first sample: the index pushed by [clearCache(range)] is in
    range, and the commit goes through. *)
Lemma pending_indices_in_range_witness :
  pending_in_range (clearCache_range cold (mkRange 0x1000 0x1004))
  ∧ ∃ m', flushCommit (clearCache_range cold (mkRange 0x1000 0x1004)) = Done m'
          ∧ flushList m' = [].
Proof.
  assert (Hp : pending_in_range cold) by decided.
  assert (Hp' : pending_in_range (clearCache_range cold (mkRange 0x1000 0x1004))).
  { refine (proj1 (pending_indices_in_range cold)
              (ClearCacheRange (mkRange 0x1000 0x1004)) _ Hp _ eq_refl).
    discriminate. }
  split; [exact Hp'|].
  destruct (proj1 (proj2 (pending_indices_in_range
                            (clearCache_range cold (mkRange 0x1000 0x1004)))) Hp')
    as (m' & Hm' & _ & Hf).
  exists m'. split; [exact Hm'|exact Hf].
Defined.

(** X5 on the first sample: after the invalidation of its first
    instruction the whole region is gone. *)
Lemma invalidated_range_misses_witness :
  ∃ m', flushCommit (clearCache_range cold (mkRange 0x1000 0x1004)) = Done m'
        ∧ getSeqLoc m' 0x1002 = Done ((searchRegion m' 0x1002).1, nil_SeqLoc).
Proof.
  destruct (invalidated_range_misses cold (mkRange 0x1000 0x1004) 0x1002)
    as (m' & Hm' & _ & Hget & _).
  - decided.
  - simpl. lia.
  - exists m'. split; [exact Hm'|exact Hget].
Defined.

(** X4 on the first sample, entered at its second instruction. *)
Lemma getSeqLoc_stable_witness :
  ∃ m' seqLoc, getSeqLoc cold 0x1004 = Done (m', seqLoc)
               ∧ getSeqLoc m' 0x1004 = Done (m', seqLoc).
Proof.
  destruct (getSeqLoc cold 0x1004) as [[m' seqLoc]| | |] eqn:Hget;
    [|by vm_compute in Hget..].
  exists m', seqLoc. split; [reflexivity|].
  exact (getSeqLoc_stable cold 0x1004 m' seqLoc Hget).
Defined.

(** X3 on the first sample. *)
Lemma writeBasicBlock_then_lookup_witness :
  ∃ seqLoc, getSeqLoc cold 0x1000 = Done (cold, seqLoc)
            ∧ getBBInfo cold 0x1000
              = Done (cold, Some (mkBBInfo 0x1000 0x100C)).
Proof.
  destruct (writeBasicBlock_then_lookup 3 (newManager : Manager SimpleBlock)
              cold (block_at 0x1000 3) (mkPatch (mkInstMetadata toy_nop 0x1000 4))
              (mkPatch (mkInstMetadata toy_nop 0x1008 4)) reachable_fresh
              eq_refl eq_refl)
    as (m0 & r & reg0 & reg' & seqLoc & Hfind & Hreg0 & _ & _ & Hget & Hnew).
  - vm_compute. reflexivity.
  - by_run.
  - vm_compute in Hfind. injection Hfind as <- <-.
    vm_compute in Hreg0. injection Hreg0 as <-.
    destruct Hnew as (_ & _ & _ & Hinfo); [reflexivity|].
    exists seqLoc. split; [exact Hget|]. apply Hinfo. vm_compute. reflexivity.
Defined.

(** X2 on the first sample. *)
Lemma lookups_in_bounds_witness :
  (∃ m' seqLoc, getSeqLoc cold 0x1004 = Done (m', seqLoc))
  ∧ (∃ m' b, getExecBlock cold 0x1004 = Done (m', b))
  ∧ (∃ m' bb, getBBInfo cold 0x1004 = Done (m', bb)).
Proof. exact (lookups_in_bounds cold 0x1004 cold_reachable). Defined.

(** X7 on the first sample: block 0 is live and belongs to region 0. *)
Lemma heap_is_blocks_of_regions_witness :
  is_Some (heap cold !! 0) ↔ ∃ reg, reg ∈ regions cold ∧ 0 ∈ blocks reg.
Proof. exact (proj1 (heap_is_blocks_of_regions cold cold_reachable) 0). Defined.

(** X8 on the first sample. *)
Lemma destructor_frees_blocks_witness :
  ∃ m', destructor (λ _ : SimpleBlock, float_zero) true cold = Done m'
        ∧ regions m' = [] ∧ heap m' = ∅.
Proof.
  destruct (destructor_frees_blocks (λ _ : SimpleBlock, float_zero) true cold
              cold_reachable) as (m' & Hm' & Hregs & Hheap & _).
  exists m'. split_and!; [exact Hm'|exact Hregs|exact Hheap].
Defined.

(** X9 on the first sample: an analysis of the addition at the second
    instruction, with its operands and its flags, serves a request for the
    operands at that address. *)
Lemma analyzeInstMetadata_cached_witness :
  ∃ m1 a,
    analyzeInstMetadata cold (Some (mkInstMetadata toy_add_inst 0x1004 4)) 5
    = Done (m1, Some a)
    ∧ numOperands (operandAnalysis a) = 2
    ∧ analyzeInstMetadata m1 (Some (mkInstMetadata toy_nop 0x1004 4)) 4
      = Done (m1, Some a).
Proof.
  destruct (analyzeInstMetadata cold
              (Some (mkInstMetadata toy_add_inst 0x1004 4)) 5)
    as [[m1 a']| | |] eqn:Hrun; [|by vm_compute in Hrun..].
  destruct (proj2 (analyzeInstMetadata_cached cold
                     (mkInstMetadata toy_add_inst 0x1004 4) 5) m1 a' Hrun)
    as (a & -> & _ & Hhit).
  exists m1, a.
  assert (Ha : analysisType a = 5%Z ∧ numOperands (operandAnalysis a) = 2).
  { vm_compute in Hrun. injection Hrun as _ <-. split; reflexivity. }
  destruct Ha as [Ht Hn].
  split; [reflexivity|]. split; [exact Hn|].
  refine (proj1 (Hhit cold_region _ _ (mkInstMetadata toy_nop 0x1004 4) 4%Z _) _).
  - by_run.
  - by_run.
  - reflexivity.
  - rewrite Ht. reflexivity.
Defined.

(** X10 on the first sample: an instruction at 0x9000 lies in no region,
    and the analysis that the cache of the manager holds for it is not
    returned. *)
Lemma global_analysis_cache_write_only_witness :
  ∃ m' a,
    analyzeInstMetadata
      (set_globalAnalysisCache cold
         {[ 0x9000%Z := mkInstAnalysis 15 (mkOperands 0 None) ]})
      (Some (mkInstMetadata toy_nop 0x9000 4)) 1
    = Done (m', Some a)
    ∧ analysisType a = 1%Z.
Proof.
  set (m := set_globalAnalysisCache cold _).
  set (meta := mkInstMetadata toy_nop 0x9000 4).
  destruct (analyzeInstMetadata m (Some meta) 1) as [[m' a']| | |] eqn:Hrun;
    [|by vm_compute in Hrun..].
  destruct (proj2 (global_analysis_cache_write_only m (Some meta) 1) meta
              eq_refl) as [_ Hbuilt].
  { intros reg Hreg. vm_compute in Hreg. injection Hreg as <-. by_run. }
  destruct (Hbuilt m' a' Hrun) as (a & -> & Ht & _).
  exists m', a. split; [reflexivity|exact Ht].
Defined.

(** X18 on the first sample: the list of 17 registers makes the request
    for its operands throw. *)
Lemma analyzeInstMetadata_operands_witness :
  analyzeInstMetadata cold (Some (mkInstMetadata toy_list_inst 0x1004 4)) 4
  = Thrown.
Proof.
  pose proof (analyzeInstMetadata_operands cold
                (mkInstMetadata toy_list_inst 0x1004 4) 4) as H.
  assert (Hthrows : operand_analysis (mkInstMetadata toy_list_inst 0x1004 4)
                    = Throws) by by_run.
  rewrite Hthrows in H. apply H.
  - discriminate.
  - intros reg a Hreg _ Ha. vm_compute in Hreg. injection Hreg as <-.
    by vm_compute in Ha.
Defined.

(** X12 on the sample addition: the register 11 is written and read and
    makes one operand. *)
Lemma analyseOperands_result_witness :
  analysed toy_GPR_ID toy_MRI 4
    ([mkOperandAnalysis OPERAND_GPR 11 4 0 0 1011 3;
      mkOperandAnalysis OPERAND_GPR 12 4 0 1 1012 1;
      zero_operand; zero_operand], 2).
Proof.
  exact (analyseOperands_result toy_GPR_ID toy_MRI (Some (mkOperands 0 None))
           toy_add toy_add_desc
           (mkOperands 2
              (Some [mkOperandAnalysis OPERAND_GPR 11 4 0 0 1011 3;
                     mkOperandAnalysis OPERAND_GPR 12 4 0 1 1012 1;
                     zero_operand; zero_operand]))
           _ eq_refl eq_refl).
Defined.

(** X13 on the sample addition. *)
Lemma analyseOperands_in_bounds_witness :
  ∃ r, analyseOperands toy_GPR_ID toy_MRI (Some (mkOperands 0 None))
         toy_add toy_add_desc = Returns (Some r)
       ∧ numOperands r ≤ 4.
Proof.
  destruct (analyseOperands_in_bounds toy_GPR_ID toy_MRI (mkOperands 0 None)
              toy_add toy_add_desc) as (r & Hr & Hn & _).
  - vm_compute. lia.
  - intros _. vm_compute. lia.
  - intros k regNo Hk%lookup_lt_Some. simpl in Hk. lia.
  - vm_compute. lia.
  - exists r. split; [exact Hr|exact Hn].
Defined.

(** X14 on the sample list of 17 registers. *)
Lemma analyseOperands_throws_witness :
  analyseOperands toy_GPR_ID toy_MRI (Some (mkOperands 0 None))
    toy_list toy_list_desc = Throws.
Proof.
  apply (analyseOperands_throws toy_GPR_ID toy_MRI (mkOperands 0 None)
           toy_list toy_list_desc 16 1).
  - vm_compute. lia.
  - vm_compute. lia.
  - lia.
  - reflexivity.
  - vm_compute. discriminate.
Defined.

(** X16 on two operands that name register 11, read and then written. *)
Lemma tryMergeCurrentRegister_spec_witness :
  tryMergeCurrentRegister
    ([mkOperandAnalysis OPERAND_GPR 11 4 0 0 1011 1;
      mkOperandAnalysis OPERAND_GPR 11 4 0 0 1011 2], 2)
  = Returns ([mkOperandAnalysis OPERAND_GPR 11 4 0 0 1011 3; zero_operand], 1).
Proof.
  refine (proj1 (proj2 (tryMergeCurrentRegister_spec
                          [mkOperandAnalysis OPERAND_GPR 11 4 0 0 1011 1;
                           mkOperandAnalysis OPERAND_GPR 11 4 0 0 1011 2] 1
                          (mkOperandAnalysis OPERAND_GPR 11 4 0 0 1011 2)
                          eq_refl))
            0 (mkOperandAnalysis OPERAND_GPR 11 4 0 0 1011 1) _ eq_refl eq_refl _ _).
  - lia.
  - done.
  - intros k' pop' Hk'. lia.
Defined.

(** X17 on the first sample, with blocks that report no occupation. *)
Lemma printCacheStatistics_counts_witness :
  ∃ s, printCacheStatistics (λ _ : SimpleBlock, float_zero) cold = Done s
       ∧ stat_regions s = 1 ∧ region_overflow s = 0.
Proof.
  destruct (printCacheStatistics_counts (λ _ : SimpleBlock, float_zero) cold
              cold_reachable) as (s & Hs & Hn & _ & Ho & _).
  exists s. split_and!; [exact Hs|exact Hn|exact Ho].
Defined.

(** X11 on the first sample: two bytes after its range cost 2, which the
    budget of 16 bytes bears at the ratio of 4. *)
Lemma findRegion_choice_witness :
  ∃ m', findRegion cold (mkRange 0x100C 0x100E) = Done (m', 0)
        ∧ covered <$> regions m' = [mkRange 0x1000 0x100E].
Proof.
  destruct (findRegion cold (mkRange 0x100C 0x100E)) as [[m' r]| | |] eqn:Hf;
    [|by vm_compute in Hf..].
  pose proof (findRegion_choice cold m' (mkRange 0x100C 0x100E) r) as H.
  replace (policy (code_gate cold) spec_cost (regions cold)
             (searchRegion cold (start (mkRange 0x100C 0x100E))).2
             (mkRange 0x100C 0x100E)) with (Extend 0) in H by by_run.
  destruct H as (-> & reg & Hreg & Hregs); [|exact Hf|].
  - intros i reg Hi Hreg.
    destruct i as [|i]; [|by destruct i].
    vm_compute in Hreg. injection Hreg as <-. vm_compute. reflexivity.
  - exists m'. split; [reflexivity|]. rewrite Hregs.
    vm_compute in Hreg. injection Hreg as <-. by_run.
Defined.

End OnMoreSampleRuns.
